(** * The keyboard input dispatcher of the shell (input.cpp)

    A shallow embedding of the binding table, the matcher, the dispatcher,
    the function registry and the terminfo registry, with the properties
    the design document states about them. *)

From Stdlib Require Import ZArith String Ascii HexString Lia.
From stdpp Require Import base tactics option list sorting.

#[local] Open Scope Z_scope.

(** ** Wide characters and wide strings *)

(** [wchar_t] and [wint_t] are 32-bit. A character is kept as the integer
    it is as a [wchar_t]; where the code does arithmetic on a [wint_t] or
    an [unsigned int] the reduction is written out. Passing a character
    through a [wint_t] and back, as the push-back channel does, gives the
    same character. *)
Definition wchar_t := Z.
Definition wcstring := list wchar_t.
Definition wcstring_list_t := list wcstring.

(** A wide string literal. *)
Definition L (s : string) : wcstring :=
  (λ a, Z.of_N (N_of_ascii a)) <$> list_ascii_of_string s.

Definition UINT_MAX : Z := 2 ^ 32 - 1.

(** [str.c_str()] read up to its terminator, as the loops over
    [const wchar_t *] do. *)
Fixpoint c_str (s : wcstring) : wcstring :=
  match s with
  | [] => []
  | c :: s' => if decide (c = 0) then [] else c :: c_str s'
  end.

(** ** What the headers provide

    input.h, input_common.h, common.h, the C library and curses are not part
    of the file; what they give is taken as parameters. *)

(** A terminal description of curses, as far as the key capabilities go:
    the value of a capability by the name of its macro in term.h, [None]
    for a null pointer. *)
Definition TERMINAL : Type := string → option string.

Class Headers := {
  R_MIN : wchar_t;
  R_MAX : wchar_t;
  R_NULL : wchar_t;
  R_EOF : wchar_t;
  (** the enumerators of input.h for the editor functions *)
  R_BEGINNING_OF_LINE : wchar_t;
  R_END_OF_LINE : wchar_t;
  R_FORWARD_CHAR : wchar_t;
  R_BACKWARD_CHAR : wchar_t;
  R_FORWARD_WORD : wchar_t;
  R_BACKWARD_WORD : wchar_t;
  R_HISTORY_SEARCH_BACKWARD : wchar_t;
  R_HISTORY_SEARCH_FORWARD : wchar_t;
  R_DELETE_CHAR : wchar_t;
  R_BACKWARD_DELETE_CHAR : wchar_t;
  R_KILL_LINE : wchar_t;
  R_YANK : wchar_t;
  R_YANK_POP : wchar_t;
  R_COMPLETE : wchar_t;
  R_COMPLETE_AND_SEARCH : wchar_t;
  R_BEGINNING_OF_HISTORY : wchar_t;
  R_END_OF_HISTORY : wchar_t;
  R_BACKWARD_KILL_LINE : wchar_t;
  R_KILL_WHOLE_LINE : wchar_t;
  R_KILL_WORD : wchar_t;
  R_BACKWARD_KILL_WORD : wchar_t;
  R_BACKWARD_KILL_PATH_COMPONENT : wchar_t;
  R_HISTORY_TOKEN_SEARCH_BACKWARD : wchar_t;
  R_HISTORY_TOKEN_SEARCH_FORWARD : wchar_t;
  R_SELF_INSERT : wchar_t;
  R_TRANSPOSE_CHARS : wchar_t;
  R_TRANSPOSE_WORDS : wchar_t;
  R_UPCASE_WORD : wchar_t;
  R_DOWNCASE_WORD : wchar_t;
  R_CAPITALIZE_WORD : wchar_t;
  R_VI_ARG_DIGIT : wchar_t;
  R_VI_DELETE_TO : wchar_t;
  R_EXECUTE : wchar_t;
  R_BEGINNING_OF_BUFFER : wchar_t;
  R_END_OF_BUFFER : wchar_t;
  R_REPAINT : wchar_t;
  R_FORCE_REPAINT : wchar_t;
  R_UP_LINE : wchar_t;
  R_DOWN_LINE : wchar_t;
  R_SUPPRESS_AUTOSUGGESTION : wchar_t;
  R_ACCEPT_AUTOSUGGESTION : wchar_t;
  R_BEGIN_SELECTION : wchar_t;
  R_END_SELECTION : wchar_t;
  R_KILL_SELECTION : wchar_t;
  R_FORWARD_JUMP : wchar_t;
  R_BACKWARD_JUMP : wchar_t;
  R_AND : wchar_t;
  R_CANCEL : wchar_t;
  iswcntrl : wchar_t → bool;
  ENOENT : Z;
  EILSEQ : Z;
  (** curses, [setupterm(term, STDOUT_FILENO, &errret)]. [term] is [None]
      for a null pointer, with which curses takes the name of the terminal
      from the environment of the process; the second argument is [errno]
      before the call. The result is the description that the call has made
      the current one or, where the call returns [ERR], the value it has
      stored in [errret]; and [errno] after the call. *)
  setupterm : option string → Z → (TERMINAL + Z) * Z;
  (** common.h: the conversion to a narrow string, and the reading of a
      truth value *)
  wcs2string : wcstring → string;
  from_string_bool : wcstring → bool;
}.

Definition DEFAULT_BIND_MODE : wcstring := L "default".
Definition DEFAULT_TERM : wcstring := L "ansi".
Definition MAX_INPUT_FUNCTION_ARGS : Z := 20.

(** ** The function registry *)

Definition name_arr : list wcstring :=
  [
    L "beginning-of-line"; L "end-of-line"; L "forward-char";
    L "backward-char"; L "forward-word"; L "backward-word";
    L "history-search-backward"; L "history-search-forward"; L "delete-char";
    L "backward-delete-char"; L "kill-line"; L "yank";
    L "yank-pop"; L "complete"; L "complete-and-search";
    L "beginning-of-history"; L "end-of-history"; L "backward-kill-line";
    L "kill-whole-line"; L "kill-word"; L "backward-kill-word";
    L "backward-kill-path-component"; L "history-token-search-backward"; L "history-token-search-forward";
    L "self-insert"; L "transpose-chars"; L "transpose-words";
    L "upcase-word"; L "downcase-word"; L "capitalize-word";
    L "vi-arg-digit"; L "vi-delete-to"; L "execute";
    L "beginning-of-buffer"; L "end-of-buffer"; L "repaint";
    L "force-repaint"; L "up-line"; L "down-line";
    L "suppress-autosuggestion"; L "accept-autosuggestion"; L "begin-selection";
    L "end-selection"; L "kill-selection"; L "forward-jump";
    L "backward-jump"; L "and"; L "cancel"  ].

Section Registry.
Context `{Headers}.

(** [code_arr], the codes in the order of [name_arr]. *)
Definition code_arr : list wchar_t :=
  [
    R_BEGINNING_OF_LINE; R_END_OF_LINE; R_FORWARD_CHAR;
    R_BACKWARD_CHAR; R_FORWARD_WORD; R_BACKWARD_WORD;
    R_HISTORY_SEARCH_BACKWARD; R_HISTORY_SEARCH_FORWARD; R_DELETE_CHAR;
    R_BACKWARD_DELETE_CHAR; R_KILL_LINE; R_YANK;
    R_YANK_POP; R_COMPLETE; R_COMPLETE_AND_SEARCH;
    R_BEGINNING_OF_HISTORY; R_END_OF_HISTORY; R_BACKWARD_KILL_LINE;
    R_KILL_WHOLE_LINE; R_KILL_WORD; R_BACKWARD_KILL_WORD;
    R_BACKWARD_KILL_PATH_COMPONENT; R_HISTORY_TOKEN_SEARCH_BACKWARD; R_HISTORY_TOKEN_SEARCH_FORWARD;
    R_SELF_INSERT; R_TRANSPOSE_CHARS; R_TRANSPOSE_WORDS;
    R_UPCASE_WORD; R_DOWNCASE_WORD; R_CAPITALIZE_WORD;
    R_VI_ARG_DIGIT; R_VI_DELETE_TO; R_EXECUTE;
    R_BEGINNING_OF_BUFFER; R_END_OF_BUFFER; R_REPAINT;
    R_FORCE_REPAINT; R_UP_LINE; R_DOWN_LINE;
    R_SUPPRESS_AUTOSUGGESTION; R_ACCEPT_AUTOSUGGESTION; R_BEGIN_SELECTION;
    R_END_SELECTION; R_KILL_SELECTION; R_FORWARD_JUMP;
    R_BACKWARD_JUMP; R_AND; R_CANCEL  ].




Definition input_function_arity (function : Z) : Z :=
  if decide (function = R_FORWARD_JUMP) then 1
  else if decide (function = R_BACKWARD_JUMP) then 1
  else 0.

Definition input_function_get_names : wcstring_list_t := name_arr.

(** The search loop of [input_function_get_code], over both arrays. *)
Fixpoint get_code_loop (names : list wcstring) (codes : list wchar_t)
    (name : wcstring) : wchar_t :=
  match names, codes with
  | n :: names', c :: codes' =>
      if decide (name = n) then c else get_code_loop names' codes' name
  | _, _ => -1
  end.

Definition input_function_get_code (name : wcstring) : wchar_t :=
  get_code_loop name_arr code_arr name.

End Registry.

(** ** The binding table *)

Record input_mapping_t := {
  seq : wcstring;
  commands : wcstring_list_t;
  specification_order : Z;
  mode : wcstring;
  sets_mode : wcstring;
}.

#[global] Instance input_mapping_t_eq_dec : EqDecision input_mapping_t.
Proof. solve_decision. Defined.

(** [mapping_list] and the counter the constructor of [input_mapping_t]
    keeps in a function-local static. *)
Record bindings_t := {
  mapping_list : list input_mapping_t;
  s_last_input_mapping_specification_order : Z;
}.

Definition no_bindings : bindings_t :=
  {| mapping_list := []; s_last_input_mapping_specification_order := 0 |}.

Definition length_is_greater_than (m1 m2 : input_mapping_t) : bool :=
  (length (seq m2) <? length (seq m1))%nat.

Definition specification_order_is_less_than (m1 m2 : input_mapping_t) : bool :=
  specification_order m1 <? specification_order m2.

(** [std::lower_bound]: the bisection of the standard library, [first] and
    [len] being the start and the size of the range still to search. Each
    round at least halves [len], so [fuel = len] rounds are enough. *)
Fixpoint lower_bound_loop {A} (comp : A → A → bool) (l : list A) (val : A)
    (fuel first len : nat) : nat :=
  match fuel with
  | O => first
  | S fuel' =>
      if (len =? 0)%nat then first
      else
        let half := (len / 2)%nat in
        let middle := (first + half)%nat in
        match l !! middle with
        | Some x =>
            if comp x val
            then lower_bound_loop comp l val fuel' (S middle) (len - half - 1)%nat
            else lower_bound_loop comp l val fuel' first half
        | None => first
        end
  end.

Definition lower_bound {A} (comp : A → A → bool) (l : list A) (val : A) : nat :=
  lower_bound_loop comp l val (length l) 0%nat (length l).

(** [v.insert(v.begin() + loc, x)]. *)
Definition vector_insert {A} (loc : nat) (x : A) (l : list A) : list A :=
  take loc l ++ x :: drop loc l.

Definition input_mapping_insert_sorted (new_mapping : input_mapping_t)
    (l : list input_mapping_t) : list input_mapping_t :=
  let loc := lower_bound length_is_greater_than l new_mapping in
  vector_insert loc new_mapping l.

(** The constructor: the members are copied and the static counter is
    incremented, as an [unsigned int]. *)
Definition new_input_mapping_t (s : wcstring) (c : wcstring_list_t)
    (m sm : wcstring) (last : Z) : input_mapping_t * Z :=
  let last' := (last + 1) mod 2 ^ 32 in
  ({| seq := s; commands := c; specification_order := last';
      mode := m; sets_mode := sm |}, last').

(** [input_mapping_add]. The arguments are the strings the four pointers
    point to; the null checks at the top have nothing to refuse. *)
Definition input_mapping_add (sequence : wcstring) (commands_vector : wcstring_list_t)
    (mode' sets_mode' : wcstring) (b : bindings_t) : bindings_t :=
  match list_find (λ m, seq m = sequence ∧ mode m = mode') (mapping_list b) with
  | Some (i, m) =>
      {| mapping_list :=
           <[i := {| seq := seq m; commands := commands_vector;
                     specification_order := specification_order m;
                     mode := mode m; sets_mode := sets_mode' |}]> (mapping_list b);
         s_last_input_mapping_specification_order :=
           s_last_input_mapping_specification_order b |}
  | None =>
      let '(new_mapping, last') :=
        new_input_mapping_t sequence commands_vector mode' sets_mode'
          (s_last_input_mapping_specification_order b) in
      {| mapping_list := input_mapping_insert_sorted new_mapping (mapping_list b);
         s_last_input_mapping_specification_order := last' |}
  end.

(** The overload for a single command. *)
Definition input_mapping_add1 (sequence command mode' sets_mode' : wcstring)
    (b : bindings_t) : bindings_t :=
  input_mapping_add sequence [command] mode' sets_mode' b.

(** [input_mapping_erase]; [mode'] is [None] for a null pointer, which
    stands for any mode. The found slot takes the last element, unless it
    is the last, and the vector loses its last element. *)
Definition input_mapping_erase (sequence : wcstring) (mode' : option wcstring)
    (b : bindings_t) : bool * bindings_t :=
  let l := mapping_list b in
  let sz := length l in
  match list_find (λ m, sequence = seq m ∧ (mode' = None ∨ mode' = Some (mode m))) l with
  | Some (i, _) =>
      let l' :=
        if decide (i ≠ sz - 1)%nat
        then match last l with Some x => <[i := x]> l | None => l end
        else l in
      (true, {| mapping_list := removelast l';
                s_last_input_mapping_specification_order :=
                  s_last_input_mapping_specification_order b |})
  | None => (false, b)
  end.

Definition input_mapping_get (sequence : wcstring) (b : bindings_t)
    : option (wcstring_list_t * wcstring * wcstring) :=
  match list_find (λ m, sequence = seq m) (mapping_list b) with
  | Some (_, m) => Some (commands m, mode m, sets_mode m)
  | None => None
  end.

(** Matching order: no binding comes before a longer one. *)
Definition descending (l : list input_mapping_t) : Prop :=
  ∀ i j m1 m2, l !! i = Some m1 → l !! j = Some m2 → (i ≤ j)%nat →
    (length (seq m2) ≤ length (seq m1))%nat.

(** ** The reader adapter *)

(** Modelled from the spec: the character reader of input_common.cpp, which
    is not among the sources. Pushed-back characters form a stack, and a
    read takes from the stack before it takes the next character of the
    terminal. [tty] is the sequence of characters the terminal delivers and
    [tty_pos] how many of them have been taken. [read_log] records, oldest
    first, whether each read so far was a timed one. The spec does not say
    what a timed read gives when its time runs out; here every read, timed
    or not, delivers the next character. *)
Record input_common_t := {
  lookahead : list wchar_t;
  tty : nat → wchar_t;
  tty_pos : nat;
  read_log : list bool;
}.

(** Modelled from the spec: [read_char(timed)] of the reader, which takes
    the top of the stack if there is one and the next character of the
    terminal otherwise. *)
Definition input_common_readch (timed : bool) (r : input_common_t)
    : wchar_t * input_common_t :=
  match lookahead r with
  | c :: rest =>
      (c, {| lookahead := rest; tty := tty r; tty_pos := tty_pos r;
             read_log := read_log r ++ [timed] |})
  | [] =>
      (tty r (tty_pos r),
       {| lookahead := []; tty := tty r; tty_pos := S (tty_pos r);
          read_log := read_log r ++ [timed] |})
  end.

(** Modelled from the spec: [unread_char(ch)] of the reader, a push onto
    the stack. *)
Definition input_common_unreadch (ch : wchar_t) (r : input_common_t) : input_common_t :=
  {| lookahead := ch :: lookahead r; tty := tty r; tty_pos := tty_pos r;
     read_log := read_log r |}.

Definition input_unreadch (ch : wchar_t) (r : input_common_t) : input_common_t :=
  input_common_unreadch ch r.

(** The [n]-th character a reader in state [r] is going to deliver. *)
Definition pending (r : input_common_t) (n : nat) : wchar_t :=
  match lookahead r !! n with
  | Some c => c
  | None => tty r (tty_pos r + (n - length (lookahead r)))%nat
  end.

(** ** Process-wide state *)

Record function_args_t := {
  input_function_args : list wchar_t;
  input_function_status : bool;
  input_function_args_index : Z;
}.

(** Modelled from the spec: the collaborators the dispatcher writes to,
    which are not among the sources. [fish_bind_mode] is the shell variable
    that holds the current mode, and [TERM], [TERM_PROGRAM] and
    [fish_term256] are the shell variables of these names, each [None]
    while it is not set; [proc_last_status] is the last status of the
    process; [parser_evals] lists the commands handed to the evaluator so
    far, oldest first. *)
Record shell_t := {
  fish_bind_mode : option wcstring;
  TERM : option wcstring;
  TERM_PROGRAM : option wcstring;
  fish_term256 : option wcstring;
  proc_last_status : Z;
  parser_evals : list wcstring;
}.

(** Modelled from the spec: what the output module, which is not among the
    sources, has been told by [output_set_term] and by
    [output_set_supports_term256]; [output_term] is [None] as long as it
    has been told no name. *)
Record output_t := {
  output_term : option wcstring;
  output_supports_term256 : bool;
}.

Module terminfo.
Record terminfo_mapping_t := {
  name : wcstring;
  seq : option string;
}.
End terminfo.

(** The state of the process. [cur_term] is the current terminal
    description of curses, [None] while there is none. Modelled from the
    spec: [interrupt_installed] tells whether the reader has been given the
    interrupt handler as its callback. *)
Record world := {
  bindings : bindings_t;
  fargs : function_args_t;
  rd : input_common_t;
  sh : shell_t;
  terminfo_mappings : list terminfo.terminfo_mapping_t;
  is_init : bool;
  errno : Z;
  cur_term : option TERMINAL;
  output : output_t;
  interrupt_installed : bool;
}.

Definition with_bindings (b : bindings_t) (w : world) : world :=
  {| bindings := b; fargs := fargs w; rd := rd w; sh := sh w;
     terminfo_mappings := terminfo_mappings w; is_init := is_init w; errno := errno w;
     cur_term := cur_term w; output := output w;
     interrupt_installed := interrupt_installed w |}.

Definition with_fargs (a : function_args_t) (w : world) : world :=
  {| bindings := bindings w; fargs := a; rd := rd w; sh := sh w;
     terminfo_mappings := terminfo_mappings w; is_init := is_init w; errno := errno w;
     cur_term := cur_term w; output := output w;
     interrupt_installed := interrupt_installed w |}.

Definition with_rd (r : input_common_t) (w : world) : world :=
  {| bindings := bindings w; fargs := fargs w; rd := r; sh := sh w;
     terminfo_mappings := terminfo_mappings w; is_init := is_init w; errno := errno w;
     cur_term := cur_term w; output := output w;
     interrupt_installed := interrupt_installed w |}.

Definition with_sh (s : shell_t) (w : world) : world :=
  {| bindings := bindings w; fargs := fargs w; rd := rd w; sh := s;
     terminfo_mappings := terminfo_mappings w; is_init := is_init w; errno := errno w;
     cur_term := cur_term w; output := output w;
     interrupt_installed := interrupt_installed w |}.

Definition with_terminfo_mappings (l : list terminfo.terminfo_mapping_t)
    (w : world) : world :=
  {| bindings := bindings w; fargs := fargs w; rd := rd w; sh := sh w;
     terminfo_mappings := l; is_init := is_init w; errno := errno w;
     cur_term := cur_term w; output := output w;
     interrupt_installed := interrupt_installed w |}.

Definition with_is_init (flag : bool) (w : world) : world :=
  {| bindings := bindings w; fargs := fargs w; rd := rd w; sh := sh w;
     terminfo_mappings := terminfo_mappings w; is_init := flag; errno := errno w;
     cur_term := cur_term w; output := output w;
     interrupt_installed := interrupt_installed w |}.

Definition with_errno (e : Z) (w : world) : world :=
  {| bindings := bindings w; fargs := fargs w; rd := rd w; sh := sh w;
     terminfo_mappings := terminfo_mappings w; is_init := is_init w; errno := e;
     cur_term := cur_term w; output := output w;
     interrupt_installed := interrupt_installed w |}.

Definition with_cur_term (t : option TERMINAL) (w : world) : world :=
  {| bindings := bindings w; fargs := fargs w; rd := rd w; sh := sh w;
     terminfo_mappings := terminfo_mappings w; is_init := is_init w; errno := errno w;
     cur_term := t; output := output w;
     interrupt_installed := interrupt_installed w |}.

Definition with_output (o : output_t) (w : world) : world :=
  {| bindings := bindings w; fargs := fargs w; rd := rd w; sh := sh w;
     terminfo_mappings := terminfo_mappings w; is_init := is_init w; errno := errno w;
     cur_term := cur_term w; output := o;
     interrupt_installed := interrupt_installed w |}.

Definition with_interrupt_installed (flag : bool) (w : world) : world :=
  {| bindings := bindings w; fargs := fargs w; rd := rd w; sh := sh w;
     terminfo_mappings := terminfo_mappings w; is_init := is_init w; errno := errno w;
     cur_term := cur_term w; output := output w;
     interrupt_installed := flag |}.

(** The current mode is what the variable holds, or the default one. *)
Definition input_get_bind_mode (w : world) : wcstring :=
  match fish_bind_mode (sh w) with
  | Some mode' => mode'
  | None => DEFAULT_BIND_MODE
  end.

Definition input_set_bind_mode (bm : wcstring) (w : world) : world :=
  with_sh {| fish_bind_mode := Some bm; TERM := TERM (sh w);
             TERM_PROGRAM := TERM_PROGRAM (sh w); fish_term256 := fish_term256 (sh w);
             proc_last_status := proc_last_status (sh w);
             parser_evals := parser_evals (sh w) |} w.

Definition input_function_set_status (status : bool) (w : world) : world :=
  with_fargs {| input_function_args := input_function_args (fargs w);
                input_function_status := status;
                input_function_args_index := input_function_args_index (fargs w) |} w.

(** [input_function_args[input_function_args_index++] = arg]. The array has
    [MAX_INPUT_FUNCTION_ARGS] slots and the index is not checked: a store
    outside the array is undefined, which is [None] here. *)
Definition input_function_push_arg (arg : wchar_t) (w : world) : option world :=
  let i := input_function_args_index (fargs w) in
  if (0 <=? i) && (i <? MAX_INPUT_FUNCTION_ARGS) then
    Some (with_fargs
            {| input_function_args := <[Z.to_nat i := arg]> (input_function_args (fargs w));
               input_function_status := input_function_status (fargs w);
               input_function_args_index := i + 1 |} w)
  else None.

Definition input_function_get_arg (index : Z) (w : world) : option wchar_t :=
  if (0 <=? index) && (index <? MAX_INPUT_FUNCTION_ARGS)
  then input_function_args (fargs w) !! Z.to_nat index
  else None.

Section Dispatcher.
Context `{Headers}.

(** The evaluator of shell commands is a collaborator; what a command does
    to the process is left open. *)
Variable parser_eval : wcstring → world → world.

(** The loop of [input_function_push_args], [arity] rounds. *)
Fixpoint push_args_loop (arity : nat) (w : world) : option world :=
  match arity with
  | O => Some w
  | S arity' =>
      let '(arg, r) := input_common_readch false (rd w) in
      w' ← input_function_push_arg arg (with_rd r w);
      push_args_loop arity' w'
  end.

Definition input_function_push_args (code : Z) (w : world) : option world :=
  push_args_loop (Z.to_nat (input_function_arity code)) w.

(** The first loop of [input_mapping_execute], over the commands from the
    last to the first. *)
Fixpoint capture_args (cmds : list wcstring) (w : world) : option world :=
  match cmds with
  | [] => Some w
  | command :: cmds' =>
      let code := input_function_get_code command in
      if decide (code ≠ -1)
      then w' ← input_function_push_args code w; capture_args cmds' w'
      else capture_args cmds' w
  end.

Definition unread_all (chars : list wchar_t) (r : input_common_t) : input_common_t :=
  foldl (λ r ch, input_unreadch ch r) r chars.

(** How the second loop ends: at the end of the commands, by the [return]
    that skips [input_set_bind_mode], or because the binding has been lost.

    [m] is a reference to an element of [mapping_list], and the loop reads
    [m.commands], [m.seq] and, after it, [m.sets_mode] through it. As long
    as the table is the one the call began with, the reference denotes the
    binding [m] the call began with. A command that has been evaluated may
    have changed the table, by [bind] or [bind -e], and so have
    overwritten, moved or released the element; what is read through the
    reference after that is not followed here: the loop ends as
    [Invalidated]. *)
Inductive loop_exit := Finished | Returned | Invalidated.

Fixpoint run_commands (m : input_mapping_t) (allow_commands : bool)
    (cmds : list wcstring) (w : world) : loop_exit * world :=
  match cmds with
  | [] => (Finished, w)
  | command :: cmds' =>
      let code := input_function_get_code command in
      if decide (code ≠ -1) then
        run_commands m allow_commands cmds' (with_rd (input_unreadch code (rd w)) w)
      else if allow_commands then
        let last_status := proc_last_status (sh w) in
        let w1 := parser_eval command w in
        let w2 := with_sh {| fish_bind_mode := fish_bind_mode (sh w1);
                             TERM := TERM (sh w1);
                             TERM_PROGRAM := TERM_PROGRAM (sh w1);
                             fish_term256 := fish_term256 (sh w1);
                             proc_last_status := last_status;
                             parser_evals := parser_evals (sh w1) ++ [command] |} w1 in
        let w3 := with_rd (input_unreadch R_NULL (rd w2)) w2 in
        if decide (mapping_list (bindings w1) = mapping_list (bindings w))
        then run_commands m allow_commands cmds' w3
        else (Invalidated, w3)
      else
        (Returned,
         with_rd (input_unreadch R_NULL (unread_all (reverse (seq m)) (rd w))) w)
  end.

(** [input_mapping_execute]. [None]: a store outside the argument array,
    which is undefined, or a binding lost under the call. *)
Definition input_mapping_execute (m : input_mapping_t) (allow_commands : bool)
    (w : world) : option world :=
  let w0 := input_function_set_status true w in
  w1 ← capture_args (reverse (commands m)) w0;
  match run_commands m allow_commands (reverse (commands m)) w1 with
  | (Finished, w2) => Some (input_set_bind_mode (c_str (sets_mode m)) w2)
  | (Returned, w2) => Some w2
  | (Invalidated, _) => None
  end.

(** The [for] loop of [input_mapping_is_match]. [str] is what is left of
    the sequence from position [j] on and [c] the last character read; the
    result tells where the loop stopped, with which character, and whether
    it stopped at the terminator. *)
Fixpoint match_loop (first : wchar_t) (str : wcstring) (j : nat) (c : wchar_t)
    (r : input_common_t) : nat * wchar_t * bool * input_common_t :=
  match str with
  | [] => (j, c, true, r)
  | x :: str' =>
      let timed := (0 <? j)%nat && iswcntrl first in
      let '(c', r') := input_common_readch timed r in
      if decide (x ≠ c') then (j, c', false, r')
      else match_loop first str' (S j) c' r'
  end.

Definition input_mapping_is_match (m : input_mapping_t) (r : input_common_t)
    : bool * input_common_t :=
  let str := c_str (seq m) in
  let '(j, c, at_end, r1) := match_loop (nth 0 str 0) str 0 0 r in
  if at_end then (true, r1)
  else (false, unread_all (reverse (take j (seq m))) (input_unreadch c r1)).

(** The scan of [input_mapping_execute_matching_or_generic]: it stops at
    the first binding that matches, or runs to the end with the generic
    binding it has come across, if any. *)
Inductive scan_exit :=
  | Matched (m : input_mapping_t)
  | Exhausted (generic : option input_mapping_t).

Fixpoint scan_mappings (bind_mode : wcstring) (l : list input_mapping_t)
    (generic : option input_mapping_t) (r : input_common_t)
    : scan_exit * input_common_t :=
  match l with
  | [] => (Exhausted generic, r)
  | m :: l' =>
      if decide (mode m ≠ bind_mode) then scan_mappings bind_mode l' generic r
      else if (length (seq m) =? 0)%nat then scan_mappings bind_mode l' (Some m) r
      else
        let '(matched, r') := input_mapping_is_match m r in
        if matched then (Matched m, r')
        else scan_mappings bind_mode l' generic r'
  end.

Definition input_mapping_execute_matching_or_generic (allow_commands : bool)
    (w : world) : option world :=
  let bind_mode := input_get_bind_mode w in
  let '(found, r) := scan_mappings bind_mode (mapping_list (bindings w)) None (rd w) in
  let w' := with_rd r w in
  match found with
  | Matched m => input_mapping_execute m allow_commands w'
  | Exhausted (Some generic) => input_mapping_execute generic allow_commands w'
  | Exhausted None =>
      let '(c, r') := input_common_readch false r in
      if decide (c = R_EOF) then Some (with_rd (input_common_unreadch c r') w)
      else Some (with_rd r' w)
  end.

End Dispatcher.

(** ** The terminfo registry and the initialisation *)

Section Terminfo.
Context `{Headers}.

(** [{ (L ## #key) + 4, key }]: the name is the macro's without its
    [key_], the sequence is what the macro gives, which is a member of the
    current terminal description [t]. *)
Definition TERMINFO_ADD (t : TERMINAL) (key : string) : terminfo.terminfo_mapping_t :=
  {| terminfo.name := drop 4 (L key); terminfo.seq := t key |}.

Definition tinfos (t : TERMINAL) : list terminfo.terminfo_mapping_t :=
  [
    TERMINFO_ADD t "key_a1"; TERMINFO_ADD t "key_a3";
    TERMINFO_ADD t "key_b2"; TERMINFO_ADD t "key_backspace";
    TERMINFO_ADD t "key_beg"; TERMINFO_ADD t "key_btab";
    TERMINFO_ADD t "key_c1"; TERMINFO_ADD t "key_c3";
    TERMINFO_ADD t "key_cancel"; TERMINFO_ADD t "key_catab";
    TERMINFO_ADD t "key_clear"; TERMINFO_ADD t "key_close";
    TERMINFO_ADD t "key_command"; TERMINFO_ADD t "key_copy";
    TERMINFO_ADD t "key_create"; TERMINFO_ADD t "key_ctab";
    TERMINFO_ADD t "key_dc"; TERMINFO_ADD t "key_dl";
    TERMINFO_ADD t "key_down"; TERMINFO_ADD t "key_eic";
    TERMINFO_ADD t "key_end"; TERMINFO_ADD t "key_enter";
    TERMINFO_ADD t "key_eol"; TERMINFO_ADD t "key_eos";
    TERMINFO_ADD t "key_exit"; TERMINFO_ADD t "key_f0";
    TERMINFO_ADD t "key_f1"; TERMINFO_ADD t "key_f2";
    TERMINFO_ADD t "key_f3"; TERMINFO_ADD t "key_f4";
    TERMINFO_ADD t "key_f5"; TERMINFO_ADD t "key_f6";
    TERMINFO_ADD t "key_f7"; TERMINFO_ADD t "key_f8";
    TERMINFO_ADD t "key_f9"; TERMINFO_ADD t "key_f10";
    TERMINFO_ADD t "key_f11"; TERMINFO_ADD t "key_f12";
    TERMINFO_ADD t "key_f13"; TERMINFO_ADD t "key_f14";
    TERMINFO_ADD t "key_f15"; TERMINFO_ADD t "key_f16";
    TERMINFO_ADD t "key_f17"; TERMINFO_ADD t "key_f18";
    TERMINFO_ADD t "key_f19"; TERMINFO_ADD t "key_f20";
    TERMINFO_ADD t "key_find"; TERMINFO_ADD t "key_help";
    TERMINFO_ADD t "key_home"; TERMINFO_ADD t "key_ic";
    TERMINFO_ADD t "key_il"; TERMINFO_ADD t "key_left";
    TERMINFO_ADD t "key_ll"; TERMINFO_ADD t "key_mark";
    TERMINFO_ADD t "key_message"; TERMINFO_ADD t "key_move";
    TERMINFO_ADD t "key_next"; TERMINFO_ADD t "key_npage";
    TERMINFO_ADD t "key_open"; TERMINFO_ADD t "key_options";
    TERMINFO_ADD t "key_ppage"; TERMINFO_ADD t "key_previous";
    TERMINFO_ADD t "key_print"; TERMINFO_ADD t "key_redo";
    TERMINFO_ADD t "key_reference"; TERMINFO_ADD t "key_refresh";
    TERMINFO_ADD t "key_replace"; TERMINFO_ADD t "key_restart";
    TERMINFO_ADD t "key_resume"; TERMINFO_ADD t "key_right";
    TERMINFO_ADD t "key_save"; TERMINFO_ADD t "key_sbeg";
    TERMINFO_ADD t "key_scancel"; TERMINFO_ADD t "key_scommand";
    TERMINFO_ADD t "key_scopy"; TERMINFO_ADD t "key_screate";
    TERMINFO_ADD t "key_sdc"; TERMINFO_ADD t "key_sdl";
    TERMINFO_ADD t "key_select"; TERMINFO_ADD t "key_send";
    TERMINFO_ADD t "key_seol"; TERMINFO_ADD t "key_sexit";
    TERMINFO_ADD t "key_sf"; TERMINFO_ADD t "key_sfind";
    TERMINFO_ADD t "key_shelp"; TERMINFO_ADD t "key_shome";
    TERMINFO_ADD t "key_sic"; TERMINFO_ADD t "key_sleft";
    TERMINFO_ADD t "key_smessage"; TERMINFO_ADD t "key_smove";
    TERMINFO_ADD t "key_snext"; TERMINFO_ADD t "key_soptions";
    TERMINFO_ADD t "key_sprevious"; TERMINFO_ADD t "key_sprint";
    TERMINFO_ADD t "key_sr"; TERMINFO_ADD t "key_sredo";
    TERMINFO_ADD t "key_sreplace"; TERMINFO_ADD t "key_sright";
    TERMINFO_ADD t "key_srsume"; TERMINFO_ADD t "key_ssave";
    TERMINFO_ADD t "key_ssuspend"; TERMINFO_ADD t "key_stab";
    TERMINFO_ADD t "key_sundo"; TERMINFO_ADD t "key_suspend";
    TERMINFO_ADD t "key_undo"; TERMINFO_ADD t "key_up"
  ].

(** [input_terminfo_init]. The macros read the current terminal
    description; with none there the read is undefined, [None]. *)
Definition input_terminfo_init (w : world) : option world :=
  t ← cur_term w;
  Some (with_terminfo_mappings (terminfo_mappings w ++ tinfos t) w).

Definition default_bindings (b : bindings_t) : bindings_t :=
  let add sequence command :=
    input_mapping_add1 sequence command DEFAULT_BIND_MODE DEFAULT_BIND_MODE in
  add [5] (L "bind")
    (add [4] (L "exit")
      (add [3] (L "commandline " ++ [34; 34])
        (add [9] (L "complete")
          (add [10] (L "execute")
            (add [] (L "self-insert") b))))).

(** Modelled from the spec: [input_common_init(&interrupt_handler)] of the
    reader installs the callback. *)
Definition input_common_init (w : world) : world :=
  with_interrupt_installed true w.

(** Modelled from the spec: [env_set(L"TERM", value, ENV_GLOBAL | ENV_EXPORT)]
    of the environment gives the variable the value. *)
Definition env_set_TERM (value : wcstring) (w : world) : world :=
  with_sh {| fish_bind_mode := fish_bind_mode (sh w); TERM := Some value;
             TERM_PROGRAM := TERM_PROGRAM (sh w); fish_term256 := fish_term256 (sh w);
             proc_last_status := proc_last_status (sh w);
             parser_evals := parser_evals (sh w) |} w.

(** Modelled from the spec: [output_set_term] and
    [output_set_supports_term256] of the output module store what they are
    given. *)
Definition output_set_term (term : wcstring) (w : world) : world :=
  with_output {| output_term := Some term;
                 output_supports_term256 := output_supports_term256 (output w) |} w.

Definition output_set_supports_term256 (val : bool) (w : world) : world :=
  with_output {| output_term := output_term (output w);
                 output_supports_term256 := val |} w.

(** [str.find(needle) != wcstring::npos]. *)
Fixpoint wcs_find (needle str : wcstring) : bool :=
  bool_decide (needle `prefix_of` str) ||
  match str with
  | [] => false
  | _ :: str' => wcs_find needle str'
  end.

(** [update_fish_term256]. Modelled from the spec: a variable that is
    missing is not equal to a string. *)
Definition update_fish_term256 (w : world) : world :=
  let support_term256 :=
    match fish_term256 (sh w) with
    | Some (c :: value) => from_string_bool (c :: value)
    | _ =>
        match TERM (sh w) with
        | None => false
        | Some term =>
            if wcs_find (L "256color") term then true
            else if wcs_find (L "xterm") term
            then negb (bool_decide (TERM_PROGRAM (sh w) = Some (L "Apple_Terminal")))
            else false
        end
    end in
  output_set_supports_term256 support_term256 w.

(** The two attempts of [input_init] to set a terminal up: with the name
    the environment has, and, if curses knows no such terminal, with
    [DEFAULT_TERM], which [TERM] is set to before. [None]: the process has
    been ended by [exit_without_destructors]. *)
Definition input_init_setupterm (w : world) : option world :=
  let '(res, e) := setupterm None (errno w) in
  let w := with_errno e w in
  match res with
  | inl t => Some (with_cur_term (Some t) w)
  | inr errret =>
      if decide (errret = 0) then
        let w := env_set_TERM DEFAULT_TERM w in
        let default_term := wcs2string DEFAULT_TERM in
        let '(res, e) := setupterm (Some default_term) (errno w) in
        let w := with_errno e w in
        match res with
        | inl t => Some (with_cur_term (Some t) w)
        | inr _ => None
        end
      else None
  end.

(** [input_init]. [None]: the process has ended, because no terminal could
    be set up or because the assertion on [TERM] has failed. [term] is the
    value [TERM] has before a terminal is set up. *)
Definition input_init (w : world) : option world :=
  if is_init w then Some w
  else
    let w := with_is_init true w in
    let w := input_common_init w in
    let term := TERM (sh w) in
    w ← input_init_setupterm w;
    term ← term;
    let w := output_set_term term w in
    w ← input_terminfo_init w;
    let w := update_fish_term256 w in
    if decide (mapping_list (bindings w) = [])
    then Some (with_bindings (default_bindings (bindings w)) w)
    else Some w.

(** [input_terminfo_get_sequence]. [name'] is [None] for a null pointer.
    The result is the returned flag and what [*out_seq] is assigned, if it
    is; [None] overall when the process ended in [input_init]. The
    conversion of the byte sequence by [format_string(L"%s", res)] widens
    each byte. *)
Definition input_terminfo_get_sequence (name' : option wcstring) (w : world)
    : option (bool * option wcstring * world) :=
  match name' with
  | None => Some (false, None, w)
  | Some name' =>
      w1 ← input_init w;
      let '(res, err) :=
        match list_find (λ m, name' = terminfo.name m) (terminfo_mappings w1) with
        | Some (_, m) => (terminfo.seq m, EILSEQ)
        | None => (None, ENOENT)
        end in
      match res with
      | None => Some (false, None, with_errno err w1)
      | Some res => Some (true, Some (L res), w1)
      end
  end.

End Terminfo.

(** ** A platform and a few states to evaluate on *)

(** A terminal that has a sequence for [key_up] and none for [key_f20]. *)
Definition example_terminal : TERMINAL :=
  λ key,
    if String.eqb key "key_up" then Some (String (ascii_of_nat 27) "[A")
    else if String.eqb key "key_f20" then None
    else Some ("<" ++ key ++ ">")%string.

(** A terminal that has a sequence for [key_up] only. *)
Definition ansi_terminal : TERMINAL :=
  λ key,
    if String.eqb key "key_up" then Some (String (ascii_of_nat 27) "[A") else None.

(** The reserved range starts at 0xe000, ten codes are kept for the reader
    below the editor functions, whose codes number on in the order of
    [code_arr], and the control characters are those of the C locale;
    curses is left open. *)
Definition platform (setupterm' : option string → Z → (TERMINAL + Z) * Z)
    : Headers := {|
  R_MIN := 57344;
  R_MAX := 57401;
  R_NULL := 57344;
  R_EOF := 57345;
  R_BEGINNING_OF_LINE := 57354;
  R_END_OF_LINE := 57355;
  R_FORWARD_CHAR := 57356;
  R_BACKWARD_CHAR := 57357;
  R_FORWARD_WORD := 57358;
  R_BACKWARD_WORD := 57359;
  R_HISTORY_SEARCH_BACKWARD := 57360;
  R_HISTORY_SEARCH_FORWARD := 57361;
  R_DELETE_CHAR := 57362;
  R_BACKWARD_DELETE_CHAR := 57363;
  R_KILL_LINE := 57364;
  R_YANK := 57365;
  R_YANK_POP := 57366;
  R_COMPLETE := 57367;
  R_COMPLETE_AND_SEARCH := 57368;
  R_BEGINNING_OF_HISTORY := 57369;
  R_END_OF_HISTORY := 57370;
  R_BACKWARD_KILL_LINE := 57371;
  R_KILL_WHOLE_LINE := 57372;
  R_KILL_WORD := 57373;
  R_BACKWARD_KILL_WORD := 57374;
  R_BACKWARD_KILL_PATH_COMPONENT := 57375;
  R_HISTORY_TOKEN_SEARCH_BACKWARD := 57376;
  R_HISTORY_TOKEN_SEARCH_FORWARD := 57377;
  R_SELF_INSERT := 57378;
  R_TRANSPOSE_CHARS := 57379;
  R_TRANSPOSE_WORDS := 57380;
  R_UPCASE_WORD := 57381;
  R_DOWNCASE_WORD := 57382;
  R_CAPITALIZE_WORD := 57383;
  R_VI_ARG_DIGIT := 57384;
  R_VI_DELETE_TO := 57385;
  R_EXECUTE := 57386;
  R_BEGINNING_OF_BUFFER := 57387;
  R_END_OF_BUFFER := 57388;
  R_REPAINT := 57389;
  R_FORCE_REPAINT := 57390;
  R_UP_LINE := 57391;
  R_DOWN_LINE := 57392;
  R_SUPPRESS_AUTOSUGGESTION := 57393;
  R_ACCEPT_AUTOSUGGESTION := 57394;
  R_BEGIN_SELECTION := 57395;
  R_END_SELECTION := 57396;
  R_KILL_SELECTION := 57397;
  R_FORWARD_JUMP := 57398;
  R_BACKWARD_JUMP := 57399;
  R_AND := 57400;
  R_CANCEL := 57401;
  iswcntrl := λ c, ((0 <=? c) && (c <? 32)) || (c =? 127);
  ENOENT := 2;
  EILSEQ := 84;
  setupterm := setupterm';
  wcs2string := λ s, string_of_list_ascii ((λ c, ascii_of_N (Z.to_N c)) <$> s);
  from_string_bool := λ s, bool_decide (s = L "1");
|}.

(** A curses that sets the first of the two terminals up, whatever the
    name is. *)
#[export] Instance example_headers : Headers :=
  platform (λ term e, (inl example_terminal, e)).

(** A curses that does not know the terminal of the environment and has
    the second of the two terminals as ["ansi"]; a call that fails leaves
    [errno] at 2. *)
Definition fallback_headers : Headers :=
  platform (λ term e,
              match term with
              | Some term =>
                  if String.eqb term "ansi" then (inl ansi_terminal, e) else (inr 0, 2)
              | None => (inr 0, 2)
              end).

(** An evaluator that does nothing, and one whose commands fail and switch
    to the mode ["visual"]. *)
Definition idle_eval (command : wcstring) (w : world) : world := w.


(** A terminal that delivers [chars] and then [R_EOF] for ever. *)
Definition tty_of (chars : list wchar_t) : nat → wchar_t :=
  λ n, nth n chars R_EOF.

Definition reader_of (chars : list wchar_t) : input_common_t :=
  {| lookahead := []; tty := tty_of chars; tty_pos := 0; read_log := [] |}.

Definition world_of (b : bindings_t) (chars : list wchar_t) : world :=
  {| bindings := b;
     fargs := {| input_function_args := replicate 20 0;
                 input_function_status := false;
                 input_function_args_index := 0 |};
     rd := reader_of chars;
     sh := {| fish_bind_mode := None; TERM := Some (L "xterm");
              TERM_PROGRAM := None; fish_term256 := None;
              proc_last_status := 0; parser_evals := [] |};
     terminfo_mappings := [];
     is_init := false;
     errno := 0;
     cur_term := None;
     output := {| output_term := None; output_supports_term256 := false |};
     interrupt_installed := false |}.

(** The bindings of ["a"], ["ab"] and ["abc"] to a function each, added in
    this order. *)
Definition abc_bindings : bindings_t :=
  input_mapping_add1 (L "abc") (L "end-of-line") DEFAULT_BIND_MODE DEFAULT_BIND_MODE
    (input_mapping_add1 (L "ab") (L "forward-char") DEFAULT_BIND_MODE DEFAULT_BIND_MODE
      (input_mapping_add1 (L "a") (L "backward-char") DEFAULT_BIND_MODE DEFAULT_BIND_MODE
        no_bindings)).

(** ** Notions the properties are stated with *)

(** [comp _ val] holds on a front part of [l] only, which is what
    [std::lower_bound] asks of its range. *)
Definition partitioned {A} (comp : A → A → bool) (l : list A) (val : A) : Prop :=
  ∀ i j x y, l !! i = Some x → l !! j = Some y → (i ≤ j)%nat →
    comp y val = true → comp x val = true.

(** What identifies a binding. *)
Definition key (m : input_mapping_t) : wcstring * wcstring := (seq m, mode m).

(** The arguments of a call of [input_mapping_add], and a run of calls. *)
Definition add_args : Type := wcstring * wcstring_list_t * wcstring * wcstring.

Definition apply_add (b : bindings_t) (a : add_args) : bindings_t :=
  let '(sequence, cmds, mode', sets_mode') := a in
  input_mapping_add sequence cmds mode' sets_mode' b.

Definition run_adds (ops : list add_args) (b : bindings_t) : bindings_t :=
  foldl apply_add b ops.

(** What holds of a table that calls of [input_mapping_add] have built from
    the empty one: no two bindings have the same sequence and mode, and, as
    long as the counter has not wrapped around, it counts the bindings and
    bounds their stamps. *)
Definition add_invariant (b : bindings_t) : Prop :=
  NoDup (key <$> mapping_list b) ∧
  (Z.of_nat (length (mapping_list b)) ≤ UINT_MAX →
   s_last_input_mapping_specification_order b = Z.of_nat (length (mapping_list b)) ∧
   ∀ m, m ∈ mapping_list b →
     0 < specification_order m ≤ s_last_input_mapping_specification_order b).

(** [n] reads in a row, none of them timed. *)
Fixpoint read_chars (n : nat) (r : input_common_t) : list wchar_t * input_common_t :=
  match n with
  | O => ([], r)
  | S n' =>
      let '(c, r1) := input_common_readch false r in
      let '(cs, r2) := read_chars n' r1 in
      (c :: cs, r2)
  end.

(** The input a reader in state [r] is going to deliver starts with the
    sequence of [m]. *)
Definition matches (m : input_mapping_t) (r : input_common_t) : Prop :=
  ∀ i x, c_str (seq m) !! i = Some x → pending r i = x.

(** Whether the [j]-th read of a match against [s] is a timed one. *)
Definition timed_at `{Headers} (s : wcstring) (j : nat) : bool :=
  (0 <? j)%nat && iswcntrl (nth 0 s 0).

(** How many characters the first loop of [input_mapping_execute] captures
    for a list of commands. *)
Definition args_needed `{Headers} (cmds : list wcstring) : nat :=
  sum_list_with
    (λ command,
       let code := input_function_get_code command in
       if decide (code ≠ -1) then Z.to_nat (input_function_arity code) else 0%nat)
    cmds.

(** [w'] differs from [w] in the reader and in the captured arguments and
    their index at most. *)
Definition kept (w w' : world) : Prop :=
  bindings w' = bindings w ∧ sh w' = sh w ∧
  terminfo_mappings w' = terminfo_mappings w ∧
  is_init w' = is_init w ∧ errno w' = errno w ∧
  input_function_status (fargs w') = input_function_status (fargs w) ∧
  cur_term w' = cur_term w ∧ output w' = output w ∧
  interrupt_installed w' = interrupt_installed w.


(** Two readers that are going to deliver the same characters. *)
Definition same_input (r r' : input_common_t) : Prop :=
  ∀ n, pending r n = pending r' n.


(** A binding of ["abc"], one of ["q"] to a function that takes a
    character and to a shell command, and one of ["ab"] in another mode. *)
Definition abc_mapping : input_mapping_t :=
  {| seq := L "abc"; commands := [L "end-of-line"]; specification_order := 1;
     mode := DEFAULT_BIND_MODE; sets_mode := DEFAULT_BIND_MODE |}.

Definition q_mapping : input_mapping_t :=
  {| seq := L "q"; commands := [L "forward-jump"; L "echo hi"];
     specification_order := 2;
     mode := DEFAULT_BIND_MODE; sets_mode := L "insert" |}.

Definition insert_ab_mapping : input_mapping_t :=
  {| seq := L "ab"; commands := [L "yank"]; specification_order := 3;
     mode := L "insert"; sets_mode := L "insert" |}.

(** ** The rest of the file *)

(** [input_function_pop_arg]:
    [input_function_args[--input_function_args_index]]. As for the push,
    an access outside the array is undefined. *)
Definition input_function_pop_arg (w : world) : option (wchar_t * world) :=
  let i := input_function_args_index (fargs w) - 1 in
  if (0 <=? i) && (i <? MAX_INPUT_FUNCTION_ARGS) then
    match input_function_args (fargs w) !! Z.to_nat i with
    | Some arg =>
        Some (arg,
              with_fargs {| input_function_args := input_function_args (fargs w);
                            input_function_status := input_function_status (fargs w);
                            input_function_args_index := i |} w)
    | None => None
    end
  else None.

(** [std::sort(first, last, comp)]: the elements in an order in which none
    is [comp]-less than one before it. The library leaves the order of
    elements that [comp] does not tell apart open; here they stay as the
    merge sort leaves them. *)
Definition std_sort {A} (comp : A → A → bool) (l : list A) : list A :=
  @merge_sort A (λ x y, comp y x = false) (λ x y, decide (comp y x = false)) l.

Definition input_mapping_get_names (b : bindings_t) : wcstring_list_t :=
  let local_list := std_sort specification_order_is_less_than (mapping_list b) in
  seq <$> local_list.

(** The table operations a run is made of: a call of [input_mapping_add] or
    a call of [input_mapping_erase], whose result is dropped. *)
Inductive table_op :=
  | Add (a : add_args)
  | Erase (sequence : wcstring) (mode' : option wcstring).

Definition apply_op (b : bindings_t) (op : table_op) : bindings_t :=
  match op with
  | Add a => apply_add b a
  | Erase sequence mode' => (input_mapping_erase sequence mode' b).2
  end.

Definition run_ops (ops : list table_op) (b : bindings_t) : bindings_t :=
  foldl apply_op b ops.

(** The pairs of sequence and mode of a run of calls of
    [input_mapping_add], each once, in the order in which they first
    occur. *)
Definition key_of (a : add_args) : wcstring * wcstring :=
  let '(sequence, _, mode', _) := a in (sequence, mode').

Definition note_key (keys : list (wcstring * wcstring)) (a : add_args)
    : list (wcstring * wcstring) :=
  if decide (key_of a ∈ keys) then keys else keys ++ [key_of a].

Definition first_keys (ops : list add_args) : list (wcstring * wcstring) :=
  foldl note_key [] ops.

(** A binding with its stamp, and the keys of a list with the stamps 1, 2,
    ... in turn. *)
Definition stamp_and_key (m : input_mapping_t) : Z * (wcstring * wcstring) :=
  (specification_order m, key m).

Definition stamped (keys : list (wcstring * wcstring))
    : list (Z * (wcstring * wcstring)) :=
  imap (λ i k, (Z.of_nat (S i), k)) keys.

Section TerminfoRest.
Context `{Headers}.

(** [input_terminfo_get_name]: the name of the first entry that has a
    sequence and whose sequence, widened, is [seq']; the result is what
    [*out_name] is assigned, [None] when the function returns false. *)
Definition input_terminfo_get_name (seq' : wcstring) (w : world)
    : option (option wcstring * world) :=
  w1 ← input_init w;
  match list_find (λ m, L <$> terminfo.seq m = Some seq') (terminfo_mappings w1) with
  | Some (_, m) => Some (Some (terminfo.name m), w1)
  | None => Some (None, w1)
  end.

Definition input_terminfo_get_names (skip_null : bool) (w : world)
    : option (wcstring_list_t * world) :=
  w1 ← input_init w;
  Some (terminfo.name <$>
          filter (λ m, ¬ (skip_null = true ∧ terminfo.seq m = None))
            (terminfo_mappings w1),
        w1).

End TerminfoRest.

(** How a run of the read loop ends: with a value; where
    [input_mapping_execute] is undefined or has lost its binding; or with
    the rounds given to it used up. *)
Inductive outcome (A : Type) :=
  | Value (a : A)
  | Undefined
  | Out_of_fuel.
Arguments Value {A} a.
Arguments Undefined {A}.
Arguments Out_of_fuel {A}.

Section ReadLoop.
Context `{Headers}.

Variable parser_eval : wcstring → world → world.

(** Modelled from the spec: [CHECK_BLOCK] of common.h, which is not among
    the sources, makes the function return at once while the block-check
    for reentrancy holds. *)
Variable signal_is_blocked : bool.

(** The argument of [input_readch()] when none is written, which input.h
    declares. *)
Variable default_allow_commands : bool.

(** [while ((c = input_common_readch(0)) && c >= R_MIN && c <= R_MAX);] *)
Fixpoint drain_codes (fuel : nat) (r : input_common_t)
    : option (wchar_t * input_common_t) :=
  match fuel with
  | O => None
  | S fuel' =>
      let '(c, r') := input_common_readch false r in
      if negb (c =? 0) && (R_MIN <=? c) && (c <=? R_MAX) then drain_codes fuel' r'
      else Some (c, r')
  end.

(** The loop of [input_readch]. A round of the loop and a call of
    [input_readch()] from inside it each take one of [fuel]. *)
Fixpoint readch_loop (fuel : nat) (allow_commands : bool) (w : world)
    : outcome (wchar_t * world) :=
  match fuel with
  | O => Out_of_fuel
  | S fuel' =>
      let '(c, r) := input_common_readch false (rd w) in
      if (R_MIN <=? c) && (c <=? R_MAX) then
        if decide (c = R_EOF) then Value (R_EOF, with_rd r w)
        else if decide (c = R_SELF_INSERT) then
          let '(c', r') := input_common_readch false r in
          Value (c', with_rd r' w)
        else if decide (c = R_AND) then
          if input_function_status (fargs w) then
            if signal_is_blocked then Value (R_NULL, with_rd r w)
            else readch_loop fuel' default_allow_commands (with_rd r w)
          else
            match drain_codes fuel' r with
            | None => Out_of_fuel
            | Some (c', r') =>
                if signal_is_blocked
                then Value (R_NULL, with_rd (input_unreadch c' r') w)
                else readch_loop fuel' default_allow_commands
                       (with_rd (input_unreadch c' r') w)
            end
        else Value (c, with_rd r w)
      else
        match input_mapping_execute_matching_or_generic parser_eval allow_commands
                (with_rd (input_unreadch c r) w) with
        | None => Undefined
        | Some w' => readch_loop fuel' allow_commands w'
        end
  end.

Definition input_readch (fuel : nat) (allow_commands : bool) (w : world)
    : outcome (wchar_t * world) :=
  if signal_is_blocked then Value (R_NULL, w)
  else readch_loop fuel allow_commands w.

End ReadLoop.

(** The binding a scan comes up with, matched or generic. *)
Definition chosen (found : scan_exit) : option input_mapping_t :=
  match found with
  | Matched m => Some m
  | Exhausted generic => generic
  end.

(** A binding of ["f"] to a function that takes a character and one that
    takes none; the bindings the default table has for a line feed, for
    Control-C and for everything else; a run of table operations; and a
    state with [R_AND], a code and a character on the push-back stack. *)
Definition jump_mapping : input_mapping_t :=
  {| seq := L "f"; commands := [L "forward-jump"; L "end-of-line"];
     specification_order := 4;
     mode := DEFAULT_BIND_MODE; sets_mode := L "insert" |}.

Definition execute_mapping : input_mapping_t :=
  {| seq := [10]; commands := [L "execute"]; specification_order := 2;
     mode := DEFAULT_BIND_MODE; sets_mode := DEFAULT_BIND_MODE |}.

Definition commandline_mapping : input_mapping_t :=
  {| seq := [3]; commands := [L "commandline " ++ [34; 34]]; specification_order := 4;
     mode := DEFAULT_BIND_MODE; sets_mode := DEFAULT_BIND_MODE |}.

Definition self_insert_mapping : input_mapping_t :=
  {| seq := []; commands := [L "self-insert"]; specification_order := 1;
     mode := DEFAULT_BIND_MODE; sets_mode := DEFAULT_BIND_MODE |}.

Definition sample_adds : list add_args :=
  [(L "a", [L "backward-char"], DEFAULT_BIND_MODE, DEFAULT_BIND_MODE);
   (L "ab", [L "forward-char"], DEFAULT_BIND_MODE, DEFAULT_BIND_MODE);
   (L "a", [L "yank"], DEFAULT_BIND_MODE, DEFAULT_BIND_MODE);
   (L "abc", [L "end-of-line"], DEFAULT_BIND_MODE, DEFAULT_BIND_MODE)].

Definition sample_ops : list table_op :=
  [Add (L "a", [L "backward-char"], DEFAULT_BIND_MODE, DEFAULT_BIND_MODE);
   Add (L "ab", [L "forward-char"], DEFAULT_BIND_MODE, DEFAULT_BIND_MODE);
   Erase (L "a") None;
   Add (L "abc", [L "end-of-line"], DEFAULT_BIND_MODE, DEFAULT_BIND_MODE)].

Definition and_world : world :=
  with_rd {| lookahead := [R_AND; R_YANK; 97]; tty := tty_of []; tty_pos := 0;
             read_log := [] |} (world_of no_bindings []).

(** * Properties *)

(** ** The binding table *)

Section Bisection.
Context {A : Type} (comp : A → A → bool) (l : list A) (val : A).

Lemma lower_bound_loop_spec fuel first len :
  partitioned comp l val →
  (len ≤ fuel)%nat → (first + len ≤ length l)%nat →
  (∀ i x, (i < first)%nat → l !! i = Some x → comp x val = true) →
  (∀ i x, (first + len ≤ i)%nat → l !! i = Some x → comp x val = false) →
  let loc := lower_bound_loop comp l val fuel first len in
  (first ≤ loc ≤ first + len)%nat ∧
  (∀ i x, (i < loc)%nat → l !! i = Some x → comp x val = true) ∧
  (∀ i x, (loc ≤ i)%nat → l !! i = Some x → comp x val = false).
Proof.
  intros Hpart. revert first len.
  induction fuel as [|fuel IH]; intros first len Hfuel Hlen Hlo Hhi; cbn [lower_bound_loop].
  - assert (len = 0)%nat as -> by lia.
    split; [lia|]. split; [done|]. intros i x ?. apply (Hhi i). lia.
  - destruct (Nat.eqb_spec len 0) as [->|Hne].
    { split; [lia|]. split; [done|]. intros i x ?. apply (Hhi i). lia. }
    assert (len / 2 < len)%nat as Hhalf by (apply Nat.Div0.div_lt_upper_bound; lia).
    destruct (l !! (first + len / 2)%nat) as [x|] eqn:Hmid.
    2:{ apply lookup_ge_None in Hmid. lia. }
    destruct (comp x val) eqn:Hc.
    + destruct (IH (S (first + len / 2)) (len - len / 2 - 1)%nat) as (Hr & Hbelow & Habove).
      * lia.
      * lia.
      * intros i y Hi Hy. eapply (Hpart i (first + len / 2)%nat y x); eauto. lia.
      * intros i y Hi Hy. apply (Hhi i); [lia|done].
      * split; [lia|]. split; done.
    + destruct (IH first (len / 2)%nat) as (Hr & Hbelow & Habove).
      * lia.
      * lia.
      * done.
      * intros i y Hi Hy. destruct (comp y val) eqn:Hcy; [|done].
        rewrite <- Hc. symmetry.
        eapply (Hpart (first + len / 2)%nat i x y); eauto.
      * split; [lia|]. split; done.
Qed.

Lemma lower_bound_spec :
  partitioned comp l val →
  let loc := lower_bound comp l val in
  (loc ≤ length l)%nat ∧
  (∀ i x, (i < loc)%nat → l !! i = Some x → comp x val = true) ∧
  (∀ i x, (loc ≤ i)%nat → l !! i = Some x → comp x val = false).
Proof.
  intros Hpart. unfold lower_bound.
  destruct (lower_bound_loop_spec (length l) 0 (length l) Hpart) as (Hr & ? & ?).
  - lia.
  - lia.
  - intros; lia.
  - intros i x Hi Hx. apply lookup_lt_Some in Hx. lia.
  - split; [lia|]. split; done.
Qed.

(** Whatever the range holds, the result is a position of it or its end. *)
Lemma lower_bound_le : (lower_bound comp l val ≤ length l)%nat.
Proof.
  unfold lower_bound.
  enough (∀ fuel first len, (first + len ≤ length l)%nat →
            (lower_bound_loop comp l val fuel first len ≤ length l)%nat) as Hloop
    by (apply Hloop; lia).
  induction fuel as [|fuel IH]; intros first len Hlen; cbn [lower_bound_loop]; [lia|].
  destruct (len =? 0)%nat eqn:Hz; [lia|].
  apply Nat.eqb_neq in Hz.
  assert (len / 2 < len)%nat by (apply Nat.Div0.div_lt_upper_bound; lia).
  destruct (l !! (first + len / 2)%nat); [|lia].
  destruct (comp _ _); apply IH; lia.
Qed.

End Bisection.

Lemma lookup_vector_insert {A} (loc : nat) (x : A) (l : list A) (i : nat) :
  (loc ≤ length l)%nat →
  vector_insert loc x l !! i =
    if decide (i < loc)%nat then l !! i
    else if decide (i = loc) then Some x
    else l !! (i - 1)%nat.
Proof.
  intros Hloc. unfold vector_insert.
  destruct (decide (i < loc)%nat).
  - rewrite lookup_app_l by (rewrite length_take; lia).
    apply lookup_take_lt. done.
  - rewrite lookup_app_r by (rewrite length_take; lia).
    rewrite length_take, Nat.min_l by lia.
    destruct (decide (i = loc)) as [->|].
    + by rewrite Nat.sub_diag.
    + destruct (i - loc)%nat as [|k] eqn:Hk; [lia|]. simpl.
      rewrite lookup_drop. f_equal. lia.
Qed.

Lemma descending_partitioned (l : list input_mapping_t) (m : input_mapping_t) :
  descending l → partitioned length_is_greater_than l m.
Proof.
  intros Hd i j x y Hx Hy Hij. unfold length_is_greater_than.
  rewrite !Nat.ltb_lt. specialize (Hd i j x y Hx Hy Hij). lia.
Qed.

Lemma input_mapping_insert_sorted_descending (m : input_mapping_t)
    (l : list input_mapping_t) :
  descending l → descending (input_mapping_insert_sorted m l).
Proof.
  intros Hd. unfold input_mapping_insert_sorted.
  destruct (lower_bound_spec length_is_greater_than l m (descending_partitioned l m Hd))
    as (Hloc & Hbelow & Habove).
  set (loc := lower_bound length_is_greater_than l m) in *.
  assert (∀ i x, (i < loc)%nat → l !! i = Some x → (length (seq m) < length (seq x))%nat) as Hb.
  { intros i x Hi Hx. specialize (Hbelow i x Hi Hx).
    unfold length_is_greater_than in Hbelow. by apply Nat.ltb_lt in Hbelow. }
  assert (∀ i x, (loc ≤ i)%nat → l !! i = Some x → (length (seq x) ≤ length (seq m))%nat) as Ha.
  { intros i x Hi Hx. specialize (Habove i x Hi Hx).
    unfold length_is_greater_than in Habove. apply Nat.ltb_ge in Habove. lia. }
  intros i j m1 m2. rewrite !lookup_vector_insert by done.
  intros H1 H2 Hij.
  repeat case_decide; simplify_eq; try lia.
  - by eapply (Hd i j).
  - specialize (Hb _ _ ltac:(eassumption) H1). lia.
  - eapply (Hd i (j - 1)%nat); eauto. lia.
  - eapply Ha; [|done]. lia.
  - eapply (Hd (i - 1)%nat (j - 1)%nat); eauto. lia.
Qed.

Lemma input_mapping_add_found sequence cmds mode' sets_mode' b i m :
  list_find (λ m, seq m = sequence ∧ mode m = mode') (mapping_list b) = Some (i, m) →
  input_mapping_add sequence cmds mode' sets_mode' b =
    {| mapping_list :=
         <[i := {| seq := seq m; commands := cmds;
                   specification_order := specification_order m;
                   mode := mode m; sets_mode := sets_mode' |}]> (mapping_list b);
       s_last_input_mapping_specification_order :=
         s_last_input_mapping_specification_order b |}.
Proof. intros Hfind. unfold input_mapping_add. by rewrite Hfind. Qed.

Lemma input_mapping_add_fresh sequence cmds mode' sets_mode' b :
  list_find (λ m, seq m = sequence ∧ mode m = mode') (mapping_list b) = None →
  input_mapping_add sequence cmds mode' sets_mode' b =
    {| mapping_list :=
         input_mapping_insert_sorted
           {| seq := sequence; commands := cmds;
              specification_order :=
                (s_last_input_mapping_specification_order b + 1) mod 2 ^ 32;
              mode := mode'; sets_mode := sets_mode' |} (mapping_list b);
       s_last_input_mapping_specification_order :=
         (s_last_input_mapping_specification_order b + 1) mod 2 ^ 32 |}.
Proof. intros Hfind. unfold input_mapping_add. by rewrite Hfind. Qed.

Lemma descending_insert_same_seq (l : list input_mapping_t) i m m' :
  l !! i = Some m → seq m' = seq m → descending l → descending (<[i := m']> l).
Proof.
  intros Hi Hseq Hd j k m1 m2 H1 H2 Hjk.
  assert (∃ n1, l !! j = Some n1 ∧ seq n1 = seq m1) as (n1 & Hn1 & <-).
  { apply list_lookup_insert_Some in H1 as [(-> & <- & _)|[_ ?]]; eauto. }
  assert (∃ n2, l !! k = Some n2 ∧ seq n2 = seq m2) as (n2 & Hn2 & <-).
  { apply list_lookup_insert_Some in H2 as [(-> & <- & _)|[_ ?]]; eauto. }
  by eapply Hd.
Qed.

(** Adding a binding keeps the table in matching order. *)
Lemma input_mapping_add_descending sequence cmds mode' sets_mode' b :
  descending (mapping_list b) →
  descending (mapping_list (input_mapping_add sequence cmds mode' sets_mode' b)).
Proof.
  intros Hd.
  destruct (list_find (λ m, seq m = sequence ∧ mode m = mode') (mapping_list b))
    as [[i m]|] eqn:Hfind.
  - rewrite (input_mapping_add_found _ _ _ _ _ _ _ Hfind). simpl.
    apply list_find_Some in Hfind as (Hi & _ & _).
    by eapply descending_insert_same_seq.
  - rewrite (input_mapping_add_fresh _ _ _ _ _ Hfind). simpl.
    by apply input_mapping_insert_sorted_descending.
Qed.

Lemma run_adds_descending ops b :
  descending (mapping_list b) → descending (mapping_list (run_adds ops b)).
Proof.
  revert b. induction ops as [|[[[s c] m] sm] ops IH]; intros b Hd; [done|].
  simpl. apply IH. by apply input_mapping_add_descending.
Qed.

(** C1, on the code: [input_mapping_erase] fills the slot of the erased
    binding with the last binding of the table, the shortest one. After
    ["a"], ["ab"] and ["abc"] have been added the table is in descending
    order of length; erasing ["abc"] leaves ["a"] before ["ab"], which is
    not. On the input ["ab"] the scan of that table then stops at the
    binding of ["a"]. *)
Theorem input_mapping_erase_unsorts :
  descending (mapping_list abc_bindings) ∧
  ∃ b', input_mapping_erase (L "abc") None abc_bindings = (true, b') ∧
        seq <$> mapping_list b' = [L "a"; L "ab"] ∧
        ¬ descending (mapping_list b') ∧
        ∃ m r, scan_mappings DEFAULT_BIND_MODE (mapping_list b') None
                 (reader_of (L "ab")) = (Matched m, r) ∧
               seq m = L "a".
Proof.
  split.
  - apply (run_adds_descending
             [(L "a", [L "backward-char"], DEFAULT_BIND_MODE, DEFAULT_BIND_MODE);
              (L "ab", [L "forward-char"], DEFAULT_BIND_MODE, DEFAULT_BIND_MODE);
              (L "abc", [L "end-of-line"], DEFAULT_BIND_MODE, DEFAULT_BIND_MODE)]
             no_bindings).
    intros i j m1 m2 Hi. done.
  - eexists. split; [vm_compute; reflexivity|]. split; [reflexivity|]. split.
    + intros Hd.
      specialize (Hd 0%nat 1%nat _ _ eq_refl eq_refl). vm_compute in Hd.
      specialize (Hd ltac:(lia)). lia.
    + eexists _, _. split; [vm_compute; reflexivity|reflexivity].
Qed.

Lemma vector_insert_Permutation {A} (loc : nat) (x : A) (l : list A) :
  vector_insert loc x l ≡ₚ x :: l.
Proof.
  unfold vector_insert. rewrite <- Permutation_middle.
  by rewrite take_drop.
Qed.

Lemma add_invariant_empty : add_invariant no_bindings.
Proof.
  split; simpl; [constructor|]. intros _. split; [done|].
  intros m Hm. by apply elem_of_nil in Hm.
Qed.

Lemma input_mapping_add_invariant sequence cmds mode' sets_mode' b :
  add_invariant b →
  add_invariant (input_mapping_add sequence cmds mode' sets_mode' b).
Proof.
  intros [Hnd Hcount].
  destruct (list_find (λ m, seq m = sequence ∧ mode m = mode') (mapping_list b))
    as [[i m]|] eqn:Hfind.
  - rewrite (input_mapping_add_found _ _ _ _ _ _ _ Hfind).
    apply list_find_Some in Hfind as (Hi & _ & _).
    split; simpl.
    + rewrite list_fmap_insert. rewrite list_insert_id; [done|].
      by rewrite list_lookup_fmap, Hi.
    + rewrite length_insert. intros Hlen.
      destruct (Hcount Hlen) as [Hlast Hstamps]. split; [done|].
      intros m1 [j Hj]%list_elem_of_lookup.
      apply list_lookup_insert_Some in Hj as [(-> & <- & _)|[_ Hj]]; simpl.
      * apply Hstamps. by eapply list_elem_of_lookup_2.
      * apply Hstamps. by eapply list_elem_of_lookup_2.
  - rewrite (input_mapping_add_fresh _ _ _ _ _ Hfind).
    unfold input_mapping_insert_sorted.
    split; simpl.
    + rewrite vector_insert_Permutation. rewrite fmap_cons.
      apply NoDup_cons. split; [|done].
      intros (m & Hkey & Hm)%list_elem_of_fmap.
      apply list_find_None in Hfind. rewrite Forall_forall in Hfind.
      apply (Hfind m Hm). unfold key in Hkey. by simplify_eq.
    + rewrite vector_insert_Permutation. simpl. intros Hlen.
      destruct Hcount as [Hlast Hstamps]; [lia|].
      rewrite Hlast. unfold UINT_MAX in Hlen.
      rewrite Z.mod_small by lia.
      split; [lia|].
      intros m. rewrite vector_insert_Permutation.
      intros [->|Hm]%elem_of_cons; simpl; [lia|].
      specialize (Hstamps m Hm). lia.
Qed.

Lemma run_adds_invariant ops b : add_invariant b → add_invariant (run_adds ops b).
Proof.
  revert b. induction ops as [|[[[s c] m] sm] ops IH]; intros b Hb; [done|].
  simpl. apply IH. by apply input_mapping_add_invariant.
Qed.

(** C4. A table built by calls of [input_mapping_add] has at most one
    binding for a sequence and a mode. One more call for a pair the table
    has writes the new commands and [sets_mode] into that binding, where it
    is, and leaves its stamp, the other bindings and the counter as they
    were. A call for a pair the table does not have creates a binding with
    the arguments: the table after the call is the table before it with
    the new binding put in at one place, so the new binding is in the
    table, the others stay, the table is longer by one and has one binding
    for a pair still; as long as the table has fewer than [UINT_MAX]
    bindings, the stamp of the new one is the new value of the counter and
    is larger than every stamp in the table. *)
Theorem input_mapping_add_one_per_pair (ops : list add_args)
    (sequence : wcstring) (cmds : wcstring_list_t) (mode' sets_mode' : wcstring) :
  let b := run_adds ops no_bindings in
  let b' := input_mapping_add sequence cmds mode' sets_mode' b in
  NoDup (key <$> mapping_list b) ∧
  (∀ i m, mapping_list b !! i = Some m → seq m = sequence → mode m = mode' →
     mapping_list b' =
       <[i := {| seq := seq m; commands := cmds;
                 specification_order := specification_order m;
                 mode := mode m; sets_mode := sets_mode' |}]> (mapping_list b) ∧
     s_last_input_mapping_specification_order b' =
       s_last_input_mapping_specification_order b) ∧
  ((∀ m, m ∈ mapping_list b → ¬ (seq m = sequence ∧ mode m = mode')) →
     ∃ loc new,
       (loc ≤ length (mapping_list b))%nat ∧
       mapping_list b' = vector_insert loc new (mapping_list b) ∧
       mapping_list b' = take loc (mapping_list b) ++ new :: drop loc (mapping_list b) ∧
       mapping_list b' !! loc = Some new ∧
       new ∈ mapping_list b' ∧
       (∀ m, m ∈ mapping_list b' ↔ m = new ∨ m ∈ mapping_list b) ∧
       length (mapping_list b') = S (length (mapping_list b)) ∧
       NoDup (key <$> mapping_list b') ∧
       seq new = sequence ∧ commands new = cmds ∧
       mode new = mode' ∧ sets_mode new = sets_mode' ∧
       (Z.of_nat (length (mapping_list b)) < UINT_MAX →
        specification_order new = s_last_input_mapping_specification_order b' ∧
        ∀ m, m ∈ mapping_list b → specification_order m < specification_order new)).
Proof.
  intros b b'.
  pose proof (run_adds_invariant ops no_bindings add_invariant_empty) as [Hnd Hcount].
  fold b in Hnd, Hcount.
  split; [done|]. split.
  - intros i m Hi Hseq Hmode.
    assert (list_find (λ m, seq m = sequence ∧ mode m = mode') (mapping_list b)
            = Some (i, m)) as Hfind.
    { apply list_find_Some. split; [done|]. split; [done|].
      intros j n Hj Hlt [Hs Hm].
      assert (key <$> mapping_list b !! i = Some (key m)) as Ki
        by (by rewrite Hi).
      assert (key <$> mapping_list b !! j = Some (key m)) as Kj.
      { rewrite Hj. simpl. unfold key. by rewrite Hs, Hm, Hseq, Hmode. }
      rewrite <- !list_lookup_fmap in Ki, Kj.
      pose proof (NoDup_lookup _ _ _ _ Hnd Ki Kj). lia. }
    subst b'. by rewrite (input_mapping_add_found _ _ _ _ _ _ _ Hfind).
  - intros Hfresh.
    assert (list_find (λ m, seq m = sequence ∧ mode m = mode') (mapping_list b) = None)
      as Hfind.
    { apply list_find_None, Forall_forall. done. }
    subst b'. rewrite (input_mapping_add_fresh _ _ _ _ _ Hfind). simpl.
    unfold input_mapping_insert_sorted.
    set (loc := lower_bound length_is_greater_than (mapping_list b) _).
    set (new := {| seq := sequence |}).
    assert (loc ≤ length (mapping_list b))%nat as Hloc by apply lower_bound_le.
    exists loc, new. split; [done|]. split; [reflexivity|]. split; [reflexivity|].
    assert (vector_insert loc new (mapping_list b) !! loc = Some new) as Hat.
    { unfold vector_insert. rewrite lookup_app_r by (rewrite length_take; lia).
      rewrite length_take. by replace (loc - loc `min` length (mapping_list b))%nat
        with 0%nat by lia. }
    split; [exact Hat|]. split; [by eapply list_elem_of_lookup_2|].
    split; [|split; [|split]].
    + intros m. by rewrite vector_insert_Permutation, elem_of_cons.
    + by rewrite vector_insert_Permutation.
    + rewrite vector_insert_Permutation, fmap_cons. apply NoDup_cons. split; [|done].
      intros (m & Hkey & Hm)%list_elem_of_fmap.
      apply (Hfresh m Hm). unfold key in Hkey. by simplify_eq/=.
    + simpl. do 4 (split; [done|]).
      intros Hlen. split; [done|]. intros m Hm.
      destruct Hcount as [Hlast Hstamps]; [lia|].
      specialize (Hstamps m Hm). rewrite Hlast. unfold UINT_MAX in Hlen.
      rewrite Z.mod_small by lia. lia.
Qed.

(** ** The reader and the matcher *)

Lemma pending_stack (r r0 : input_common_t) (pre : list wchar_t) (n : nat) :
  lookahead r = pre ++ lookahead r0 → tty r = tty r0 → tty_pos r = tty_pos r0 →
  pending r n =
    match pre !! n with
    | Some c => c
    | None => pending r0 (n - length pre)
    end.
Proof.
  intros Hl Ht Hp. unfold pending. rewrite Hl, Ht, Hp.
  destruct (pre !! n) as [c|] eqn:Hn.
  - by rewrite (lookup_app_l_Some _ _ _ _ Hn).
  - apply lookup_ge_None in Hn.
    rewrite lookup_app_r by done. rewrite length_app.
    destruct (lookahead r0 !! (n - length pre)%nat); [done|].
    f_equal. lia.
Qed.

Lemma input_common_readch_spec (timed : bool) (r : input_common_t) :
  ∀ c r', input_common_readch timed r = (c, r') →
    c = pending r 0 ∧
    lookahead r' = drop 1 (lookahead r) ∧
    tty r' = tty r ∧
    tty_pos r' = (tty_pos r + (1 - length (lookahead r)))%nat ∧
    read_log r' = read_log r ++ [timed].
Proof.
  intros c r'. unfold input_common_readch, pending.
  destruct (lookahead r) as [|x rest] eqn:Hl; intros [= <- <-]; simpl.
  - rewrite Nat.add_0_r. repeat split; try done; lia.
  - repeat split; try done; lia.
Qed.

Lemma pending_drop (r r' : input_common_t) (k n : nat) :
  lookahead r' = drop k (lookahead r) → tty r' = tty r →
  tty_pos r' = (tty_pos r + (k - length (lookahead r)))%nat →
  pending r' n = pending r (k + n).
Proof.
  intros Hl Ht Hp. unfold pending. rewrite Hl, Ht, Hp, lookup_drop, length_drop.
  destruct (lookahead r !! (k + n)%nat) eqn:Hn; [done|].
  apply lookup_ge_None in Hn. f_equal. lia.
Qed.

Lemma input_common_readch_pending (timed : bool) (r : input_common_t) c r' :
  input_common_readch timed r = (c, r') →
  c = pending r 0 ∧ ∀ n, pending r' n = pending r (S n).
Proof.
  intros (-> & Hl & Ht & Hp & _)%input_common_readch_spec. split; [done|].
  intros n. by apply (pending_drop r r' 1 n).
Qed.

Lemma read_chars_pending (n : nat) (r : input_common_t) :
  (read_chars n r).1 = pending r <$> List.seq 0 n.
Proof.
  revert r. induction n as [|n IH]; intros r; [done|].
  cbn [read_chars].
  destruct (input_common_readch false r) as [c r1] eqn:Hread.
  specialize (IH r1). destruct (read_chars n r1) as [cs r2]. simpl in *.
  apply input_common_readch_pending in Hread as [-> Hshift].
  f_equal. rewrite IH, <- fmap_S_seq, <- list_fmap_compose.
  apply list_fmap_ext. intros i x _. apply Hshift.
Qed.

Lemma unread_all_spec (chars : list wchar_t) (r : input_common_t) :
  lookahead (unread_all (reverse chars) r) = chars ++ lookahead r ∧
  tty (unread_all (reverse chars) r) = tty r ∧
  tty_pos (unread_all (reverse chars) r) = tty_pos r ∧
  read_log (unread_all (reverse chars) r) = read_log r.
Proof.
  unfold unread_all. induction chars as [|x chars IH]; [done|].
  rewrite reverse_cons, foldl_app. simpl. by destruct IH as (-> & -> & -> & ->).
Qed.

Lemma c_str_prefix (s : wcstring) : c_str s `prefix_of` s.
Proof.
  induction s as [|c s IH]; simpl; [done|].
  case_decide; [apply prefix_nil|]. by apply prefix_cons.
Qed.

Lemma c_str_take (s : wcstring) (j : nat) :
  (j ≤ length (c_str s))%nat → take j s = take j (c_str s).
Proof.
  intros Hj. destruct (c_str_prefix s) as [rest Hs].
  rewrite Hs at 1. by rewrite take_app_le.
Qed.

Section Matcher.
Context `{Headers}.

(** The loop reads on as long as the input agrees with the sequence. It
    leaves at the terminator after [length str] reads, or at the first
    character that differs, which it has read as well. *)
Lemma match_loop_spec (first : wchar_t) (str : wcstring) (j : nat) (c : wchar_t)
    (r : input_common_t) j' c' at_end r1 :
  match_loop first str j c r = (j', c', at_end, r1) →
  ∃ k reads,
    j' = (j + k)%nat ∧
    take k str = pending r <$> List.seq 0 k ∧
    reads = (if at_end then k else S k) ∧
    (if at_end then k = length str
     else (k < length str)%nat ∧ c' = pending r k ∧ str !! k ≠ Some c') ∧
    lookahead r1 = drop reads (lookahead r) ∧
    tty r1 = tty r ∧
    tty_pos r1 = (tty_pos r + (reads - length (lookahead r)))%nat ∧
    read_log r1 =
      read_log r ++ ((λ i, (0 <? i)%nat && iswcntrl first) <$> List.seq j reads).
Proof.
  revert j c r. induction str as [|x str IH]; intros j c r; cbn [match_loop].
  - intros [= <- <- <- <-]. exists 0%nat, 0%nat.
    rewrite Nat.add_0_r, drop_0, Nat.add_0_r, app_nil_r. done.
  - destruct (input_common_readch ((0 <? j)%nat && iswcntrl first) r) as [c1 r2] eqn:Hread.
    apply input_common_readch_spec in Hread as (Hc1 & Hl & Ht & Hp & Hlog).
    case_decide as Hx.
    + intros [= <- <- <- <-]. exists 0%nat, 1%nat.
      rewrite Nat.add_0_r. simpl. rewrite Hc1 in Hx.
      repeat split; try done; try lia. congruence.
    + intros Hrec.
      apply IH in Hrec as (k & reads & -> & Htake & -> & Hend & Hl1 & Ht1 & Hp1 & Hlog1).
      exists (S k), (if at_end then S k else S (S k)).
      split; [lia|]. split.
      { cbn [take List.seq fmap list_fmap]. rewrite Hx, Hc1. f_equal.
        rewrite Htake, <- fmap_S_seq, <- list_fmap_compose.
        apply list_fmap_ext. intros i y _. simpl.
        by apply (pending_drop r r2 1 y). }
      split; [done|]. split.
      { destruct at_end.
        - simpl. lia.
        - destruct Hend as (Hk & Hc' & Hne). simpl. split; [lia|]. split; [|done].
          rewrite Hc'. by apply (pending_drop r r2 1 k). }
      rewrite Hl1, Ht1, Hp1, Hlog1, Hl, Ht, Hp, Hlog, drop_drop, length_drop.
      split; [by destruct at_end; f_equal; lia|]. split; [done|].
      split; [destruct at_end; lia|].
      rewrite <- app_assoc. f_equal. by destruct at_end.
Qed.

End Matcher.

Section MatcherProperties.
Context `{Headers}.

Lemma c_str_first (s : wcstring) : nth 0 (c_str s) 0 = nth 0 s 0.
Proof. destruct s as [|c s]; simpl; [done|]. by case_decide. Qed.

Lemma input_mapping_is_match_true (m : input_mapping_t) (r r' : input_common_t) :
  input_mapping_is_match m r = (true, r') →
  let k := length (c_str (seq m)) in
  c_str (seq m) = pending r <$> List.seq 0 k ∧
  lookahead r' = drop k (lookahead r) ∧
  tty r' = tty r ∧
  tty_pos r' = (tty_pos r + (k - length (lookahead r)))%nat ∧
  read_log r' = read_log r ++ (timed_at (seq m) <$> List.seq 0 k).
Proof.
  unfold input_mapping_is_match.
  destruct (match_loop _ _ _ _ _) as [[[j c] at_end] r1] eqn:Hloop.
  apply match_loop_spec in Hloop as (k & reads & _ & Htake & -> & Hend & Hl & Ht & Hp & Hlog).
  destruct at_end; [|done]. intros [= <-]. subst k. simpl.
  rewrite firstn_all in Htake. rewrite c_str_first in Hlog. unfold timed_at. done.
Qed.

Lemma input_mapping_is_match_false (m : input_mapping_t) (r r' : input_common_t) :
  input_mapping_is_match m r = (false, r') →
  ∃ j,
    (j < length (c_str (seq m)))%nat ∧
    take j (seq m) = pending r <$> List.seq 0 j ∧
    c_str (seq m) !! j ≠ Some (pending r j) ∧
    lookahead r' = take j (seq m) ++ pending r j :: drop (S j) (lookahead r) ∧
    tty r' = tty r ∧
    tty_pos r' = (tty_pos r + (S j - length (lookahead r)))%nat ∧
    read_log r' = read_log r ++ (timed_at (seq m) <$> List.seq 0 (S j)).
Proof.
  unfold input_mapping_is_match.
  destruct (match_loop _ _ _ _ _) as [[[j c] at_end] r1] eqn:Hloop.
  apply match_loop_spec in Hloop as (k & reads & -> & Htake & -> & Hend & Hl & Ht & Hp & Hlog).
  destruct at_end; [done|]. intros [= <-]. simpl.
  destruct Hend as (Hk & -> & Hne).
  destruct (unread_all_spec (take k (seq m)) (input_unreadch (pending r k) r1))
    as (-> & -> & -> & ->). simpl.
  exists k. rewrite c_str_take by lia. rewrite c_str_first in Hlog.
  unfold timed_at. rewrite Hl, Ht, Hp, Hlog. done.
Qed.

Lemma input_mapping_is_match_matches (m : input_mapping_t) (r : input_common_t) :
  (input_mapping_is_match m r).1 = true ↔ matches m r.
Proof.
  destruct (input_mapping_is_match m r) as [[] r'] eqn:Hm; simpl.
  - split; [intros _|done].
    apply input_mapping_is_match_true in Hm as (Hstr & _).
    intros i x Hi. rewrite Hstr in Hi.
    apply list_lookup_fmap_Some in Hi as (n & -> & Hn).
    apply lookup_seq in Hn as [-> _]. done.
  - split; [done|]. intros Hmatches.
    apply input_mapping_is_match_false in Hm as (j & Hj & _ & Hne & _).
    destruct (c_str (seq m) !! j) as [x|] eqn:Hx.
    + apply Hmatches in Hx. congruence.
    + apply lookup_ge_None in Hx. lia.
Qed.

(** After a failed match the reader delivers what it would have delivered
    before. *)
Lemma input_mapping_is_match_false_pending (m : input_mapping_t) (r r' : input_common_t) :
  input_mapping_is_match m r = (false, r') → ∀ n, pending r' n = pending r n.
Proof.
  intros (j & Hj & Htake & _ & Hl & Ht & Hp & _)%input_mapping_is_match_false n.
  set (r1 := {| lookahead := drop (S j) (lookahead r); tty := tty r;
                tty_pos := (tty_pos r + (S j - length (lookahead r)))%nat;
                read_log := [] |}).
  assert (length (take j (seq m)) = j) as Hlen
    by (rewrite Htake, length_fmap, length_seq; done).
  rewrite (pending_stack r' r1 (take j (seq m) ++ [pending r j]) n);
    [|by rewrite <- app_assoc|done|done].
  destruct (decide (n < j)%nat) as [Hn|Hn].
  - rewrite lookup_app_l by lia. rewrite Htake, list_lookup_fmap, lookup_seq_lt by done.
    done.
  - rewrite lookup_app_r by lia. rewrite Hlen, length_app, Hlen. simpl.
    destruct (n - j)%nat as [|d] eqn:Hd; simpl.
    + f_equal. lia.
    + rewrite (pending_drop r r1 (S j)) by done. f_equal. lia.
Qed.

(** C2. When the matcher fails on a binding, it has read [S j] characters,
    [j] that agree with the sequence and one that does not. It pushes the
    last one back and then the [j] others, last first, so that the stack
    holds them in the order they came in, and the reader delivers from
    then on what it would have delivered before the attempt: any number of
    reads give the same characters. *)
Theorem input_mapping_is_match_restores (m : input_mapping_t) (r r' : input_common_t) :
  input_mapping_is_match m r = (false, r') →
  (∃ j,
     length (read_log r') = (length (read_log r) + S j)%nat ∧
     take j (seq m) = pending r <$> List.seq 0 j ∧
     lookahead r' = take j (seq m) ++ pending r j :: drop (S j) (lookahead r)) ∧
  (∀ n, pending r' n = pending r n) ∧
  (∀ n, (read_chars n r').1 = (read_chars n r).1).
Proof.
  intros Hfail. split; [|split].
  - apply input_mapping_is_match_false in Hfail
      as (j & _ & Htake & _ & Hl & _ & _ & Hlog).
    exists j. rewrite Hlog, length_app, length_fmap, length_seq. done.
  - by apply (input_mapping_is_match_false_pending m).
  - intros n. rewrite !read_chars_pending.
    apply list_fmap_ext. intros i x _.
    by apply (input_mapping_is_match_false_pending m).
Qed.

(** C7. The reads of a match are logged one after the other, and the
    [j]-th of them, from 0, is timed exactly if [j] is not 0 and the first
    character of the sequence is a control character. A match that
    succeeds has read the whole sequence; one that fails has read at least
    one character and no more than the sequence has. *)
Theorem input_mapping_is_match_timed (m : input_mapping_t) (r : input_common_t) :
  ∃ k,
    read_log (input_mapping_is_match m r).2 =
      read_log r ++ ((λ j, bool_decide (0 < j)%nat && iswcntrl (nth 0 (seq m) 0))
                       <$> List.seq 0 k) ∧
    (if (input_mapping_is_match m r).1 then k = length (c_str (seq m))
     else (1 ≤ k ≤ length (c_str (seq m)))%nat).
Proof.
  assert (∀ k, (λ j, bool_decide (0 < j)%nat && iswcntrl (nth 0 (seq m) 0))
                 <$> List.seq 0 k = timed_at (seq m) <$> List.seq 0 k) as Hflags.
  { intros k. apply list_fmap_ext. intros i j _. unfold timed_at.
    f_equal. destruct j; done. }
  destruct (input_mapping_is_match m r) as [[] r'] eqn:Hm; simpl.
  - apply input_mapping_is_match_true in Hm as (_ & _ & _ & _ & Hlog).
    eexists. rewrite Hflags. split; [exact Hlog|done].
  - apply input_mapping_is_match_false in Hm as (j & Hj & _ & _ & _ & _ & _ & Hlog).
    exists (S j). rewrite Hflags. split; [exact Hlog|lia].
Qed.

End MatcherProperties.

(** ** The dispatcher *)

Section DispatcherProperties.
Context `{Headers}.

Lemma kept_refl (w : world) : kept w w.
Proof. by repeat split. Qed.

Lemma kept_trans (w1 w2 w3 : world) : kept w1 w2 → kept w2 w3 → kept w1 w3.
Proof.
  intros (? & ? & ? & ? & ? & ? & ? & ? & ?) (? & ? & ? & ? & ? & ? & ? & ? & ?).
  repeat split; congruence.
Qed.

Lemma input_function_arity_bound (code : Z) :
  (Z.to_nat (input_function_arity code) ≤ 1)%nat.
Proof. unfold input_function_arity. repeat case_decide; simpl; lia. Qed.

Lemma push_args_loop_spec (arity : nat) (w : world) :
  0 ≤ input_function_args_index (fargs w) →
  input_function_args_index (fargs w) + Z.of_nat arity ≤ MAX_INPUT_FUNCTION_ARGS →
  ∃ w', push_args_loop arity w = Some w' ∧ kept w w' ∧
        input_function_args_index (fargs w') =
          input_function_args_index (fargs w) + Z.of_nat arity.
Proof.
  revert w. induction arity as [|arity IH]; intros w Hlo Hhi; simpl.
  - exists w. split; [done|]. split; [apply kept_refl|lia].
  - destruct (input_common_readch false (rd w)) as [arg r] eqn:Hread.
    unfold input_function_push_arg. simpl.
    destruct (Z.leb_spec 0 (input_function_args_index (fargs w))); [|lia].
    destruct (Z.ltb_spec (input_function_args_index (fargs w)) MAX_INPUT_FUNCTION_ARGS);
      [|lia].
    simpl.
    edestruct IH as (w' & Hloop & Hkept & Hidx); [| |rewrite Hloop].
    + simpl. lia.
    + simpl. lia.
    + exists w'. split; [done|]. split.
      * eapply kept_trans; [|exact Hkept]. by repeat split.
      * rewrite Hidx. simpl. lia.
Qed.

(** The first loop is defined as long as the array has room for what the
    commands capture. *)
Lemma capture_args_spec (cmds : list wcstring) (w : world) :
  0 ≤ input_function_args_index (fargs w) →
  input_function_args_index (fargs w) + Z.of_nat (args_needed cmds)
    ≤ MAX_INPUT_FUNCTION_ARGS →
  ∃ w1, capture_args cmds w = Some w1 ∧ kept w w1 ∧
        input_function_args_index (fargs w1) =
          input_function_args_index (fargs w) + Z.of_nat (args_needed cmds).
Proof.
  revert w. induction cmds as [|command cmds IH]; intros w Hlo Hhi.
  - exists w. split; [done|]. split; [apply kept_refl|]. unfold args_needed. simpl. lia.
  - unfold args_needed in Hhi |- *. cbn [sum_list_with capture_args] in Hhi |- *.
    fold (args_needed cmds) in Hhi |- *.
    case_decide as Hcode.
    + unfold input_function_push_args.
      destruct (push_args_loop_spec
                  (Z.to_nat (input_function_arity (input_function_get_code command))) w)
        as (w' & -> & Hkept & Hidx); [done|lia|]. simpl.
      destruct (IH w') as (w1 & -> & Hkept1 & Hidx1); [lia|lia|].
      exists w1. split; [done|]. split; [by eapply kept_trans|lia].
    + destruct (IH w) as (w1 & -> & Hkept1 & Hidx1); [lia|lia|].
      exists w1. split; [done|]. split; [done|lia].
Qed.

Lemma capture_args_kept (cmds : list wcstring) (w w1 : world) :
  capture_args cmds w = Some w1 → kept w w1.
Proof.
  revert w. induction cmds as [|command cmds IH]; intros w; simpl.
  - intros [= <-]. apply kept_refl.
  - case_decide; [|apply IH].
    unfold input_function_push_args.
    assert (∀ n w w', push_args_loop n w = Some w' → kept w w') as Hpush.
    { clear. induction n as [|n IHn]; intros w w'; simpl.
      - intros [= <-]. apply kept_refl.
      - destruct (input_common_readch false (rd w)) as [arg r].
        unfold input_function_push_arg. simpl.
        destruct (_ && _); simpl; [|done].
        intros Hw'%IHn. eapply kept_trans; [|exact Hw']. by repeat split. }
    destruct (push_args_loop _ w) as [w'|] eqn:Hw'; simpl; [|done].
    intros Hw1%IH. eapply kept_trans; [|exact Hw1]. by eapply Hpush.
Qed.

(** With [allow_commands] false the second loop pushes back the codes of
    the functions it comes to before the first shell command, and leaves at
    that command. *)
Lemma run_commands_deferred (parser_eval : wcstring → world → world)
    (m : input_mapping_t) (cmds : list wcstring) (w : world) :
  (∃ command, command ∈ cmds ∧ input_function_get_code command = -1) →
  ∃ fns,
    fns `prefix_of` cmds ∧
    run_commands parser_eval m false cmds w =
      (Returned,
       with_rd (input_unreadch R_NULL
                  (unread_all (reverse (seq m))
                     (unread_all (input_function_get_code <$> fns) (rd w)))) w).
Proof.
  revert w. induction cmds as [|command cmds IH]; intros w (c & Hc & Hcode).
  - by apply elem_of_nil in Hc.
  - cbn [run_commands]. case_decide as Hcmd.
    + apply elem_of_cons in Hc as [->|Hc]; [done|].
      destruct (IH (with_rd (input_unreadch (input_function_get_code command) (rd w)) w))
        as (fns & Hpre & ->); [by eauto|].
      exists (command :: fns). split; [by apply prefix_cons|done].
    + exists []. split; [apply prefix_nil|done].
Qed.

(** With [allow_commands] false the evaluator has no part in the call. *)
Lemma run_commands_no_eval (parser_eval parser_eval' : wcstring → world → world)
    (m : input_mapping_t) (cmds : list wcstring) (w : world) :
  run_commands parser_eval m false cmds w = run_commands parser_eval' m false cmds w.
Proof.
  revert w. induction cmds as [|command cmds IH]; intros w; [done|].
  cbn [run_commands]. by case_decide.
Qed.

Lemma input_mapping_execute_no_eval (parser_eval parser_eval' : wcstring → world → world)
    (m : input_mapping_t) (w : world) :
  input_mapping_execute parser_eval m false w =
  input_mapping_execute parser_eval' m false w.
Proof.
  unfold input_mapping_execute.
  destruct (capture_args _ _) as [w1|]; simpl; [|done].
  by rewrite (run_commands_no_eval parser_eval parser_eval').
Qed.

Lemma input_mapping_execute_returned (parser_eval : wcstring → world → world)
    (m : input_mapping_t) (w w1 : world) :
  (∃ command, command ∈ commands m ∧ input_function_get_code command = -1) →
  capture_args (reverse (commands m)) (input_function_set_status true w) = Some w1 →
  ∃ after,
    after `suffix_of` commands m ∧
    input_mapping_execute parser_eval m false w =
      Some (with_rd (input_unreadch R_NULL
                       (unread_all (reverse (seq m))
                          (unread_all (reverse (input_function_get_code <$> after))
                             (rd w1)))) w1).
Proof.
  intros (c & Hc & Hcode) Hpass1. unfold input_mapping_execute. rewrite Hpass1. simpl.
  destruct (run_commands_deferred parser_eval m (reverse (commands m)) w1)
    as (fns & Hpre & ->).
  { exists c. by rewrite elem_of_reverse. }
  exists (reverse fns). split.
  - destruct Hpre as [rest Hrest]. exists (reverse rest).
    rewrite <- reverse_app, <- Hrest. by rewrite reverse_involutive.
  - by rewrite <- fmap_reverse, reverse_involutive.
Qed.

(** C3. A binding with a shell command among its commands, executed with
    [allow_commands] false while the array has room for the arguments the
    first loop captures: the call returns with [R_NULL] on top of the
    push-back stack and the sequence of the binding under it, first
    character first; under these lie the codes of the functions that come
    after the last shell command, and then what the first loop left. The
    next read gives [R_NULL] and the reads after it the sequence. The
    evaluator is not called, whichever it is: nothing has been handed to
    it, and the bind mode and the last status are what they were. *)
Theorem execute_deferred_restores_sequence (parser_eval : wcstring → world → world)
    (m : input_mapping_t) (w : world) :
  (∃ command, command ∈ commands m ∧ input_function_get_code command = -1) →
  0 ≤ input_function_args_index (fargs w) →
  input_function_args_index (fargs w) + Z.of_nat (args_needed (commands m))
    ≤ MAX_INPUT_FUNCTION_ARGS →
  ∃ w1 w' after,
    capture_args (reverse (commands m)) (input_function_set_status true w) = Some w1 ∧
    input_mapping_execute parser_eval m false w = Some w' ∧
    after `suffix_of` commands m ∧
    lookahead (rd w') =
      R_NULL :: seq m ++ (input_function_get_code <$> after) ++ lookahead (rd w1) ∧
    pending (rd w') 0 = R_NULL ∧
    (∀ i c, seq m !! i = Some c → pending (rd w') (S i) = c) ∧
    sh w' = sh w ∧
    input_get_bind_mode w' = input_get_bind_mode w ∧
    (∀ parser_eval', input_mapping_execute parser_eval' m false w = Some w').
Proof.
  intros Hshell Hlo Hhi.
  destruct (capture_args_spec (reverse (commands m)) (input_function_set_status true w))
    as (w1 & Hpass1 & Hkept & _); [done| |].
  { unfold args_needed in *. by rewrite sum_list_with_reverse. }
  destruct (input_mapping_execute_returned parser_eval m w w1 Hshell Hpass1)
    as (after & Hsuffix & Hexec).
  eexists w1, _, after. split; [done|]. split; [exact Hexec|]. split; [done|].
  assert (lookahead (rd (with_rd (input_unreadch R_NULL
            (unread_all (reverse (seq m))
               (unread_all (reverse (input_function_get_code <$> after)) (rd w1)))) w1))
          = R_NULL :: seq m ++ (input_function_get_code <$> after) ++ lookahead (rd w1))
    as Hstack.
  { simpl. f_equal.
    destruct (unread_all_spec (seq m)
                (unread_all (reverse (input_function_get_code <$> after)) (rd w1)))
      as (-> & _).
    by destruct (unread_all_spec (input_function_get_code <$> after) (rd w1)) as (-> & _). }
  split; [exact Hstack|]. split; [|split; [|split; [|split]]].
  - unfold pending. by rewrite Hstack.
  - intros i c Hi. unfold pending. rewrite Hstack. simpl.
    by rewrite (lookup_app_l_Some _ _ _ _ Hi).
  - simpl. by destruct Hkept as (_ & -> & _).
  - unfold input_get_bind_mode. simpl. by destruct Hkept as (_ & -> & _).
  - intros parser_eval'.
    by rewrite (input_mapping_execute_no_eval parser_eval' parser_eval).
Qed.

(** C10. When the call returns because of a shell command it may not run,
    the state is the one the first loop left, with the captured characters
    in the array and the index behind them, but for the push-back stack:
    the terminal, the position in it and the log of reads are those of
    that state as well. *)
Theorem execute_deferred_keeps_args
    (parser_eval : wcstring → world → world) (m : input_mapping_t) (w w1 : world) :
  (∃ command, command ∈ commands m ∧ input_function_get_code command = -1) →
  capture_args (reverse (commands m)) (input_function_set_status true w) = Some w1 →
  ∃ r',
    input_mapping_execute parser_eval m false w = Some (with_rd r' w1) ∧
    tty r' = tty (rd w1) ∧ tty_pos r' = tty_pos (rd w1) ∧
    read_log r' = read_log (rd w1) ∧
    input_function_args (fargs (with_rd r' w1)) = input_function_args (fargs w1) ∧
    input_function_args_index (fargs (with_rd r' w1)) =
      input_function_args_index (fargs w1).
Proof.
  intros Hshell Hpass1.
  destruct (input_mapping_execute_returned parser_eval m w w1 Hshell Hpass1)
    as (after & _ & ->).
  eexists. split; [reflexivity|]. simpl.
  destruct (unread_all_spec (seq m)
              (unread_all (reverse (input_function_get_code <$> after)) (rd w1)))
    as (_ & -> & -> & ->).
  destruct (unread_all_spec (input_function_get_code <$> after) (rd w1))
    as (_ & -> & -> & ->).
  done.
Qed.

End DispatcherProperties.

(** ** The scan of the table *)

Section ScanProperties.
Context `{Headers}.

Lemma matches_same_input (m : input_mapping_t) (r r' : input_common_t) :
  same_input r r' → matches m r → matches m r'.
Proof. intros Hsame Hm i x Hi. rewrite <- Hsame. by apply Hm. Qed.

(** What the scan has established when it stops. *)
Lemma scan_mappings_spec (bind_mode : wcstring) (l : list input_mapping_t)
    (generic0 : option input_mapping_t) (r0 : input_common_t) found r :
  scan_mappings bind_mode l generic0 r0 = (found, r) →
  match found with
  | Matched m =>
      m ∈ l ∧ mode m = bind_mode ∧ seq m ≠ [] ∧ matches m r0 ∧
      (∀ n, pending r n = pending r0 (length (c_str (seq m)) + n))
  | Exhausted generic =>
      (∀ m, m ∈ l → mode m = bind_mode → seq m ≠ [] → ¬ matches m r0) ∧
      same_input r r0 ∧
      ((generic = generic0 ∧ ∀ g, g ∈ l → mode g = bind_mode → seq g ≠ []) ∨
       (∃ g, generic = Some g ∧ g ∈ l ∧ mode g = bind_mode ∧ seq g = []))
  end.
Proof.
  revert generic0 r0. induction l as [|m l IH]; intros generic0 r0; cbn [scan_mappings].
  - intros [= <- <-]. split; [|split; [done|left; split; [done|]]].
    + intros m Hm. by apply elem_of_nil in Hm.
    + intros g Hg. by apply elem_of_nil in Hg.
  - case_decide as Hmode.
    { intros Hscan. apply IH in Hscan. destruct found as [m'|generic].
      - destruct Hscan as (? & ? & ? & ? & ?). repeat split; try done. by right.
      - destruct Hscan as (Hnone & Hsame & Hgen). split; [|split; [done|]].
        + intros m' [->|Hm']%elem_of_cons; [done|]. by apply Hnone.
        + destruct Hgen as [[-> Hg]|(g & -> & Hg & ? & ?)].
          * left. split; [done|]. intros g [->|?]%elem_of_cons; [done|]. by apply Hg.
          * right. exists g. repeat split; try done. by right. }
    destruct (Nat.eqb_spec (length (seq m)) 0) as [Hlen|Hlen].
    { apply nil_length_inv in Hlen.
      intros Hscan. apply IH in Hscan. destruct found as [m'|generic].
      - destruct Hscan as (? & ? & ? & ? & ?). repeat split; try done. by right.
      - destruct Hscan as (Hnone & Hsame & Hgen). split; [|split; [done|]].
        + intros m' [->|Hm']%elem_of_cons; [done|]. by apply Hnone.
        + right. destruct Hgen as [[-> Hg]|(g & -> & Hg & ? & ?)].
          * exists m. repeat split; try done. by left.
          * exists g. repeat split; try done. by right. }
    assert (seq m ≠ []) as Hseq by (intros Hs; by rewrite Hs in Hlen).
    destruct (input_mapping_is_match m r0) as [[] r1] eqn:Hmatch.
    { intros [= <- <-].
      pose proof (proj1 (input_mapping_is_match_matches m r0)) as Hm.
      rewrite Hmatch in Hm. specialize (Hm eq_refl).
      apply input_mapping_is_match_true in Hmatch as (_ & Hl & Ht & Hp & _).
      split; [by left|]. repeat split; try done.
      intros n. by apply pending_drop. }
    intros Hscan. apply IH in Hscan.
    pose proof (input_mapping_is_match_false_pending m r0 r1 Hmatch) as Hsame1.
    assert (¬ matches m r0) as Hno.
    { rewrite <- input_mapping_is_match_matches, Hmatch. done. }
    destruct found as [m'|generic].
    + destruct Hscan as (? & ? & ? & Hm' & Hpend). split; [by right|].
      repeat split; try done.
      * by apply (matches_same_input m' r1 r0).
      * intros n. by rewrite Hpend, Hsame1.
    + destruct Hscan as (Hnone & Hsame & Hgen). split; [|split].
      * intros m' [->|Hm']%elem_of_cons; [done|].
        intros ? ? Hmatches. eapply Hnone; eauto.
        apply (matches_same_input m' r0 r1); [|done]. intros n. by rewrite Hsame1.
      * intros n. by rewrite Hsame, Hsame1.
      * destruct Hgen as [[-> Hg]|(g & -> & Hg & ? & ?)].
        -- left. split; [done|]. intros g [->|?]%elem_of_cons; [done|]. by apply Hg.
        -- right. exists g. repeat split; try done. by right.
Qed.

(** C5. The scan stops at a binding of the current mode with a sequence
    that is not empty and that the input starts with, and that binding is
    executed. Otherwise no such binding matches the input, the input is as
    it was, and: if the table has a generic binding of the mode, wherever
    it stands, one such is executed; if it has none, one more character is
    read, untimed, and is dropped unless it is [R_EOF], which is pushed
    back. *)
Theorem input_mapping_execute_matching_or_generic_choice
    (parser_eval : wcstring → world → world) (allow_commands : bool) (w : world)
    found r :
  scan_mappings (input_get_bind_mode w) (mapping_list (bindings w)) None (rd w)
    = (found, r) →
  match found with
  | Matched m =>
      m ∈ mapping_list (bindings w) ∧ mode m = input_get_bind_mode w ∧
      seq m ≠ [] ∧ matches m (rd w) ∧
      input_mapping_execute_matching_or_generic parser_eval allow_commands w =
        input_mapping_execute parser_eval m allow_commands (with_rd r w)
  | Exhausted generic =>
      (∀ m, m ∈ mapping_list (bindings w) → mode m = input_get_bind_mode w →
            seq m ≠ [] → ¬ matches m (rd w)) ∧
      same_input r (rd w) ∧
      match generic with
      | Some g =>
          g ∈ mapping_list (bindings w) ∧ mode g = input_get_bind_mode w ∧
          seq g = [] ∧
          input_mapping_execute_matching_or_generic parser_eval allow_commands w =
            input_mapping_execute parser_eval g allow_commands (with_rd r w)
      | None =>
          (∀ g, g ∈ mapping_list (bindings w) → mode g = input_get_bind_mode w →
                seq g ≠ []) ∧
          ∃ r',
            input_mapping_execute_matching_or_generic parser_eval allow_commands w =
              Some (with_rd r' w) ∧
            read_log r' = read_log r ++ [false] ∧
            if decide (pending (rd w) 0 = R_EOF) then same_input r' (rd w)
            else ∀ n, pending r' n = pending (rd w) (S n)
      end
  end.
Proof.
  intros Hscan. unfold input_mapping_execute_matching_or_generic. rewrite Hscan.
  apply scan_mappings_spec in Hscan. destruct found as [m|generic].
  - destruct Hscan as (? & ? & ? & ? & _). done.
  - destruct Hscan as (Hnone & Hsame & Hgen). split; [done|]. split; [done|].
    destruct generic as [g|].
    + destruct Hgen as [[? _]|(g' & [= <-] & ? & ? & ?)]; done.
    + destruct Hgen as [[_ Hg]|(g' & ? & _)]; [|done]. split; [done|].
      destruct (input_common_readch false r) as [c r1] eqn:Hread.
      pose proof Hread as (-> & Hnext)%input_common_readch_pending.
      apply input_common_readch_spec in Hread as (_ & Hl & Ht & Hp & Hlog).
      rewrite (Hsame 0%nat).
      destruct (decide (pending (rd w) 0 = R_EOF)) as [Heof|Heof].
      * eexists. split; [reflexivity|]. split; [done|].
        intros [|n]; unfold pending at 1; simpl; [done|].
        rewrite <- Hsame, <- Hnext. done.
      * eexists. split; [reflexivity|]. split; [done|].
        intros n. by rewrite Hnext, Hsame.
Qed.

Lemma scan_mappings_skip (bind_mode : wcstring) (l1 l2 : list input_mapping_t)
    (b : input_mapping_t) generic (r : input_common_t) :
  mode b ≠ bind_mode →
  scan_mappings bind_mode (l1 ++ b :: l2) generic r =
  scan_mappings bind_mode (l1 ++ l2) generic r.
Proof.
  intros Hb. revert generic r.
  induction l1 as [|m l1 IH]; intros generic r; cbn [app scan_mappings].
  - by case_decide.
  - case_decide; [apply IH|].
    destruct (length (seq m) =? 0)%nat; [apply IH|].
    destruct (input_mapping_is_match m r) as [[] r1]; [done|apply IH].
Qed.

(** C6. A binding of another mode than the current one has no part in the
    scan: with it in the table the scan stops where it stops without it,
    with the same binding and with the reader in the same state, the log of
    its reads included; and the binding the scan comes up with, matched or
    generic, is of the current mode, so it is never that one. *)
Theorem scan_mappings_other_mode (w : world) (l1 l2 : list input_mapping_t)
    (b : input_mapping_t) :
  mapping_list (bindings w) = l1 ++ b :: l2 →
  mode b ≠ input_get_bind_mode w →
  scan_mappings (input_get_bind_mode w) (mapping_list (bindings w)) None (rd w) =
    scan_mappings (input_get_bind_mode w) (l1 ++ l2) None (rd w) ∧
  ∀ found r,
    scan_mappings (input_get_bind_mode w) (mapping_list (bindings w)) None (rd w)
      = (found, r) →
    match found with
    | Matched m | Exhausted (Some m) => mode m = input_get_bind_mode w ∧ m ≠ b
    | Exhausted None => True
    end.
Proof.
  intros Htable Hb. split.
  - rewrite Htable. by apply scan_mappings_skip.
  - intros found r Hscan. apply scan_mappings_spec in Hscan.
    destruct found as [m|[g|]]; [| |done].
    + destruct Hscan as (_ & Hm & _). split; [done|]. by intros ->.
    + destruct Hscan as (_ & _ & [[? _]|(g' & [= <-] & _ & Hg & _)]); [done|].
      split; [done|]. by intros ->.
Qed.

End ScanProperties.

(** ** The function registry *)

Section RegistryProperties.
Context `{Headers}.

Lemma code_arr_length : length code_arr = length name_arr.
Proof. reflexivity. Qed.

Lemma get_code_loop_found (names : list wcstring) (codes : list wchar_t)
    (name : wcstring) :
  get_code_loop names codes name ≠ -1 →
  ∃ i, names !! i = Some name ∧ codes !! i = Some (get_code_loop names codes name).
Proof.
  revert codes. induction names as [|n names IH]; intros [|c codes]; simpl; try done.
  case_decide as Hn.
  - intros _. exists 0%nat. by subst.
  - intros (i & ? & ?)%IH. by exists (S i).
Qed.

Lemma get_code_loop_elem (names : list wcstring) (codes : list wchar_t)
    (name : wcstring) :
  name ∈ names → (length names ≤ length codes)%nat →
  ∃ i, names !! i = Some name ∧ codes !! i = Some (get_code_loop names codes name).
Proof.
  revert codes. induction names as [|n names IH]; intros codes Hin Hlen.
  - by apply elem_of_nil in Hin.
  - destruct codes as [|c codes]; simpl in *; [lia|].
    case_decide as Hn.
    + exists 0%nat. by subst.
    + apply elem_of_cons in Hin as [->|Hin]; [done|].
      destruct (IH codes Hin) as (i & ? & ?); [lia|]. by exists (S i).
Qed.



End RegistryProperties.

(** ** The terminfo registry *)

Section TerminfoProperties.
Context `{Headers}.

(** C8. Once [input_init] has run, leaving [w1]: a name that no entry of
    the registry has gives [false], and [errno] is [ENOENT] afterwards; a
    name whose entry, the first with that name, has no sequence gives
    [false], and [errno] is [EILSEQ] afterwards; in both cases nothing but
    [errno] is changed. A name whose entry has a sequence gives [true] and
    that sequence, and leaves [errno] as it is. *)
Theorem input_terminfo_get_sequence_result (name' : wcstring) (w w1 : world) :
  input_init w = Some w1 →
  (name' ∉ terminfo.name <$> terminfo_mappings w1 →
     ∃ w', input_terminfo_get_sequence (Some name') w = Some (false, None, w') ∧
           errno w' = ENOENT ∧ w' = with_errno ENOENT w1) ∧
  (∀ i m, list_find (λ m, name' = terminfo.name m) (terminfo_mappings w1) = Some (i, m) →
     terminfo.seq m = None →
     ∃ w', input_terminfo_get_sequence (Some name') w = Some (false, None, w') ∧
           errno w' = EILSEQ ∧ w' = with_errno EILSEQ w1) ∧
  (∀ i m res, list_find (λ m, name' = terminfo.name m) (terminfo_mappings w1) = Some (i, m) →
     terminfo.seq m = Some res →
     ∃ w', input_terminfo_get_sequence (Some name') w = Some (true, Some (L res), w') ∧
           errno w' = errno w1 ∧ w' = w1).
Proof.
  intros Hinit. unfold input_terminfo_get_sequence. rewrite Hinit. simpl.
  split; [|split].
  - intros Hname.
    assert (list_find (λ m, name' = terminfo.name m) (terminfo_mappings w1) = None) as ->.
    { apply list_find_None, Forall_forall. intros m Hm ->.
      apply Hname. by apply list_elem_of_fmap_2. }
    by eexists.
  - intros i m -> ->. by eexists.
  - intros i m res -> ->. by eexists.
Qed.

End TerminfoProperties.

(** ** The theorems on the sample states *)

Lemma input_mapping_add_one_per_pair_witness :
  ∃ loc new,
    mapping_list (input_mapping_add (L "b") [L "yank"] DEFAULT_BIND_MODE
                    DEFAULT_BIND_MODE abc_bindings)
      = vector_insert loc new (mapping_list abc_bindings) ∧
    new ∈ mapping_list (input_mapping_add (L "b") [L "yank"] DEFAULT_BIND_MODE
                          DEFAULT_BIND_MODE abc_bindings) ∧
    seq new = L "b" ∧
    specification_order new =
      s_last_input_mapping_specification_order
        (input_mapping_add (L "b") [L "yank"] DEFAULT_BIND_MODE
           DEFAULT_BIND_MODE abc_bindings) ∧
    ∀ m, m ∈ mapping_list abc_bindings →
         specification_order m < specification_order new.
Proof.
  destruct (input_mapping_add_one_per_pair
              [(L "a", [L "backward-char"], DEFAULT_BIND_MODE, DEFAULT_BIND_MODE);
               (L "ab", [L "forward-char"], DEFAULT_BIND_MODE, DEFAULT_BIND_MODE);
               (L "abc", [L "end-of-line"], DEFAULT_BIND_MODE, DEFAULT_BIND_MODE)]
              (L "b") [L "yank"] DEFAULT_BIND_MODE DEFAULT_BIND_MODE)
    as (_ & _ & Hnew).
  destruct Hnew
    as (loc & new & _ & Hlist & _ & _ & Hin & _ & _ & _ & Hseq & _ & _ & _ & Hstamp).
  - intros m Hm [Hseq _].
    repeat (apply elem_of_cons in Hm as [->|Hm]; [discriminate Hseq|]).
    by apply elem_of_nil in Hm.
  - exists loc, new. split; [exact Hlist|]. split; [exact Hin|]. split; [exact Hseq|].
    apply Hstamp. vm_compute. reflexivity.
Defined.

Lemma input_mapping_is_match_restores_witness :
  (input_mapping_is_match abc_mapping (reader_of (L "abd"))).1 = false ∧
  ∀ n, (read_chars n (input_mapping_is_match abc_mapping (reader_of (L "abd"))).2).1
       = (read_chars n (reader_of (L "abd"))).1.
Proof.
  split; [reflexivity|].
  apply (input_mapping_is_match_restores abc_mapping (reader_of (L "abd"))
           (input_mapping_is_match abc_mapping (reader_of (L "abd"))).2).
  reflexivity.
Defined.

Lemma execute_deferred_restores_sequence_witness :
  ∃ w',
    input_mapping_execute idle_eval q_mapping false (world_of no_bindings (L "x"))
      = Some w' ∧
    pending (rd w') 0 = R_NULL ∧ pending (rd w') 1 = 113 ∧
    sh w' = sh (world_of no_bindings (L "x")).
Proof.
  destruct (execute_deferred_restores_sequence idle_eval q_mapping
              (world_of no_bindings (L "x")))
    as (w1 & w' & after & _ & Hexec & _ & _ & Hnull & Hseq & Hsh & _).
  - exists (L "echo hi"). split; [|reflexivity].
    apply list_elem_of_further, list_elem_of_here.
  - vm_compute. discriminate.
  - vm_compute. discriminate.
  - exists w'. split; [exact Hexec|]. split; [exact Hnull|].
    split; [|exact Hsh]. apply (Hseq 0%nat). reflexivity.
Defined.

Lemma execute_deferred_keeps_args_witness :
  ∃ w',
    input_mapping_execute idle_eval q_mapping false (world_of no_bindings (L "x"))
      = Some w' ∧
    input_function_args (fargs w') !! 0%nat = Some 120 ∧
    input_function_args_index (fargs w') = 1.
Proof.
  destruct (execute_deferred_keeps_args idle_eval q_mapping
              (world_of no_bindings (L "x"))
              (default (world_of no_bindings (L "x"))
                 (capture_args (reverse (commands q_mapping))
                    (input_function_set_status true (world_of no_bindings (L "x"))))))
    as (r' & Hexec & _ & _ & _ & Hargs & Hindex).
  - exists (L "echo hi"). split; [|reflexivity].
    apply list_elem_of_further, list_elem_of_here.
  - reflexivity.
  - eexists. split; [exact Hexec|]. split.
    + rewrite Hargs. reflexivity.
    + rewrite Hindex. reflexivity.
Defined.

Lemma input_mapping_execute_matching_or_generic_choice_witness :
  (∃ g r, scan_mappings DEFAULT_BIND_MODE (mapping_list (default_bindings no_bindings))
            None (reader_of (L "a")) = (Exhausted (Some g), r) ∧
          commands g = [L "self-insert"]) ∧
  (∀ m, m ∈ mapping_list (default_bindings no_bindings) →
        mode m = DEFAULT_BIND_MODE → seq m ≠ [] →
        ¬ matches m (reader_of (L "a"))).
Proof.
  destruct (scan_mappings DEFAULT_BIND_MODE (mapping_list (default_bindings no_bindings))
              None (reader_of (L "a"))) as [found r] eqn:Hscan.
  pose proof Hscan as Hvalue. vm_compute in Hvalue.
  injection Hvalue as <- <-.
  split.
  - eexists _, _. split; reflexivity.
  - exact (proj1 (input_mapping_execute_matching_or_generic_choice idle_eval true
                    (world_of (default_bindings no_bindings) (L "a")) _ _ Hscan)).
Defined.

Lemma scan_mappings_other_mode_witness :
  scan_mappings DEFAULT_BIND_MODE [abc_mapping; insert_ab_mapping] None
    (reader_of (L "abx"))
  = scan_mappings DEFAULT_BIND_MODE [abc_mapping] None (reader_of (L "abx")).
Proof.
  apply (scan_mappings_other_mode
           (world_of {| mapping_list := [abc_mapping; insert_ab_mapping];
                        s_last_input_mapping_specification_order := 3 |} (L "abx"))
           [abc_mapping] [] insert_ab_mapping).
  - reflexivity.
  - vm_compute. discriminate.
Defined.

Lemma input_terminfo_get_sequence_result_witness :
  let w := world_of no_bindings [] in
  (∃ w', input_terminfo_get_sequence (Some (L "nope")) w = Some (false, None, w') ∧
         errno w' = 2) ∧
  (∃ w', input_terminfo_get_sequence (Some (L "f20")) w = Some (false, None, w') ∧
         errno w' = 84) ∧
  (∃ w', input_terminfo_get_sequence (Some (L "up")) w = Some (true, Some [27; 91; 65], w') ∧
         errno w' = 0).
Proof.
  intros w. pose (w1 := default w (input_init w)).
  assert (input_init w = Some w1) as Hinit by reflexivity.
  split; [|split].
  - destruct (proj1 (input_terminfo_get_sequence_result (L "nope") w w1 Hinit))
      as (w' & Hget & Herrno & _).
    + apply (bool_decide_unpack _). vm_compute. exact I.
    + exists w'. split; [exact Hget|exact Herrno].
  - destruct (list_find (λ m, L "f20" = terminfo.name m) (terminfo_mappings w1))
      as [[i m]|] eqn:Hfind; [|vm_compute in Hfind; discriminate Hfind].
    destruct (proj1 (proj2 (input_terminfo_get_sequence_result (L "f20") w w1 Hinit))
                i m Hfind) as (w' & Hget & Herrno & _).
    + vm_compute in Hfind. injection Hfind as _ <-. reflexivity.
    + exists w'. split; [exact Hget|exact Herrno].
  - destruct (list_find (λ m, L "up" = terminfo.name m) (terminfo_mappings w1))
      as [[i m]|] eqn:Hfind; [|vm_compute in Hfind; discriminate Hfind].
    destruct (proj2 (proj2 (input_terminfo_get_sequence_result (L "up") w w1 Hinit))
                i m (String (ascii_of_nat 27) "[A") Hfind) as (w' & Hget & Herrno & _).
    + vm_compute in Hfind. injection Hfind as _ <-. reflexivity.
    + exists w'. split; [exact Hget|]. rewrite Herrno. reflexivity.
Defined.


(** * Further properties *)

(** ** Erasing and adding *)

Lemma swap_remove_Permutation {A} (l : list A) (i : nat) (m : A) :
  l !! i = Some m →
  l ≡ₚ m :: removelast (if decide (i ≠ length l - 1)%nat
                        then match last l with Some x => <[i := x]> l | None => l end
                        else l).
Proof.
  intros Hi. pose proof (lookup_lt_Some _ _ _ Hi) as Hlt.
  destruct (last l) as [x|] eqn:Hlast.
  2:{ apply last_None in Hlast. subst l. done. }
  apply last_Some in Hlast as [l' ->].
  rewrite length_app in *. simpl in *.
  case_decide as Hne.
  - assert (i < length l')%nat as Hi' by lia.
    rewrite insert_app_l by done. rewrite removelast_last.
    rewrite lookup_app_l in Hi by done.
    rewrite <- (take_drop_middle l' i m Hi) at 1.
    rewrite insert_take_drop by done.
    rewrite <- app_assoc. simpl.
    rewrite <- (Permutation_middle (take i l') _ m).
    rewrite <- (Permutation_middle (take i l') _ x).
    f_equiv. by rewrite app_assoc, <- Permutation_cons_append.
  - rewrite removelast_last.
    assert (i = length l') as -> by lia.
    rewrite lookup_app_r, Nat.sub_diag in Hi by done. simplify_eq/=.
    by rewrite <- Permutation_cons_append.
Qed.

Lemma input_mapping_erase_spec (sequence : wcstring)
    (mode' : option wcstring) (b : bindings_t) :
  s_last_input_mapping_specification_order (input_mapping_erase sequence mode' b).2
    = s_last_input_mapping_specification_order b ∧
  if (input_mapping_erase sequence mode' b).1 then
    ∃ i m,
      mapping_list b !! i = Some m ∧
      sequence = seq m ∧ (mode' = None ∨ mode' = Some (mode m)) ∧
      (∀ j x, (j < i)%nat → mapping_list b !! j = Some x →
              ¬ (sequence = seq x ∧ (mode' = None ∨ mode' = Some (mode x)))) ∧
      mapping_list b ≡ₚ m :: mapping_list (input_mapping_erase sequence mode' b).2
  else
    (input_mapping_erase sequence mode' b).2 = b ∧
    ∀ x, x ∈ mapping_list b →
         ¬ (sequence = seq x ∧ (mode' = None ∨ mode' = Some (mode x))).
Proof.
  unfold input_mapping_erase.
  destruct (list_find _ (mapping_list b)) as [[i m]|] eqn:Hfind; simpl.
  - split; [done|].
    apply list_find_Some in Hfind as (Hi & [Hseq Hmode] & Hfirst).
    exists i, m. repeat split; try done.
    + intros j x Hj Hx. by apply (Hfirst j x).
    + by apply swap_remove_Permutation.
  - split; [done|]. split; [done|].
    apply list_find_None in Hfind. by rewrite Forall_forall in Hfind.
Qed.

(** X1. [input_mapping_erase] takes out one binding, the first that has the
    sequence and, unless the mode is left open, the mode: the bindings
    before the call are that one and those after it. When there is no such
    binding it returns false and the table is as it was. The counter of
    stamps is never touched. *)
Theorem input_mapping_erase_takes_first (sequence : wcstring)
    (mode' : option wcstring) (b : bindings_t) :
  s_last_input_mapping_specification_order (input_mapping_erase sequence mode' b).2
    = s_last_input_mapping_specification_order b ∧
  if (input_mapping_erase sequence mode' b).1 then
    ∃ i m,
      mapping_list b !! i = Some m ∧
      sequence = seq m ∧ (mode' = None ∨ mode' = Some (mode m)) ∧
      (∀ j x, (j < i)%nat → mapping_list b !! j = Some x →
              ¬ (sequence = seq x ∧ (mode' = None ∨ mode' = Some (mode x)))) ∧
      mapping_list b ≡ₚ m :: mapping_list (input_mapping_erase sequence mode' b).2
  else
    (input_mapping_erase sequence mode' b).2 = b ∧
    ∀ x, x ∈ mapping_list b →
         ¬ (sequence = seq x ∧ (mode' = None ∨ mode' = Some (mode x))).
Proof. apply input_mapping_erase_spec. Qed.

(** X2. In a table with one binding at most for a sequence and a mode, a
    binding erased by its sequence and its mode is gone: no binding is left
    for them, and the bindings left are still one for each pair. *)
Theorem input_mapping_erase_gone (sequence mode' : wcstring) (b b' : bindings_t) :
  NoDup (key <$> mapping_list b) →
  input_mapping_erase sequence (Some mode') b = (true, b') →
  NoDup (key <$> mapping_list b') ∧
  (∀ x, x ∈ mapping_list b' → key x ≠ (sequence, mode')) ∧
  length (mapping_list b) = S (length (mapping_list b')).
Proof.
  intros Hnd Herase.
  pose proof (input_mapping_erase_spec sequence (Some mode') b) as [_ Hspec].
  rewrite Herase in Hspec. simpl in Hspec.
  destruct Hspec as (i & m & _ & Hseq & [?|[= Hmode]] & _ & Hperm); [done|].
  rewrite Hperm in Hnd. rewrite fmap_cons in Hnd.
  apply NoDup_cons in Hnd as [Hnotin Hnd']. split; [done|]. split.
  - intros x Hx Hkey. apply Hnotin.
    apply list_elem_of_fmap. exists x. split; [|done].
    rewrite Hkey. unfold key. by rewrite <- Hseq, Hmode.
  - by rewrite Hperm.
Qed.

(** What holds of a table after [n] table operations at most, adds and
    erases, from the empty table: the counter has not gone past [n], no two
    bindings share a sequence and mode or a stamp, and the stamps lie
    between 1 and the counter. *)
Lemma stamps_invariant_step (n : nat) (b : bindings_t) (op : table_op) :
  Z.of_nat n < UINT_MAX →
  (0 ≤ s_last_input_mapping_specification_order b ≤ Z.of_nat n ∧
   NoDup (key <$> mapping_list b) ∧
   NoDup (specification_order <$> mapping_list b) ∧
   ∀ m, m ∈ mapping_list b →
        0 < specification_order m ≤ s_last_input_mapping_specification_order b) →
  let b' := apply_op b op in
  0 ≤ s_last_input_mapping_specification_order b' ≤ Z.of_nat (S n) ∧
  NoDup (key <$> mapping_list b') ∧
  NoDup (specification_order <$> mapping_list b') ∧
  ∀ m, m ∈ mapping_list b' →
       0 < specification_order m ≤ s_last_input_mapping_specification_order b'.
Proof.
  intros Hn (Hlast & Hkeys & Hstamps & Hbound). unfold UINT_MAX in Hn.
  destruct op as [[[[sequence cmds] mode'] sets_mode']|sequence mode']; simpl.
  - destruct (list_find (λ m, seq m = sequence ∧ mode m = mode') (mapping_list b))
      as [[i m]|] eqn:Hfind.
    + rewrite (input_mapping_add_found _ _ _ _ _ _ _ Hfind). simpl.
      apply list_find_Some in Hfind as (Hi & _ & _).
      split; [lia|]. split; [|split].
      * rewrite list_fmap_insert, list_insert_id; [done|].
        by rewrite list_lookup_fmap, Hi.
      * rewrite list_fmap_insert, list_insert_id; [done|].
        by rewrite list_lookup_fmap, Hi.
      * intros m1 [j Hj]%list_elem_of_lookup.
        apply list_lookup_insert_Some in Hj as [(-> & <- & _)|[_ Hj]]; simpl;
          apply Hbound; by eapply list_elem_of_lookup_2.
    + rewrite (input_mapping_add_fresh _ _ _ _ _ Hfind). simpl.
      unfold input_mapping_insert_sorted.
      rewrite Z.mod_small by lia.
      split; [lia|]. split; [|split].
      * rewrite vector_insert_Permutation, fmap_cons.
        apply NoDup_cons. split; [|done].
        intros (m & Hkey & Hm)%list_elem_of_fmap.
        apply list_find_None in Hfind. rewrite Forall_forall in Hfind.
        apply (Hfind m Hm). unfold key in Hkey. by simplify_eq.
      * rewrite vector_insert_Permutation, fmap_cons.
        apply NoDup_cons. split; [|done]. simpl.
        intros (m & Hstamp & Hm)%list_elem_of_fmap.
        specialize (Hbound m Hm). lia.
      * intros m. rewrite vector_insert_Permutation.
        intros [->|Hm]%elem_of_cons; simpl; [lia|].
        specialize (Hbound m Hm). lia.
  - pose proof (input_mapping_erase_spec sequence mode' b) as [Hcount Hspec].
    destruct (input_mapping_erase sequence mode' b) as [[] b'] eqn:Herase; simpl in *.
    + destruct Hspec as (i & m & _ & _ & _ & _ & Hperm).
      rewrite Hperm, fmap_cons in Hkeys. rewrite Hperm, fmap_cons in Hstamps.
      apply NoDup_cons in Hkeys as [_ Hkeys], Hstamps as [_ Hstamps].
      rewrite Hcount. split; [lia|]. split; [done|]. split; [done|].
      intros x Hx. apply Hbound. rewrite Hperm. by right.
    + destruct Hspec as [-> _]. split; [lia|]. done.
Qed.

Lemma run_ops_stamps_invariant (ops : list table_op) :
  Z.of_nat (length ops) ≤ UINT_MAX →
  let b := run_ops ops no_bindings in
  0 ≤ s_last_input_mapping_specification_order b ≤ Z.of_nat (length ops) ∧
  NoDup (key <$> mapping_list b) ∧
  NoDup (specification_order <$> mapping_list b) ∧
  ∀ m, m ∈ mapping_list b →
       0 < specification_order m ≤ s_last_input_mapping_specification_order b.
Proof.
  induction ops as [|op ops IH] using rev_ind; intros Hlen.
  - simpl. split; [lia|]. split; [constructor|]. split; [constructor|].
    intros m Hm. by apply elem_of_nil in Hm.
  - rewrite length_app in *. simpl in *.
    unfold run_ops. rewrite foldl_app. simpl.
    replace (length ops + 1)%nat with (S (length ops)) by lia.
    apply stamps_invariant_step; [lia|]. apply IH. lia.
Qed.

(** X3. Stamps are not used twice, erases or not: after fewer than
    [UINT_MAX] table operations from the empty table, adds and erases in
    any order, the bindings have one sequence and mode each and one stamp
    each, and a binding that a further add creates gets a stamp larger than
    every stamp in the table. *)
Theorem run_ops_stamps_fresh (ops : list table_op)
    (sequence : wcstring) (cmds : wcstring_list_t) (mode' sets_mode' : wcstring) :
  Z.of_nat (length ops) < UINT_MAX →
  let b := run_ops ops no_bindings in
  let b' := input_mapping_add sequence cmds mode' sets_mode' b in
  NoDup (key <$> mapping_list b) ∧
  NoDup (specification_order <$> mapping_list b) ∧
  ((∀ m, m ∈ mapping_list b → key m ≠ (sequence, mode')) →
   ∃ new, new ∈ mapping_list b' ∧ key new = (sequence, mode') ∧
          commands new = cmds ∧ sets_mode new = sets_mode' ∧
          ∀ m, m ∈ mapping_list b → specification_order m < specification_order new).
Proof.
  intros Hlen b b'.
  destruct (run_ops_stamps_invariant ops) as (Hlast & Hkeys & Hstamps & Hbound); [lia|].
  fold b in Hlast, Hkeys, Hstamps, Hbound.
  split; [done|]. split; [done|]. intros Hfresh.
  assert (list_find (λ m, seq m = sequence ∧ mode m = mode') (mapping_list b) = None)
    as Hfind.
  { apply list_find_None, Forall_forall. intros m Hm [Hs Hmd].
    apply (Hfresh m Hm). unfold key. by rewrite Hs, Hmd. }
  subst b'. rewrite (input_mapping_add_fresh _ _ _ _ _ Hfind). simpl.
  unfold input_mapping_insert_sorted. eexists. split.
  - rewrite vector_insert_Permutation. by left.
  - simpl. repeat split; try done.
    intros m Hm. specialize (Hbound m Hm). unfold UINT_MAX in Hlen.
    rewrite Z.mod_small by lia. lia.
Qed.

(** X4. A table that calls of [input_mapping_add] alone have built from
    the empty one is in matching order: no binding stands before a longer
    one. *)
Theorem run_adds_table_descending (ops : list add_args) :
  descending (mapping_list (run_adds ops no_bindings)).
Proof. apply run_adds_descending. intros i j m1 m2 Hi. done. Qed.

(** X5. Where a new binding goes: in a table in matching order it is put
    behind the bindings with a longer sequence and before all others, those
    of its own length included, so that of two bindings of one length the
    one added later is tried first. *)
Theorem input_mapping_add_position (sequence : wcstring) (cmds : wcstring_list_t)
    (mode' sets_mode' : wcstring) (b : bindings_t) :
  descending (mapping_list b) →
  (∀ m, m ∈ mapping_list b → key m ≠ (sequence, mode')) →
  ∃ before after new,
    mapping_list b = before ++ after ∧
    mapping_list (input_mapping_add sequence cmds mode' sets_mode' b)
      = before ++ new :: after ∧
    seq new = sequence ∧
    (∀ m, m ∈ before → (length sequence < length (seq m))%nat) ∧
    (∀ m, m ∈ after → (length (seq m) ≤ length sequence)%nat).
Proof.
  intros Hd Hfresh.
  assert (list_find (λ m, seq m = sequence ∧ mode m = mode') (mapping_list b) = None)
    as Hfind.
  { apply list_find_None, Forall_forall. intros m Hm [Hs Hmd].
    apply (Hfresh m Hm). unfold key. by rewrite Hs, Hmd. }
  rewrite (input_mapping_add_fresh _ _ _ _ _ Hfind). simpl.
  unfold input_mapping_insert_sorted, vector_insert.
  set (new := {| seq := sequence |}).
  destruct (lower_bound_spec length_is_greater_than (mapping_list b) new
              (descending_partitioned _ new Hd)) as (Hloc & Hbelow & Habove).
  set (loc := lower_bound length_is_greater_than (mapping_list b) new) in *.
  exists (take loc (mapping_list b)), (drop loc (mapping_list b)), new.
  split; [by rewrite take_drop|]. split; [done|]. split; [done|]. split.
  - intros m [i Hi]%list_elem_of_lookup.
    apply lookup_take_Some in Hi as [Hi Hlt].
    specialize (Hbelow i m Hlt Hi). unfold length_is_greater_than in Hbelow.
    by apply Nat.ltb_lt in Hbelow.
  - intros m [i Hi]%list_elem_of_lookup. rewrite lookup_drop in Hi.
    specialize (Habove (loc + i)%nat m ltac:(lia) Hi).
    unfold length_is_greater_than in Habove. apply Nat.ltb_ge in Habove. done.
Qed.

(** ** Looking a binding up *)

(** X6. Adding and looking up: when the table has no binding of the
    sequence in another mode, [input_mapping_get] on the sequence gives,
    after [input_mapping_add], the commands and the two modes that were
    added, whether the binding was new or was there. *)
Theorem input_mapping_add_then_get (sequence : wcstring) (cmds : wcstring_list_t)
    (mode' sets_mode' : wcstring) (b : bindings_t) :
  (∀ m, m ∈ mapping_list b → seq m = sequence → mode m = mode') →
  input_mapping_get sequence (input_mapping_add sequence cmds mode' sets_mode' b)
    = Some (cmds, mode', sets_mode').
Proof.
  intros Hmodes. unfold input_mapping_get.
  destruct (list_find (λ m, seq m = sequence ∧ mode m = mode') (mapping_list b))
    as [[i m]|] eqn:Hfind.
  - rewrite (input_mapping_add_found _ _ _ _ _ _ _ Hfind). simpl.
    apply list_find_Some in Hfind as (Hi & [Hseq Hmode] & Hfirst).
    set (m' := {| seq := seq m |}).
    assert (list_find (λ x, sequence = seq x) (<[i := m']> (mapping_list b))
            = Some (i, m')) as ->.
    { apply list_find_Some. split; [|split].
      - apply list_lookup_insert_eq. by eapply lookup_lt_Some.
      - done.
      - intros j x Hj Hlt Hx.
        rewrite list_lookup_insert_ne in Hj by lia.
        apply (Hfirst j x Hj Hlt). split; [done|].
        apply Hmodes; [by eapply list_elem_of_lookup_2|done]. }
    simpl. by rewrite Hmode.
  - rewrite (input_mapping_add_fresh _ _ _ _ _ Hfind). simpl.
    unfold input_mapping_insert_sorted.
    set (new := {| seq := sequence |}).
    set (loc := lower_bound length_is_greater_than (mapping_list b) new).
    pose proof (lower_bound_le length_is_greater_than (mapping_list b) new) as Hloc.
    fold loc in Hloc.
    assert (list_find (λ x, sequence = seq x) (vector_insert loc new (mapping_list b))
            = Some (loc, new)) as ->.
    { apply list_find_Some. split; [|split].
      - rewrite lookup_vector_insert by done.
        rewrite decide_False by lia. by rewrite decide_True.
      - done.
      - intros j x Hj Hlt Hx.
        rewrite lookup_vector_insert in Hj by done.
        rewrite decide_True in Hj by done.
        apply list_find_None in Hfind. rewrite Forall_forall in Hfind.
        apply (Hfind x); [by eapply list_elem_of_lookup_2|].
        split; [done|]. apply Hmodes; [by eapply list_elem_of_lookup_2|done]. }
    done.
Qed.

(** ** The matcher and the scan *)

Section MoreScanProperties.
Context `{Headers}.

(** X7. The matcher says yes exactly when the input starts with the
    sequence, and it has then taken the sequence off the input: what the
    reader delivers next is what came after the sequence. *)
Theorem input_mapping_is_match_consumes (m : input_mapping_t) (r : input_common_t) :
  ((input_mapping_is_match m r).1 = true ↔ matches m r) ∧
  ((input_mapping_is_match m r).1 = true →
   ∀ n, pending (input_mapping_is_match m r).2 n
        = pending r (length (c_str (seq m)) + n)).
Proof.
  split; [apply input_mapping_is_match_matches|].
  destruct (input_mapping_is_match m r) as [[] r'] eqn:Hm; simpl; [|done].
  intros _ n.
  apply input_mapping_is_match_true in Hm as (_ & Hl & Ht & Hp & _).
  by apply pending_drop.
Qed.

(** The binding the scan stops at is the first of the table, of the mode
    and with a sequence that is not empty, that the input starts with. *)
Lemma scan_mappings_first (bind_mode : wcstring) (l : list input_mapping_t)
    (generic0 : option input_mapping_t) (r0 : input_common_t) m r :
  scan_mappings bind_mode l generic0 r0 = (Matched m, r) →
  ∃ l1 l2, l = l1 ++ m :: l2 ∧
    ∀ x, x ∈ l1 → mode x = bind_mode → seq x ≠ [] → ¬ matches x r0.
Proof.
  revert generic0 r0. induction l as [|x l IH]; intros generic0 r0; cbn [scan_mappings].
  - done.
  - assert (∀ g r1, same_input r1 r0 →
              (mode x = bind_mode → seq x ≠ [] → ¬ matches x r0) →
              scan_mappings bind_mode l g r1 = (Matched m, r) →
              ∃ l1 l2, x :: l = l1 ++ m :: l2 ∧
                ∀ y, y ∈ l1 → mode y = bind_mode → seq y ≠ [] → ¬ matches y r0)
      as Hrest.
    { intros g r1 Hsame Hx (l1 & l2 & -> & Hl1)%IH.
      exists (x :: l1), l2. split; [done|].
      intros y [->|Hy]%elem_of_cons; [done|].
      intros ? ? Hmatches. eapply Hl1; eauto.
      apply (matches_same_input y r0 r1); [|done]. intros n. by rewrite Hsame. }
    case_decide as Hmode.
    { apply Hrest; [done|]. intros; congruence. }
    destruct (Nat.eqb_spec (length (seq x)) 0) as [Hlen|Hlen].
    { apply Hrest; [done|]. intros _ Hne. by apply nil_length_inv in Hlen. }
    destruct (input_mapping_is_match x r0) as [[] r1] eqn:Hmatch.
    + intros [= <- <-]. exists [], l. split; [done|].
      intros y Hy. by apply elem_of_nil in Hy.
    + apply Hrest.
      * intros n. by apply (input_mapping_is_match_false_pending x).
      * intros _ _. rewrite <- input_mapping_is_match_matches, Hmatch. done.
Qed.

(** X8. The longest match wins in a table in matching order: the binding
    the scan stops at has a sequence at least as long as that of any
    binding of the current mode that the input starts with. *)
Theorem scan_mappings_longest_match (bind_mode : wcstring)
    (l : list input_mapping_t) (r0 : input_common_t) m r :
  descending l →
  scan_mappings bind_mode l None r0 = (Matched m, r) →
  ∀ x, x ∈ l → mode x = bind_mode → seq x ≠ [] → matches x r0 →
       (length (seq x) ≤ length (seq m))%nat.
Proof.
  intros Hd (l1 & l2 & -> & Hl1)%scan_mappings_first x Hx Hmode Hseq Hmatches.
  apply list_elem_of_lookup in Hx as [j Hj].
  destruct (decide (j < length l1)%nat) as [Hlt|Hge].
  - rewrite lookup_app_l in Hj by done.
    exfalso. eapply Hl1; eauto. by eapply list_elem_of_lookup_2.
  - apply (Hd (length l1) j m x); [|done|lia].
    by rewrite lookup_app_r, Nat.sub_diag.
Qed.

End MoreScanProperties.

(** ** Arguments and function bindings *)

Section MoreDispatcherProperties.
Context `{Headers}.

(** X9. What is pushed is popped: after [input_function_push_arg] has
    stored a character, [input_function_pop_arg] gives that character and
    the index is where it was before the push. The state after the two
    calls is the state before them but for the slot at the index, which
    holds the character: the other slots of the array, the status of the
    last function and everything outside the array are as they were. *)
Theorem input_function_push_pop (arg : wchar_t) (w w1 : world) :
  length (input_function_args (fargs w)) = Z.to_nat MAX_INPUT_FUNCTION_ARGS →
  input_function_push_arg arg w = Some w1 →
  ∃ w2, input_function_pop_arg w1 = Some (arg, w2) ∧
        w2 = with_fargs
               {| input_function_args :=
                    <[Z.to_nat (input_function_args_index (fargs w)) := arg]>
                      (input_function_args (fargs w));
                  input_function_status := input_function_status (fargs w);
                  input_function_args_index := input_function_args_index (fargs w) |}
               w ∧
        input_function_args_index (fargs w2) = input_function_args_index (fargs w) ∧
        (∀ j, j ≠ Z.to_nat (input_function_args_index (fargs w)) →
              input_function_args (fargs w2) !! j = input_function_args (fargs w) !! j) ∧
        input_function_status (fargs w2) = input_function_status (fargs w) ∧
        rd w2 = rd w ∧ sh w2 = sh w ∧ bindings w2 = bindings w ∧
        terminfo_mappings w2 = terminfo_mappings w ∧ is_init w2 = is_init w ∧
        errno w2 = errno w.
Proof.
  intros Hlen. unfold input_function_push_arg, input_function_pop_arg.
  destruct (Z.leb_spec 0 (input_function_args_index (fargs w))); [|done].
  destruct (Z.ltb_spec (input_function_args_index (fargs w)) MAX_INPUT_FUNCTION_ARGS);
    [|done].
  intros [= <-]. simpl.
  replace (input_function_args_index (fargs w) + 1 - 1)
    with (input_function_args_index (fargs w)) by lia.
  destruct (Z.leb_spec 0 (input_function_args_index (fargs w))); [|lia].
  destruct (Z.ltb_spec (input_function_args_index (fargs w)) MAX_INPUT_FUNCTION_ARGS);
    [|lia].
  simpl. rewrite list_lookup_insert_eq by lia. eexists. split; [reflexivity|].
  split; [done|]. simpl. split; [done|]. split; [|done].
  intros j Hj. by rewrite list_lookup_insert_ne.
Qed.

(** The first loop reads as many characters as the functions among the
    commands take, and stores them in the array from the index on, in the
    order they are read. *)
Lemma push_args_loop_reads (arity : nat) (w : world) :
  0 ≤ input_function_args_index (fargs w) →
  input_function_args_index (fargs w) + Z.of_nat arity ≤ MAX_INPUT_FUNCTION_ARGS →
  length (input_function_args (fargs w)) = Z.to_nat MAX_INPUT_FUNCTION_ARGS →
  ∃ w', push_args_loop arity w = Some w' ∧
    length (input_function_args (fargs w')) = Z.to_nat MAX_INPUT_FUNCTION_ARGS ∧
    (∀ n, pending (rd w') n = pending (rd w) (arity + n)) ∧
    (∀ j, (j < arity)%nat →
       input_function_args (fargs w')
         !! (Z.to_nat (input_function_args_index (fargs w)) + j)%nat
       = Some (pending (rd w) j)) ∧
    (∀ i, (i < Z.to_nat (input_function_args_index (fargs w)))%nat →
       input_function_args (fargs w') !! i = input_function_args (fargs w) !! i).
Proof.
  revert w. induction arity as [|arity IH]; intros w Hlo Hhi Hlen; simpl.
  - exists w. split; [done|]. split; [done|]. split; [done|]. split; [lia|done].
  - destruct (input_common_readch false (rd w)) as [arg r] eqn:Hread.
    apply input_common_readch_pending in Hread as [-> Hnext].
    unfold input_function_push_arg. simpl.
    destruct (Z.leb_spec 0 (input_function_args_index (fargs w))); [|lia].
    destruct (Z.ltb_spec (input_function_args_index (fargs w)) MAX_INPUT_FUNCTION_ARGS);
      [|lia].
    simpl.
    edestruct IH as (w' & Hloop & Hlen' & Hpend & Hnew & Hold); [| | |rewrite Hloop].
    + simpl. lia.
    + simpl. lia.
    + simpl. by rewrite length_insert.
    + simpl in *. exists w'. split; [done|]. split; [done|]. split; [|split].
      * intros n. by rewrite Hpend, Hnext.
      * intros [|j] Hj.
        -- rewrite Nat.add_0_r, Hold by lia.
           apply list_lookup_insert_eq. lia.
        -- replace (Z.to_nat (input_function_args_index (fargs w)) + S j)%nat
             with (Z.to_nat (input_function_args_index (fargs w) + 1) + j)%nat by lia.
           rewrite Hnew by lia. by rewrite Hnext.
      * intros i Hi. rewrite Hold by lia.
        apply list_lookup_insert_ne. lia.
Qed.

Lemma capture_args_reads (cmds : list wcstring) (w : world) :
  0 ≤ input_function_args_index (fargs w) →
  input_function_args_index (fargs w) + Z.of_nat (args_needed cmds)
    ≤ MAX_INPUT_FUNCTION_ARGS →
  length (input_function_args (fargs w)) = Z.to_nat MAX_INPUT_FUNCTION_ARGS →
  ∃ w1, capture_args cmds w = Some w1 ∧ kept w w1 ∧
    input_function_args_index (fargs w1) =
      input_function_args_index (fargs w) + Z.of_nat (args_needed cmds) ∧
    length (input_function_args (fargs w1)) = Z.to_nat MAX_INPUT_FUNCTION_ARGS ∧
    (∀ n, pending (rd w1) n = pending (rd w) (args_needed cmds + n)) ∧
    (∀ j, (j < args_needed cmds)%nat →
       input_function_args (fargs w1)
         !! (Z.to_nat (input_function_args_index (fargs w)) + j)%nat
       = Some (pending (rd w) j)) ∧
    (∀ i, (i < Z.to_nat (input_function_args_index (fargs w)))%nat →
       input_function_args (fargs w1) !! i = input_function_args (fargs w) !! i).
Proof.
  revert w. induction cmds as [|command cmds IH]; intros w Hlo Hhi Hlen.
  - exists w. unfold args_needed. simpl.
    split; [done|]. split; [apply kept_refl|]. split; [lia|]. split; [done|].
    split; [done|]. split; [lia|done].
  - unfold args_needed in Hhi |- *. cbn [sum_list_with capture_args] in Hhi |- *.
    fold (args_needed cmds) in Hhi |- *.
    case_decide as Hcode.
    + unfold input_function_push_args.
      set (a := Z.to_nat (input_function_arity (input_function_get_code command))) in *.
      destruct (push_args_loop_spec a w) as (w' & Hpush & Hkept & Hidx); [done|lia|].
      destruct (push_args_loop_reads a w)
        as (w'' & Hpush' & Hlen' & Hpend & Hnew & Hold); [done|lia|done|].
      rewrite Hpush in Hpush'. injection Hpush' as <-. rewrite Hpush. simpl.
      destruct (IH w') as (w1 & -> & Hkept1 & Hidx1 & Hlen1 & Hpend1 & Hnew1 & Hold1);
        [lia|lia|done|].
      exists w1. split; [done|]. split; [by eapply kept_trans|]. split; [lia|].
      split; [done|]. split; [|split].
      * intros n. rewrite Hpend1, Hpend. f_equal. lia.
      * intros j Hj. destruct (decide (j < a)%nat) as [Hlt|Hge].
        -- rewrite Hold1 by lia. by apply Hnew.
        -- replace (Z.to_nat (input_function_args_index (fargs w)) + j)%nat
             with (Z.to_nat (input_function_args_index (fargs w')) + (j - a))%nat by lia.
           rewrite Hnew1 by lia. rewrite Hpend. do 2 f_equal. lia.
      * intros i Hi. rewrite Hold1 by lia. by apply Hold.
    + destruct (IH w) as (w1 & -> & Hkept1 & Hidx1 & Hlen1 & Hpend1 & Hnew1 & Hold1);
        [lia|lia|done|].
      exists w1. split; [done|]. split; [done|]. split; [lia|]. done.
Qed.

(** A list of functions only: the second loop pushes their codes back and
    runs to the end, whether commands are allowed or not. *)
Lemma run_commands_functions (parser_eval : wcstring → world → world)
    (m : input_mapping_t) (allow_commands : bool) (cmds : list wcstring) (w : world) :
  Forall (λ command, input_function_get_code command ≠ -1) cmds →
  run_commands parser_eval m allow_commands cmds w =
    (Finished, with_rd (unread_all (input_function_get_code <$> cmds) (rd w)) w).
Proof.
  intros Hall. revert w. induction Hall as [|command cmds Hcode _ IH]; intros w.
  - by destruct w.
  - cbn [run_commands]. rewrite decide_True by done. by rewrite IH.
Qed.


Lemma input_mapping_execute_functions_from (parser_eval : wcstring → world → world)
    (m : input_mapping_t) (allow_commands : bool) (w w1 : world) :
  Forall (λ command, input_function_get_code command ≠ -1) (commands m) →
  capture_args (reverse (commands m)) (input_function_set_status true w) = Some w1 →
  ∃ r',
    input_mapping_execute parser_eval m allow_commands w
      = Some (input_set_bind_mode (c_str (sets_mode m)) (with_rd r' w1)) ∧
    lookahead r' = (input_function_get_code <$> commands m) ++ lookahead (rd w1) ∧
    tty r' = tty (rd w1) ∧ tty_pos r' = tty_pos (rd w1) ∧
    read_log r' = read_log (rd w1).
Proof.
  intros Hall Hpass1. unfold input_mapping_execute. rewrite Hpass1. simpl.
  rewrite run_commands_functions by (by apply Forall_reverse).
  eexists. split; [reflexivity|].
  rewrite fmap_reverse.
  by destruct (unread_all_spec (input_function_get_code <$> commands m) (rd w1))
    as (-> & -> & -> & ->).
Qed.

(** X10. A binding to editor functions only, executed while the array has
    room: the codes of the functions end up on the push-back stack, that of
    the first command on top; the mode becomes [sets_mode]; nothing is
    handed to the evaluator and the last status stays; and it makes no
    difference whether commands are allowed or which evaluator there
    is. *)
Theorem input_mapping_execute_functions (parser_eval : wcstring → world → world)
    (m : input_mapping_t) (allow_commands : bool) (w : world) :
  Forall (λ command, input_function_get_code command ≠ -1) (commands m) →
  0 ≤ input_function_args_index (fargs w) →
  input_function_args_index (fargs w) + Z.of_nat (args_needed (commands m))
    ≤ MAX_INPUT_FUNCTION_ARGS →
  ∃ w1 w',
    capture_args (reverse (commands m)) (input_function_set_status true w) = Some w1 ∧
    input_mapping_execute parser_eval m allow_commands w = Some w' ∧
    lookahead (rd w') = (input_function_get_code <$> commands m) ++ lookahead (rd w1) ∧
    input_get_bind_mode w' = c_str (sets_mode m) ∧
    parser_evals (sh w') = parser_evals (sh w) ∧
    proc_last_status (sh w') = proc_last_status (sh w) ∧
    input_function_status (fargs w') = true ∧
    (∀ parser_eval' allow_commands',
       input_mapping_execute parser_eval' m allow_commands' w = Some w').
Proof.
  intros Hall Hlo Hhi.
  destruct (capture_args_spec (reverse (commands m)) (input_function_set_status true w))
    as (w1 & Hpass1 & Hkept & _); [done| |].
  { unfold args_needed in *. by rewrite sum_list_with_reverse. }
  destruct (input_mapping_execute_functions_from parser_eval m allow_commands w w1
              Hall Hpass1) as (r' & Hexec & Hstack & _).
  destruct Hkept as (_ & Hsh & _ & _ & _ & Hstatus & _). simpl in Hsh, Hstatus.
  eexists w1, _. split; [done|]. split; [exact Hexec|]. simpl.
  split; [done|]. split; [done|]. rewrite Hsh. split; [done|]. split; [done|].
  split; [done|].
  intros parser_eval' allow_commands'. unfold input_mapping_execute in *.
  rewrite Hpass1 in *. simpl in *.
  rewrite run_commands_functions in * by (by apply Forall_reverse). done.
Qed.


End MoreDispatcherProperties.

(** ** The function registry, further *)

Section MoreRegistryProperties.
Context `{Headers}.

Lemma name_arr_NoDup : NoDup name_arr.
Proof. apply (bool_decide_unpack _). vm_compute. exact I. Qed.

Lemma input_function_get_code_lookup (name : wcstring) :
  name ∈ name_arr →
  ∃ i, name_arr !! i = Some name ∧
       code_arr !! i = Some (input_function_get_code name).
Proof.
  intros Hin.
  by destruct (get_code_loop_elem name_arr code_arr name Hin) as (i & Hname & Hcode);
    [|exists i].
Qed.

(** X12. Provided the codes of [code_arr] differ from one another and from
    -1: [input_function_get_code] gives -1 exactly for the names that are
    not names of editor functions, and two names with the same code, one of
    them the name of a function, are the same name. *)
Theorem input_function_get_code_registered :
  NoDup code_arr →
  (∀ c, c ∈ code_arr → c ≠ -1) →
  (∀ name, name ∈ input_function_get_names ↔ input_function_get_code name ≠ -1) ∧
  (∀ name1 name2, name1 ∈ input_function_get_names →
     input_function_get_code name1 = input_function_get_code name2 → name1 = name2).
Proof.
  intros Hdistinct Hcodes. split.
  - intros name. split.
    + intros (i & _ & Hc)%input_function_get_code_lookup.
      apply Hcodes. by eapply list_elem_of_lookup_2.
    + intros Hcode.
      destruct (get_code_loop_found name_arr code_arr name Hcode) as (i & Hi & _).
      by eapply list_elem_of_lookup_2.
  - intros name1 name2 Hin1 Heq.
    pose proof Hin1 as (i1 & Hi1 & Hc1)%input_function_get_code_lookup.
    assert (input_function_get_code name2 ≠ -1) as Hcode2.
    { rewrite <- Heq. apply Hcodes. by eapply list_elem_of_lookup_2. }
    destruct (get_code_loop_found name_arr code_arr name2 Hcode2) as (i2 & Hi2 & Hc2).
    assert (code_arr !! i2 = Some (input_function_get_code name1)) as Hc2'
      by (rewrite Heq; exact Hc2).
    assert (i1 = i2) as -> by (by eapply NoDup_lookup).
    unfold wcstring, wchar_t in *. congruence.
Qed.

(** X13. Provided the codes of [code_arr] differ from one another: of the
    editor functions, [forward-jump] and [backward-jump] take one character
    and all others none. *)
Theorem input_function_arity_by_name (name : wcstring) :
  NoDup code_arr →
  name ∈ input_function_get_names →
  input_function_arity (input_function_get_code name) =
    if decide (name = L "forward-jump" ∨ name = L "backward-jump") then 1 else 0.
Proof.
  intros Hdistinct (i & Hi & Hc)%input_function_get_code_lookup.
  assert (∀ j n, name_arr !! j = Some n → name = n ↔ i = j) as Hname.
  { intros j n Hj. split.
    - intros <-. by eapply NoDup_lookup; [apply name_arr_NoDup|..].
    - intros ->. unfold wcstring, wchar_t in *. congruence. }
  assert (∀ j c, code_arr !! j = Some c → input_function_get_code name = c ↔ i = j)
    as Hcode.
  { intros j c Hj. split.
    - intros Heq. rewrite Heq in Hc. by eapply NoDup_lookup.
    - intros ->. congruence. }
  pose proof (Hname 44%nat (L "forward-jump") eq_refl) as Hforward.
  pose proof (Hname 45%nat (L "backward-jump") eq_refl) as Hbackward.
  pose proof (Hcode 44%nat R_FORWARD_JUMP eq_refl) as Hforward_code.
  pose proof (Hcode 45%nat R_BACKWARD_JUMP eq_refl) as Hbackward_code.
  unfold input_function_arity.
  destruct (decide (name = L "forward-jump" ∨ name = L "backward-jump")) as [Hjump|Hjump].
  - destruct Hjump as [Hjump|Hjump].
    + rewrite decide_True; [done|]. by apply Hforward_code, Hforward.
    + case_decide; [done|].
      rewrite decide_True; [done|]. by apply Hbackward_code, Hbackward.
  - rewrite !decide_False; [done|..].
    + intros Heq. apply Hjump. right. by apply Hbackward, Hbackward_code.
    + intros Heq. apply Hjump. left. by apply Hforward, Hforward_code.
Qed.

End MoreRegistryProperties.

(** ** The terminfo registry and the life cycle, further *)

Section MoreTerminfoProperties.
Context `{Headers}.

Lemma tinfos_names_NoDup (t : TERMINAL) : NoDup (terminfo.name <$> tinfos t).
Proof. apply (bool_decide_unpack _). vm_compute. exact I. Qed.

Lemma list_find_name_unique (l : list terminfo.terminfo_mapping_t) (i : nat)
    (m : terminfo.terminfo_mapping_t) :
  NoDup (terminfo.name <$> l) → l !! i = Some m →
  list_find (λ x, terminfo.name m = terminfo.name x) l = Some (i, m).
Proof.
  intros Hnd Hi. apply list_find_Some. split; [done|]. split; [done|].
  intros j x Hj Hlt Hname.
  assert ((terminfo.name <$> l) !! i = Some (terminfo.name m)) as Ki
    by (by rewrite list_lookup_fmap, Hi).
  assert ((terminfo.name <$> l) !! j = Some (terminfo.name m)) as Kj
    by (by rewrite list_lookup_fmap, Hj, Hname).
  pose proof (NoDup_lookup _ _ _ _ Hnd Ki Kj). lia.
Qed.

(** X14. From a sequence to a name and back: in a registry where every
    name stands once, a name that [input_terminfo_get_name] gives for a
    sequence is one for which [input_terminfo_get_sequence] gives that
    sequence; and for a sequence that [input_terminfo_get_sequence] gives
    for some name, [input_terminfo_get_name] finds a name. *)
Theorem input_terminfo_name_sequence_round_trip (w w1 : world) :
  input_init w = Some w1 →
  NoDup (terminfo.name <$> terminfo_mappings w1) →
  (∀ seq' name', input_terminfo_get_name seq' w = Some (Some name', w1) →
     input_terminfo_get_sequence (Some name') w = Some (true, Some seq', w1)) ∧
  (∀ seq' name', input_terminfo_get_sequence (Some name') w = Some (true, Some seq', w1) →
     ∃ name'', input_terminfo_get_name seq' w = Some (Some name'', w1) ∧
               input_terminfo_get_sequence (Some name'') w = Some (true, Some seq', w1)).
Proof.
  intros Hinit Hnd.
  assert (∀ seq' name', input_terminfo_get_name seq' w = Some (Some name', w1) →
            input_terminfo_get_sequence (Some name') w = Some (true, Some seq', w1))
    as Hback.
  { intros seq' name'.
    unfold input_terminfo_get_name, input_terminfo_get_sequence. rewrite Hinit. simpl.
    destruct (list_find _ (terminfo_mappings w1)) as [[i m]|] eqn:Hfind; [|done].
    intros [= <-].
    apply list_find_Some in Hfind as (Hi & Hseq & _).
    rewrite (list_find_name_unique _ i m Hnd Hi).
    destruct (terminfo.seq m) as [res|]; [|done]. by simplify_eq/=. }
  split; [done|].
  intros seq' name' Hget.
  assert (∃ name'', input_terminfo_get_name seq' w = Some (Some name'', w1))
    as [name'' Hname].
  { revert Hget.
    unfold input_terminfo_get_name, input_terminfo_get_sequence. rewrite Hinit. simpl.
    destruct (list_find (λ m, name' = terminfo.name m) (terminfo_mappings w1))
      as [[i m]|] eqn:Hfind; [|done].
    destruct (terminfo.seq m) as [res|] eqn:Hres; [|done]. intros [= <-].
    apply list_find_Some in Hfind as (Hi & _ & _).
    destruct (list_find (λ m0, L <$> terminfo.seq m0 = Some (L res))
                (terminfo_mappings w1)) as [[j x]|] eqn:Hfind'; [by eexists|].
    apply list_find_None in Hfind'. rewrite Forall_forall in Hfind'.
    destruct (Hfind' m); [by eapply list_elem_of_lookup_2|]. by rewrite Hres. }
  exists name''. split; [done|]. by apply Hback.
Qed.

(** X15. What [input_terminfo_get_names] lists. Asked to leave out the
    keys without a sequence, it lists, in a registry where every name
    stands once, the names for which [input_terminfo_get_sequence]
    succeeds. Asked to leave out nothing, it lists the names for which
    [input_terminfo_get_sequence] does not fail with [ENOENT], as long as
    [EILSEQ] is another number. *)
Theorem input_terminfo_get_names_listed (w w1 : world) (name' : wcstring) :
  input_init w = Some w1 →
  NoDup (terminfo.name <$> terminfo_mappings w1) →
  ENOENT ≠ EILSEQ →
  (∃ names, input_terminfo_get_names true w = Some (names, w1) ∧
     (name' ∈ names ↔
      ∃ seq', input_terminfo_get_sequence (Some name') w = Some (true, Some seq', w1))) ∧
  (∃ names, input_terminfo_get_names false w = Some (names, w1) ∧
     (name' ∈ names ↔
      input_terminfo_get_sequence (Some name') w
        ≠ Some (false, None, with_errno ENOENT w1))).
Proof.
  intros Hinit Hnd Herrno.
  unfold input_terminfo_get_names, input_terminfo_get_sequence. rewrite Hinit. simpl.
  split; (eexists; split; [reflexivity|]).
  - split.
    + intros (m & -> & [Hm Hseq]%list_elem_of_filter)%list_elem_of_fmap.
      apply list_elem_of_lookup in Hseq as [i Hi].
      rewrite (list_find_name_unique _ i m Hnd Hi).
      destruct (terminfo.seq m) as [res|]; [by eexists|]. by destruct Hm.
    + intros [seq' Hget].
      destruct (list_find (λ m, name' = terminfo.name m) (terminfo_mappings w1))
        as [[i m]|] eqn:Hfind; [|done].
      destruct (terminfo.seq m) as [res|] eqn:Hres; [|done].
      apply list_find_Some in Hfind as (Hi & -> & _).
      apply list_elem_of_fmap. exists m. split; [done|].
      apply list_elem_of_filter. split; [|by eapply list_elem_of_lookup_2].
      intros [_ ?]. congruence.
  - split.
    + intros (m & -> & [_ Hm]%list_elem_of_filter)%list_elem_of_fmap.
      destruct (list_find (λ x, terminfo.name m = terminfo.name x) (terminfo_mappings w1))
        as [[i x]|] eqn:Hfind.
      * destruct (terminfo.seq x); [done|].
        intros [= Heq]. by apply Herrno.
      * apply list_find_None in Hfind. rewrite Forall_forall in Hfind.
        by destruct (Hfind m Hm).
    + intros Hne.
      destruct (list_find (λ m, name' = terminfo.name m) (terminfo_mappings w1))
        as [[i m]|] eqn:Hfind; [|done].
      apply list_find_Some in Hfind as (Hi & -> & _).
      apply list_elem_of_fmap. exists m. split; [done|].
      apply list_elem_of_filter. split; [by intros [? _]|by eapply list_elem_of_lookup_2].
Qed.

End MoreTerminfoProperties.

Section LifeCycleProperties.
Context `{Headers}.

Lemma input_mapping_add_nonempty (sequence : wcstring) (cmds : wcstring_list_t)
    (mode' sets_mode' : wcstring) (b : bindings_t) :
  mapping_list (input_mapping_add sequence cmds mode' sets_mode' b) ≠ [].
Proof.
  destruct (list_find (λ m, seq m = sequence ∧ mode m = mode') (mapping_list b))
    as [[i m]|] eqn:Hfind.
  - rewrite (input_mapping_add_found _ _ _ _ _ _ _ Hfind). simpl.
    apply list_find_Some in Hfind as (Hi & _).
    intros Hnil. apply (f_equal length) in Hnil. rewrite length_insert in Hnil.
    apply lookup_lt_Some in Hi. simpl in Hnil. lia.
  - rewrite (input_mapping_add_fresh _ _ _ _ _ Hfind). simpl.
    unfold input_mapping_insert_sorted, vector_insert.
    by destruct (take _ _).
Qed.

Lemma input_init_setupterm_spec (w w' : world) :
  input_init_setupterm w = Some w' →
  ∃ t, cur_term w' = Some t ∧
       bindings w' = bindings w ∧ fargs w' = fargs w ∧
       terminfo_mappings w' = terminfo_mappings w ∧ is_init w' = is_init w ∧
       output w' = output w ∧ interrupt_installed w' = interrupt_installed w ∧
       (TERM (sh w') = TERM (sh w) ∨ TERM (sh w') = Some DEFAULT_TERM).
Proof.
  unfold input_init_setupterm.
  destruct (setupterm None (errno w)) as [[t|errret] e].
  { intros [= <-]. exists t. simpl. by auto 10. }
  case_decide; [|done]. simpl.
  destruct (setupterm (Some (wcs2string DEFAULT_TERM)) e) as [[t|errret'] e']; [|done].
  intros [= <-]. exists t. simpl. by auto 10.
Qed.

Lemma input_init_spec (w w1 : world) :
  input_init w = Some w1 →
  (is_init w = true → w1 = w) ∧
  (is_init w = false →
     input_init w1 = Some w1 ∧ is_init w1 = true ∧
     mapping_list (bindings w1) ≠ [] ∧
     (mapping_list (bindings w) ≠ [] → bindings w1 = bindings w) ∧
     (mapping_list (bindings w) = [] → bindings w1 = default_bindings (bindings w)) ∧
     (∃ t, cur_term w1 = Some t ∧
           terminfo_mappings w1 = terminfo_mappings w ++ tinfos t) ∧
     fargs w1 = fargs w ∧
     interrupt_installed w1 = true ∧
     output_term (output w1) = TERM (sh w) ∧
     (TERM (sh w1) = TERM (sh w) ∨ TERM (sh w1) = Some DEFAULT_TERM)).
Proof.
  unfold input_init at 1. destruct (is_init w) eqn:Hinit.
  { intros [= <-]. split; [done|]. done. }
  destruct (input_init_setupterm _) as [w_t|] eqn:Hsetup; simpl; [|done].
  apply input_init_setupterm_spec in Hsetup
    as (t & Hterm & Hb & Hfargs & Hreg & Hflag & Hout & Hint & Hsh).
  simpl in Hb, Hfargs, Hreg, Hflag, Hout, Hint, Hsh.
  destruct (TERM (sh w)) as [term|] eqn:HTERM; simpl; [|done].
  unfold input_terminfo_init. simpl. rewrite Hterm. simpl.
  rewrite Hb, Hreg.
  case_decide as Hempty; intros [= <-]; (split; [done|]); intros _;
    unfold input_init; simpl; rewrite Hflag; simpl.
  - split; [done|]. split; [done|].
    split; [apply input_mapping_add_nonempty|]. split; [done|].
    split; [by destruct (bindings w)|]. split; [by exists t|]. done.
  - rewrite Hb. split; [done|]. split; [done|]. split; [done|]. split; [done|].
    split; [done|]. split; [by exists t|]. done.
Qed.

(** X16. [input_init] does its work once. A state marked as initialised
    is left as it is. Otherwise, where the call returns, the state it
    leaves is marked, and a second call leaves that state as it is; the
    table it leaves is not empty: a table that was not empty before is the
    one it leaves, and an empty one has been given the default bindings;
    the keys of the terminal description that has been set up are put
    behind what the terminfo registry holds; the argument array is not
    touched; the reader has its callback; the output module has been told
    the name that [TERM] had when the call began; and [TERM] is what it
    was, or it is [DEFAULT_TERM]. *)
Theorem input_init_once (w w1 : world) :
  input_init w = Some w1 →
  (is_init w = true → w1 = w) ∧
  (is_init w = false →
     input_init w1 = Some w1 ∧ is_init w1 = true ∧
     mapping_list (bindings w1) ≠ [] ∧
     (mapping_list (bindings w) ≠ [] → bindings w1 = bindings w) ∧
     (mapping_list (bindings w) = [] → bindings w1 = default_bindings (bindings w)) ∧
     (∃ t, cur_term w1 = Some t ∧
           terminfo_mappings w1 = terminfo_mappings w ++ tinfos t) ∧
     fargs w1 = fargs w ∧
     interrupt_installed w1 = true ∧
     output_term (output w1) = TERM (sh w) ∧
     (TERM (sh w1) = TERM (sh w) ∨ TERM (sh w1) = Some DEFAULT_TERM)).
Proof. apply input_init_spec. Qed.

(** X25. The fallback. When curses does not know the terminal of the
    environment, which is [ERR] with 0 in [errret], and does set
    [DEFAULT_TERM] up, the first [input_init] of a state in which [TERM] is
    set returns. Afterwards [TERM] is [DEFAULT_TERM] and the registry has
    been given the keys of the description of [DEFAULT_TERM], but the
    output module has been told the name that [TERM] had before; and unless
    [fish_term256] is set and not empty, 256 colours count as not
    supported, whatever that name was. *)
Theorem input_init_fallback (w : world) (term : wcstring) (t : TERMINAL) (e e' : Z) :
  is_init w = false →
  TERM (sh w) = Some term →
  setupterm None (errno w) = (inr 0, e) →
  setupterm (Some (wcs2string DEFAULT_TERM)) e = (inl t, e') →
  ∃ w1,
    input_init w = Some w1 ∧
    TERM (sh w1) = Some DEFAULT_TERM ∧
    cur_term w1 = Some t ∧
    terminfo_mappings w1 = terminfo_mappings w ++ tinfos t ∧
    output_term (output w1) = Some term ∧
    errno w1 = e' ∧
    (fish_term256 (sh w) = None ∨ fish_term256 (sh w) = Some [] →
     output_supports_term256 (output w1) = false).
Proof.
  intros Hinit HTERM Hfirst Hsecond.
  unfold input_init, input_init_setupterm. rewrite Hinit. simpl.
  rewrite Hfirst. simpl. rewrite Hsecond. simpl. rewrite HTERM. simpl.
  unfold input_terminfo_init. simpl.
  case_decide; (eexists; split; [reflexivity|]); simpl;
    (do 5 (split; [done|])); by intros [-> | ->].
Qed.

End LifeCycleProperties.

(** ** The read loop *)

Section ReadLoopProperties.
Context `{Headers}.

Lemma same_input_sym (r r' : input_common_t) : same_input r r' → same_input r' r.
Proof. intros Hs n. by rewrite Hs. Qed.

Lemma requeue_same_input (r : input_common_t) c r1 :
  input_common_readch false r = (c, r1) → same_input (input_unreadch c r1) r.
Proof.
  intros [-> Hnext]%input_common_readch_pending [|n]; unfold pending at 1; simpl; [done|].
  apply Hnext.
Qed.

(** The scan goes by what the reader is going to deliver: two readers with
    the same input make it stop at the same binding. *)
Lemma scan_mappings_same_input (bind_mode : wcstring) (l : list input_mapping_t)
    (generic : option input_mapping_t) (r r' : input_common_t) :
  same_input r r' →
  (scan_mappings bind_mode l generic r).1 = (scan_mappings bind_mode l generic r').1.
Proof.
  revert generic r r'. induction l as [|m l IH]; intros generic r r' Hsame;
    cbn [scan_mappings]; [done|].
  case_decide; [by apply IH|].
  destruct (length (seq m) =? 0)%nat; [by apply IH|].
  pose proof (input_mapping_is_match_matches m r) as Hr.
  pose proof (input_mapping_is_match_matches m r') as Hr'.
  destruct (input_mapping_is_match m r) as [[] r1] eqn:Hm,
           (input_mapping_is_match m r') as [[] r1'] eqn:Hm'; simpl in *.
  - done.
  - exfalso. assert (matches m r') as Hm2
      by (apply (matches_same_input m r r'); [done|by apply Hr]).
    apply Hr' in Hm2. done.
  - exfalso. assert (matches m r) as Hm2
      by (apply (matches_same_input m r' r); [by apply same_input_sym|by apply Hr']).
    apply Hr in Hm2. done.
  - apply IH. intros n.
    rewrite (input_mapping_is_match_false_pending m r r1 Hm).
    rewrite (input_mapping_is_match_false_pending m r' r1' Hm'). apply Hsame.
Qed.


Lemma scan_mappings_chosen_input (bind_mode : wcstring) (l : list input_mapping_t)
    (r : input_common_t) found r_s m :
  scan_mappings bind_mode l None r = (found, r_s) →
  chosen found = Some m →
  m ∈ l ∧ mode m = bind_mode ∧ matches m r ∧
  ∀ n, pending r_s n = pending r (length (c_str (seq m)) + n).
Proof.
  intros Hscan%scan_mappings_spec Hchosen. destruct found as [m'|generic]; simpl in *.
  - simplify_eq. by destruct Hscan as (? & ? & _ & ? & ?).
  - subst generic. destruct Hscan as (_ & Hsame & [[? _]|(g & [= <-] & ? & ? & Hg)]);
      [done|].
    split; [done|]. split; [done|]. split.
    + intros i x. by rewrite Hg.
    + rewrite Hg. intros n. apply Hsame.
Qed.

(** What match-or-generic leaves when the binding it comes up with is bound
    to editor functions only. *)
Lemma matching_or_generic_functions (parser_eval : wcstring → world → world)
    (allow_commands : bool) (w : world) (m : input_mapping_t) :
  chosen (scan_mappings (input_get_bind_mode w) (mapping_list (bindings w)) None
            (rd w)).1 = Some m →
  Forall (λ command, input_function_get_code command ≠ -1) (commands m) →
  0 ≤ input_function_args_index (fargs w) →
  input_function_args_index (fargs w) + Z.of_nat (args_needed (commands m))
    ≤ MAX_INPUT_FUNCTION_ARGS →
  length (input_function_args (fargs w)) = Z.to_nat MAX_INPUT_FUNCTION_ARGS →
  ∃ w2 r_rest,
    input_mapping_execute_matching_or_generic parser_eval allow_commands w = Some w2 ∧
    lookahead (rd w2) = (input_function_get_code <$> commands m) ++ lookahead r_rest ∧
    tty (rd w2) = tty r_rest ∧ tty_pos (rd w2) = tty_pos r_rest ∧
    (∀ n, pending r_rest n =
          pending (rd w) (length (c_str (seq m)) + args_needed (commands m) + n)) ∧
    input_get_bind_mode w2 = c_str (sets_mode m) ∧
    bindings w2 = bindings w ∧
    parser_evals (sh w2) = parser_evals (sh w) ∧
    input_function_status (fargs w2) = true ∧
    input_function_args_index (fargs w2) =
      input_function_args_index (fargs w) + Z.of_nat (args_needed (commands m)) ∧
    length (input_function_args (fargs w2)) = Z.to_nat MAX_INPUT_FUNCTION_ARGS ∧
    (∀ j, (j < args_needed (commands m))%nat →
       input_function_get_arg (input_function_args_index (fargs w) + Z.of_nat j) w2
       = Some (pending (rd w) (length (c_str (seq m)) + j))).
Proof.
  intros Hchosen Hall Hlo Hhi Hlen.
  unfold input_mapping_execute_matching_or_generic.
  destruct (scan_mappings _ _ _ _) as [found r_s] eqn:Hscan. simpl in Hchosen.
  destruct (scan_mappings_chosen_input _ _ _ _ _ _ Hscan Hchosen) as (_ & _ & _ & Hinput).
  set (w_s := with_rd r_s w).
  assert (input_mapping_execute parser_eval m allow_commands w_s
          = match found with
            | Matched m0 => input_mapping_execute parser_eval m0 allow_commands w_s
            | Exhausted (Some generic) =>
                input_mapping_execute parser_eval generic allow_commands w_s
            | Exhausted None =>
                let '(c, r') := input_common_readch false r_s in
                if decide (c = R_EOF) then Some (with_rd (input_common_unreadch c r') w)
                else Some (with_rd r' w)
            end) as <-.
  { destruct found as [?|[?|]]; simpl in Hchosen; by simplify_eq. }
  assert (args_needed (reverse (commands m)) = args_needed (commands m)) as Hrev
    by (unfold args_needed; by rewrite sum_list_with_reverse).
  destruct (capture_args_reads (reverse (commands m)) (input_function_set_status true w_s))
    as (w1 & Hpass1 & Hkept & Hidx & Hlen1 & Hpend & Hnew & Hold); [done| |done|].
  { rewrite Hrev. done. }
  rewrite Hrev in *. simpl in Hidx, Hpend, Hnew, Hold.
  destruct (input_mapping_execute_functions_from parser_eval m allow_commands w_s w1
              Hall Hpass1) as (r' & -> & Hstack & Htty & Hpos & _).
  destruct Hkept as (Hb & Hsh & _ & _ & _ & Hstatus & _). simpl in Hb, Hsh, Hstatus.
  eexists _, (rd w1). split; [reflexivity|]. simpl.
  split; [done|]. split; [done|]. split; [done|]. split.
  { intros n. rewrite Hpend, Hinput. f_equal. lia. }
  split; [done|]. split; [done|]. rewrite Hsh. split; [done|]. split; [done|].
  split; [done|]. split; [done|].
  intros j Hj. unfold input_function_get_arg. simpl.
  destruct (Z.leb_spec 0 (input_function_args_index (fargs w) + Z.of_nat j)); [|lia].
  destruct (Z.ltb_spec (input_function_args_index (fargs w) + Z.of_nat j)
              MAX_INPUT_FUNCTION_ARGS); [|lia].
  simpl.
  replace (Z.to_nat (input_function_args_index (fargs w) + Z.of_nat j))
    with (Z.to_nat (input_function_args_index (fargs w)) + j)%nat by lia.
  rewrite Hnew by done. by rewrite Hinput.
Qed.

Variable parser_eval : wcstring → world → world.
Variable default_allow_commands : bool.

(** A round of the loop on a character that is not a code: the character
    goes back and match-or-generic runs on the input as it was. *)
Lemma readch_loop_round (fuel : nat) (allow_commands : bool) (w : world) :
  ¬ (R_MIN ≤ pending (rd w) 0 ≤ R_MAX) →
  ∃ w_a,
    same_input (rd w_a) (rd w) ∧ bindings w_a = bindings w ∧ sh w_a = sh w ∧
    fargs w_a = fargs w ∧
    readch_loop parser_eval false default_allow_commands (S fuel) allow_commands w =
      match input_mapping_execute_matching_or_generic parser_eval allow_commands w_a with
      | None => Undefined
      | Some w' =>
          readch_loop parser_eval false default_allow_commands fuel allow_commands w'
      end.
Proof.
  intros Hrange. cbn [readch_loop].
  destruct (input_common_readch false (rd w)) as [c r1] eqn:Hread.
  pose proof (requeue_same_input _ _ _ Hread) as Hsame.
  apply input_common_readch_pending in Hread as [-> _].
  destruct (Z.leb_spec R_MIN (pending (rd w) 0)),
           (Z.leb_spec (pending (rd w) 0) R_MAX); simpl; try lia.
  all: by exists (with_rd (input_unreadch (pending (rd w) 0) r1) w).
Qed.

Lemma chosen_requeued (w w_a : world) (m : input_mapping_t) :
  same_input (rd w_a) (rd w) → bindings w_a = bindings w → sh w_a = sh w →
  chosen (scan_mappings (input_get_bind_mode w) (mapping_list (bindings w)) None
            (rd w)).1 = Some m →
  chosen (scan_mappings (input_get_bind_mode w_a) (mapping_list (bindings w_a)) None
            (rd w_a)).1 = Some m.
Proof.
  intros Hsame Hb Hsh <-. unfold input_get_bind_mode. rewrite Hb, Hsh.
  f_equal. by apply scan_mappings_same_input.
Qed.

(** A read that finds a code on top of the stack. *)
Lemma input_common_readch_top (r : input_common_t) (c : wchar_t) (rest : list wchar_t) :
  lookahead r = c :: rest →
  ∃ r', input_common_readch false r = (c, r') ∧ lookahead r' = rest ∧
        tty r' = tty r ∧ tty_pos r' = tty_pos r.
Proof. intros Hl. unfold input_common_readch. rewrite Hl. by eexists. Qed.

(** X18. A key bound to editor functions: when the next character is not a
    code and the binding that match-or-generic comes up with has functions
    only, the first of them with a code in the reserved range that is none
    of [R_EOF], [R_SELF_INSERT] and [R_AND], then [input_readch] returns
    the code of the first function. The codes of the other functions are
    what the reader delivers next, in their order, and after them the input
    that follows the sequence and the characters the functions took; those
    characters are in the argument array; the mode is [sets_mode]; nothing
    has been handed to the evaluator. *)
Theorem input_readch_function (fuel : nat) (allow_commands : bool) (w : world)
    (m : input_mapping_t) (name : wcstring) (others : list wcstring) :
  ¬ (R_MIN ≤ pending (rd w) 0 ≤ R_MAX) →
  chosen (scan_mappings (input_get_bind_mode w) (mapping_list (bindings w)) None
            (rd w)).1 = Some m →
  commands m = name :: others →
  Forall (λ command, input_function_get_code command ≠ -1) (commands m) →
  R_MIN ≤ input_function_get_code name ≤ R_MAX →
  input_function_get_code name ≠ R_EOF →
  input_function_get_code name ≠ R_SELF_INSERT →
  input_function_get_code name ≠ R_AND →
  0 ≤ input_function_args_index (fargs w) →
  input_function_args_index (fargs w) + Z.of_nat (args_needed (commands m))
    ≤ MAX_INPUT_FUNCTION_ARGS →
  length (input_function_args (fargs w)) = Z.to_nat MAX_INPUT_FUNCTION_ARGS →
  ∃ w',
    input_readch parser_eval false default_allow_commands (S (S fuel)) allow_commands w
      = Value (input_function_get_code name, w') ∧
    (∀ n, pending (rd w') n =
          match (input_function_get_code <$> others) !! n with
          | Some c => c
          | None => pending (rd w) (length (c_str (seq m)) + args_needed (commands m)
                                    + (n - length others))
          end) ∧
    (∀ j, (j < args_needed (commands m))%nat →
       input_function_get_arg (input_function_args_index (fargs w) + Z.of_nat j) w'
       = Some (pending (rd w) (length (c_str (seq m)) + j))) ∧
    input_get_bind_mode w' = c_str (sets_mode m) ∧
    parser_evals (sh w') = parser_evals (sh w).
Proof.
  intros Hrange Hchosen Hcmds Hall Hcode Heof Hself Hand Hlo Hhi Hlen.
  unfold input_readch.
  destruct (readch_loop_round (S fuel) allow_commands w Hrange)
    as (w_a & Hsame & Hb & Hsh & Hfargs & ->).
  destruct (matching_or_generic_functions parser_eval allow_commands w_a m)
    as (w2 & r_rest & -> & Hstack & Htty & Hpos & Hinput & Hmode & _ & Hevals & _ & _
        & _ & Hargs); rewrite ?Hfargs; try done.
  { by apply (chosen_requeued w). }
  rewrite Hcmds in Hstack. simpl in Hstack.
  cbn [readch_loop].
  destruct (input_common_readch_top _ _ _ Hstack) as (r2 & -> & Hl2 & Ht2 & Hp2).
  destruct (Z.leb_spec R_MIN (input_function_get_code name)); [|lia].
  destruct (Z.leb_spec (input_function_get_code name) R_MAX); [|lia].
  simpl. rewrite !decide_False by done.
  eexists. split; [reflexivity|]. simpl. split; [|split; [|split]].
  - intros n.
    rewrite (pending_stack r2 r_rest (input_function_get_code <$> others) n);
      [|done|congruence|congruence].
    destruct (_ !! n); [done|]. rewrite length_fmap, Hinput, Hsame. done.
  - intros j Hj. rewrite <- Hsame, <- Hfargs. by apply Hargs.
  - done.
  - by rewrite Hevals, Hsh.
Qed.

Lemma input_function_get_code_self_insert :
  input_function_get_code (L "self-insert") = R_SELF_INSERT.
Proof. reflexivity. Qed.

(** X19. Self-insert hands the key through: when the next character is not
    a code and the binding that match-or-generic comes up with is bound to
    [self-insert] alone, [input_readch] returns the character that follows
    the sequence of the binding, for the generic binding the very character
    that was typed, and that character is taken off the input. The code of
    [self-insert] has to lie in the reserved range and to be another than
    [R_EOF] and -1, and another than the codes of the two functions that
    take a character. *)
Theorem input_readch_self_insert (fuel : nat) (allow_commands : bool) (w : world)
    (m : input_mapping_t) :
  ¬ (R_MIN ≤ pending (rd w) 0 ≤ R_MAX) →
  chosen (scan_mappings (input_get_bind_mode w) (mapping_list (bindings w)) None
            (rd w)).1 = Some m →
  commands m = [L "self-insert"] →
  R_MIN ≤ R_SELF_INSERT ≤ R_MAX → R_SELF_INSERT ≠ R_EOF → R_SELF_INSERT ≠ -1 →
  R_SELF_INSERT ≠ R_FORWARD_JUMP → R_SELF_INSERT ≠ R_BACKWARD_JUMP →
  0 ≤ input_function_args_index (fargs w) ≤ MAX_INPUT_FUNCTION_ARGS →
  ∃ w',
    input_readch parser_eval false default_allow_commands (S (S fuel)) allow_commands w
      = Value (pending (rd w) (length (c_str (seq m))), w') ∧
    (∀ n, pending (rd w') n = pending (rd w) (length (c_str (seq m)) + 1 + n)) ∧
    input_get_bind_mode w' = c_str (sets_mode m) ∧
    fargs w' = fargs (input_function_set_status true w) ∧
    bindings w' = bindings w.
Proof.
  intros Hrange Hchosen Hcmds Hcode Heof Hreg Hforward Hbackward Hidx.
  unfold input_readch.
  destruct (readch_loop_round (S fuel) allow_commands w Hrange)
    as (w_a & Hsame & Hb & Hsh & Hfargs & ->).
  pose proof (chosen_requeued w w_a m Hsame Hb Hsh Hchosen) as Hchosen_a.
  unfold input_mapping_execute_matching_or_generic.
  destruct (scan_mappings _ _ _ (rd w_a)) as [found r_s] eqn:Hscan.
  simpl in Hchosen_a.
  destruct (scan_mappings_chosen_input _ _ _ _ _ _ Hscan Hchosen_a)
    as (_ & _ & _ & Hinput).
  assert (∀ X : option world,
            match found with
            | Matched m0 =>
                input_mapping_execute parser_eval m0 allow_commands (with_rd r_s w_a)
            | Exhausted (Some generic) =>
                input_mapping_execute parser_eval generic allow_commands (with_rd r_s w_a)
            | Exhausted None => X
            end = input_mapping_execute parser_eval m allow_commands (with_rd r_s w_a))
    as Hexec.
  { intros X. destruct found as [?|[?|]]; simpl in Hchosen_a; by simplify_eq. }
  rewrite Hexec. clear Hexec.
  unfold input_mapping_execute. rewrite Hcmds. simpl.
  rewrite input_function_get_code_self_insert.
  rewrite !decide_True by done.
  unfold input_function_push_args.
  replace (input_function_arity R_SELF_INSERT) with 0.
  2:{ unfold input_function_arity. by rewrite !decide_False. }
  simpl. rewrite decide_True by done. cbn [readch_loop]. simpl.
  destruct (Z.leb_spec R_MIN R_SELF_INSERT); [|lia].
  destruct (Z.leb_spec R_SELF_INSERT R_MAX); [|lia].
  simpl. rewrite decide_False by done. rewrite decide_True by done.
  match goal with
  | |- context [input_common_readch false ?r] => set (r2 := r)
  end.
  assert (∀ n, pending r2 n = pending r_s n) as Hr2 by done.
  destruct (input_common_readch false r2) as [c r3] eqn:Hread.
  apply input_common_readch_pending in Hread as [-> Hnext].
  eexists. split.
  { rewrite Hr2, (Hinput 0%nat), Nat.add_0_r, Hsame. reflexivity. }
  simpl. split; [|split; [|split]].
  - intros n. rewrite Hnext, Hr2, Hinput, Hsame. f_equal. lia.
  - done.
  - by rewrite Hfargs.
  - done.
Qed.

Lemma capture_args_shell (cmds : list wcstring) (w : world) :
  Forall (λ command, input_function_get_code command = -1) cmds →
  capture_args cmds w = Some w.
Proof.
  induction 1 as [|command cmds Hcode _ IH]; [done|].
  simpl. by rewrite decide_False by (by rewrite Hcode; intros ?).
Qed.

(** X20. A key bound to shell commands, read while commands are not
    allowed: when the next character is not a code and the binding that
    match-or-generic comes up with has shell commands only, [input_readch]
    returns [R_NULL] and the input is what it was before the call, the key
    included; the mode is the same, nothing has been handed to the
    evaluator, and the argument array and its index are as they were.
    [R_NULL] has to lie in the reserved range and to be none of [R_EOF],
    [R_SELF_INSERT] and [R_AND], and the sequence of the binding has to be
    free of the terminator. *)
Theorem input_readch_deferred (fuel : nat) (w : world) (m : input_mapping_t) :
  ¬ (R_MIN ≤ pending (rd w) 0 ≤ R_MAX) →
  chosen (scan_mappings (input_get_bind_mode w) (mapping_list (bindings w)) None
            (rd w)).1 = Some m →
  commands m ≠ [] →
  Forall (λ command, input_function_get_code command = -1) (commands m) →
  c_str (seq m) = seq m →
  R_MIN ≤ R_NULL ≤ R_MAX → R_NULL ≠ R_EOF → R_NULL ≠ R_SELF_INSERT → R_NULL ≠ R_AND →
  ∃ w',
    input_readch parser_eval false default_allow_commands (S (S fuel)) false w
      = Value (R_NULL, w') ∧
    same_input (rd w') (rd w) ∧
    sh w' = sh w ∧
    bindings w' = bindings w ∧
    input_function_args (fargs w') = input_function_args (fargs w) ∧
    input_function_args_index (fargs w') = input_function_args_index (fargs w).
Proof.
  intros Hrange Hchosen Hne Hall Hnul Hcode Heof Hself Hand.
  unfold input_readch.
  destruct (readch_loop_round (S fuel) false w Hrange)
    as (w_a & Hsame & Hb & Hsh & Hfargs & ->).
  pose proof (chosen_requeued w w_a m Hsame Hb Hsh Hchosen) as Hchosen_a.
  unfold input_mapping_execute_matching_or_generic.
  destruct (scan_mappings _ _ _ (rd w_a)) as [found r_s] eqn:Hscan.
  simpl in Hchosen_a.
  destruct (scan_mappings_chosen_input _ _ _ _ _ _ Hscan Hchosen_a)
    as (_ & _ & Hmatches & Hinput).
  assert (∀ X : option world,
            match found with
            | Matched m0 => input_mapping_execute parser_eval m0 false (with_rd r_s w_a)
            | Exhausted (Some generic) =>
                input_mapping_execute parser_eval generic false (with_rd r_s w_a)
            | Exhausted None => X
            end = input_mapping_execute parser_eval m false (with_rd r_s w_a))
    as Hexec.
  { intros X. destruct found as [?|[?|]]; simpl in Hchosen_a; by simplify_eq. }
  rewrite Hexec. clear Hexec.
  unfold input_mapping_execute.
  rewrite capture_args_shell by (by apply Forall_reverse). simpl.
  destruct (reverse (commands m)) as [|command cmds] eqn:Hrev.
  { apply (f_equal reverse) in Hrev. rewrite reverse_involutive in Hrev. done. }
  assert (input_function_get_code command = -1) as Hshell.
  { apply Forall_reverse in Hall. rewrite Hrev in Hall. by inversion Hall. }
  cbn [run_commands]. rewrite decide_False by (by rewrite Hshell; intros ?).
  cbn [readch_loop]. simpl.
  destruct (Z.leb_spec R_MIN R_NULL); [|lia].
  destruct (Z.leb_spec R_NULL R_MAX); [|lia].
  simpl. rewrite !decide_False by done.
  eexists. split; [reflexivity|]. simpl. split; [|by rewrite Hfargs, Hsh, Hb].
  intros n.
  destruct (unread_all_spec (seq m) r_s) as (Hl & Ht & Hp & _).
  rewrite (pending_stack _ r_s (seq m) n); [|done..].
  rewrite <- Hsame.
  match goal with
  | |- context [match ?o with _ => _ end] => destruct o as [x|] eqn:Hx
  end.
  - symmetry. apply Hmatches. rewrite Hnul. exact Hx.
  - rewrite Hinput, Hnul. f_equal. apply lookup_ge_None in Hx. lia.
Qed.

Lemma drain_codes_spec (codes : list wchar_t) (c : wchar_t) (fuel : nat)
    (r : input_common_t) (rest : list wchar_t) :
  lookahead r = codes ++ c :: rest →
  Forall (λ x, x ≠ 0 ∧ R_MIN ≤ x ≤ R_MAX) codes →
  ¬ (c ≠ 0 ∧ R_MIN ≤ c ≤ R_MAX) →
  (length codes < fuel)%nat →
  ∃ r', drain_codes fuel r = Some (c, r') ∧ lookahead r' = rest ∧
        tty r' = tty r ∧ tty_pos r' = tty_pos r.
Proof.
  revert fuel r. induction codes as [|x codes IH]; intros fuel r Hl Hcodes Hc Hfuel;
    (destruct fuel as [|fuel]; [simpl in Hfuel; lia|]); cbn [drain_codes].
  - destruct (input_common_readch_top r c rest Hl) as (r' & -> & ? & ? & ?).
    destruct (Z.eqb_spec c 0), (Z.leb_spec R_MIN c), (Z.leb_spec c R_MAX); simpl;
      try (by eexists); exfalso; apply Hc; lia.
  - destruct (input_common_readch_top r x (codes ++ c :: rest) Hl)
      as (r' & -> & Hl' & Ht' & Hp').
    apply Forall_cons in Hcodes as [(Hx0 & Hx) Hcodes].
    destruct (Z.eqb_spec x 0); [done|].
    destruct (Z.leb_spec R_MIN x); [|lia]. destruct (Z.leb_spec x R_MAX); [|lia].
    simpl. destruct (IH fuel r' Hl' Hcodes Hc) as (r'' & -> & ? & ? & ?);
      [simpl in Hfuel; lia|].
    eexists. split; [done|]. split; [done|]. split; congruence.
Qed.

(** X21. Chaining with [and]: when [R_AND] is on top of the stack, it lies
    in the reserved range and is none of [R_EOF] and [R_SELF_INSERT], the
    read goes on as a call of [input_readch()] would, with the argument the
    declaration gives it and not the one of the caller. If the status of
    the last function is true it goes on with what lies under [R_AND]. If
    it is false, the codes that follow on the stack are dropped, up to the
    first character that is 0 or not a code, which stays. *)
Theorem input_readch_and (fuel : nat) (allow_commands : bool) (w : world)
    (codes : list wchar_t) (c : wchar_t) (rest : list wchar_t) :
  lookahead (rd w) = R_AND :: codes ++ c :: rest →
  R_MIN ≤ R_AND ≤ R_MAX → R_AND ≠ R_EOF → R_AND ≠ R_SELF_INSERT →
  Forall (λ x, x ≠ 0 ∧ R_MIN ≤ x ≤ R_MAX) codes →
  ¬ (c ≠ 0 ∧ R_MIN ≤ c ≤ R_MAX) →
  (length codes < fuel)%nat →
  ∃ r',
    tty r' = tty (rd w) ∧ tty_pos r' = tty_pos (rd w) ∧
    lookahead r' =
      (if input_function_status (fargs w) then codes ++ c :: rest else c :: rest) ∧
    input_readch parser_eval false default_allow_commands (S fuel) allow_commands w =
      input_readch parser_eval false default_allow_commands fuel
        default_allow_commands (with_rd r' w).
Proof.
  intros Hl Hrange Heof Hself Hcodes Hc Hfuel. unfold input_readch.
  cbn [readch_loop].
  destruct (input_common_readch_top _ _ _ Hl) as (r1 & -> & Hl1 & Ht1 & Hp1).
  destruct (Z.leb_spec R_MIN R_AND); [|lia]. destruct (Z.leb_spec R_AND R_MAX); [|lia].
  simpl. rewrite !decide_False by done. rewrite decide_True by done.
  destruct (input_function_status (fargs w)).
  - by exists r1.
  - destruct (drain_codes_spec codes c fuel r1 rest Hl1 Hcodes Hc Hfuel)
      as (r2 & -> & Hl2 & Ht2 & Hp2).
    exists (input_unreadch c r2). simpl. split; [congruence|]. split; [congruence|].
    split; [by rewrite Hl2|done].
Qed.

End ReadLoopProperties.

(** ** Listing the bindings *)

Lemma stamped_snoc (keys : list (wcstring * wcstring)) (k : wcstring * wcstring) :
  stamped (keys ++ [k]) = stamped keys ++ [(Z.of_nat (S (length keys)), k)].
Proof. unfold stamped. rewrite imap_app. simpl. by rewrite Nat.add_0_r. Qed.

Lemma elem_of_stamped (keys : list (wcstring * wcstring)) (z : Z)
    (k : wcstring * wcstring) :
  (z, k) ∈ stamped keys ↔ ∃ i, z = Z.of_nat (S i) ∧ keys !! i = Some k.
Proof.
  unfold stamped. rewrite elem_of_lookup_imap. split.
  - intros (i & k' & [= -> ->] & Hi). eauto.
  - intros (i & -> & Hi). eauto.
Qed.

Lemma stamped_sorted (keys : list (wcstring * wcstring)) :
  StronglySorted (λ p q : Z * (wcstring * wcstring), p.1 ≤ q.1) (stamped keys).
Proof.
  induction keys as [|k keys IH] using rev_ind; [constructor|].
  rewrite stamped_snoc. apply StronglySorted_app_2; [|done|repeat constructor].
  intros [z1 k1] [z2 k2] (i & -> & Hi)%elem_of_stamped [= -> ->]%list_elem_of_singleton.
  simpl. apply lookup_lt_Some in Hi. lia.
Qed.

(** What a run of adds from the empty table keeps: the bindings, with their
    stamps, are the pairs in the order of their first addition with the
    stamps 1, 2, ..., and the counter counts them. *)
Lemma run_adds_stamped (ops : list add_args) :
  Z.of_nat (length ops) ≤ UINT_MAX →
  let b := run_adds ops no_bindings in
  stamp_and_key <$> mapping_list b ≡ₚ stamped (first_keys ops) ∧
  s_last_input_mapping_specification_order b = Z.of_nat (length (first_keys ops)) ∧
  (length (first_keys ops) ≤ length ops)%nat.
Proof.
  induction ops as [|a ops IH] using rev_ind; intros Hlen; [done|].
  rewrite length_app in Hlen. simpl in Hlen.
  destruct IH as (Hperm & Hlast & Hcount); [lia|].
  unfold run_adds, first_keys in *. rewrite !foldl_app. simpl.
  set (b := foldl apply_add no_bindings ops) in *.
  set (keys := foldl note_key [] ops) in *.
  destruct a as [[[sequence cmds] mode'] sets_mode']. unfold note_key. simpl.
  rewrite length_app. simpl.
  case_decide as Hin.
  - apply list_elem_of_lookup in Hin as [i Hi].
    assert ((Z.of_nat (S i), (sequence, mode')) ∈ stamp_and_key <$> mapping_list b)
      as (m0 & [= Hstamp Hseq Hmode] & Hm0)%list_elem_of_fmap.
    { rewrite Hperm. apply elem_of_stamped. eauto. }
    destruct (list_find_elem_of (λ m, seq m = sequence ∧ mode m = mode')
                (mapping_list b) m0 Hm0) as [[j m] Hfind]; [done|].
    rewrite (input_mapping_add_found _ _ _ _ _ _ _ Hfind). simpl.
    apply list_find_Some in Hfind as (Hj & _ & _).
    rewrite list_fmap_insert, list_insert_id; [split; [done|split; [done|lia]]|].
    by rewrite list_lookup_fmap, Hj.
  - assert (list_find (λ m, seq m = sequence ∧ mode m = mode') (mapping_list b) = None)
      as Hfind.
    { apply list_find_None, Forall_forall. intros m Hm [Hs Hmd]. apply Hin.
      assert (stamp_and_key m ∈ stamped keys) as (i & _ & Hi)%elem_of_stamped.
      { rewrite <- Hperm. by apply list_elem_of_fmap_2. }
      apply list_elem_of_lookup. exists i. unfold key in Hi. by rewrite Hs, Hmd in Hi. }
    rewrite (input_mapping_add_fresh _ _ _ _ _ Hfind). simpl.
    unfold input_mapping_insert_sorted. unfold UINT_MAX in Hlen.
    rewrite Hlast, Z.mod_small by lia.
    rewrite length_app. simpl. split; [|split; [lia|lia]].
    rewrite vector_insert_Permutation, fmap_cons, stamped_snoc, Hperm.
    rewrite <- Permutation_cons_append. unfold stamp_and_key at 1, key. simpl.
    do 2 f_equiv. lia.
Qed.

Lemma std_sort_sorted (l : list input_mapping_t) :
  StronglySorted (λ m1 m2, specification_order m1 ≤ specification_order m2)
    (std_sort specification_order_is_less_than l) ∧
  std_sort specification_order_is_less_than l ≡ₚ l.
Proof.
  unfold std_sort. split; [|apply merge_sort_Permutation].
  set (R := λ x y : input_mapping_t, specification_order_is_less_than y x = false).
  assert (Transitive R) as Htrans.
  { intros x y z. unfold R, specification_order_is_less_than. rewrite !Z.ltb_ge. lia. }
  assert (Total R) as Htotal.
  { intros x y. unfold R, specification_order_is_less_than. rewrite !Z.ltb_ge. lia. }
  rewrite <- (list_fmap_id (merge_sort R l)).
  eapply (StronglySorted_fmap id R); [|by apply (StronglySorted_merge_sort R)].
  intros x y. unfold R, specification_order_is_less_than. by rewrite Z.ltb_ge.
Qed.

(** X22. The listing is in the order of the first additions: after a run of
    fewer than [UINT_MAX] calls of [input_mapping_add] from the empty
    table, [input_mapping_get_names] gives the sequences of the pairs of
    sequence and mode that were added, each pair once, in the order in
    which the pairs were first added, whatever the order of the table
    is. *)
Theorem input_mapping_get_names_order (ops : list add_args) :
  Z.of_nat (length ops) < UINT_MAX →
  input_mapping_get_names (run_adds ops no_bindings) = fst <$> first_keys ops.
Proof.
  intros Hlen. unfold input_mapping_get_names.
  destruct (run_adds_stamped ops ltac:(lia)) as (Hperm & _ & _).
  set (l := mapping_list (run_adds ops no_bindings)) in *.
  destruct (std_sort_sorted l) as [Hsorted Hsame].
  set (sorted := std_sort specification_order_is_less_than l) in *.
  assert (stamp_and_key <$> sorted = stamped (first_keys ops)) as Heq.
  { apply (StronglySorted_unique_strong (λ p q : Z * (wcstring * wcstring), p.1 ≤ q.1)).
    - intros [z1 k1] [z2 k2] H1 (i2 & -> & Hi2)%elem_of_stamped Hle Hge.
      rewrite Hsame, Hperm in H1. apply elem_of_stamped in H1 as (i1 & -> & Hi1).
      simpl in *. assert (i1 = i2) as -> by lia. congruence.
    - eapply StronglySorted_fmap; [|exact Hsorted]. done.
    - apply stamped_sorted.
    - by rewrite Hsame. }
  transitivity ((fst ∘ snd) <$> (stamp_and_key <$> sorted)).
  { rewrite <- list_fmap_compose. done. }
  rewrite Heq. unfold stamped. rewrite fmap_imap.
  rewrite <- (imap_const fst). done.
Qed.

(** ** Commands that are run, and keys that are not bound *)

Section MoreReadLoopProperties.
Context `{Headers}.



(** X24. A key that nothing is bound to is dropped: when the next character
    is not a code, [R_EOF] is a code, no binding of the current mode with a
    sequence matches the input and the mode has no generic binding, a round
    of the read loop takes that one character off the input and changes
    nothing else but the log of reads; the loop goes on with the
    character after it. *)
Theorem input_readch_unbound (parser_eval : wcstring → world → world)
    (default_allow_commands : bool) (fuel : nat) (allow_commands : bool) (w : world) :
  ¬ (R_MIN ≤ pending (rd w) 0 ≤ R_MAX) →
  R_MIN ≤ R_EOF ≤ R_MAX →
  (∀ m, m ∈ mapping_list (bindings w) → mode m = input_get_bind_mode w →
        seq m ≠ [] ∧ ¬ matches m (rd w)) →
  ∃ r',
    (∀ n, pending r' n = pending (rd w) (S n)) ∧ tty r' = tty (rd w) ∧
    input_readch parser_eval false default_allow_commands (S fuel) allow_commands w =
      input_readch parser_eval false default_allow_commands fuel allow_commands
        (with_rd r' w).
Proof.
  intros Hrange Heof Hnone. unfold input_readch. cbn [readch_loop].
  destruct (input_common_readch false (rd w)) as [c r1] eqn:Hread.
  pose proof (requeue_same_input _ _ _ Hread) as Hsame.
  pose proof Hread as (_ & _ & Ht1 & _)%input_common_readch_spec.
  apply input_common_readch_pending in Hread as [-> Hnext].
  assert ((R_MIN <=? pending (rd w) 0) && (pending (rd w) 0 <=? R_MAX) = false) as ->.
  { destruct (Z.leb_spec R_MIN (pending (rd w) 0)),
             (Z.leb_spec (pending (rd w) 0) R_MAX); simpl; try done. lia. }
  unfold input_mapping_execute_matching_or_generic. simpl.
  unfold input_get_bind_mode in *. simpl.
  destruct (scan_mappings _ _ _ _) as [found r_s] eqn:Hscan.
  pose proof (scan_mappings_spec _ _ _ _ _ _ Hscan) as Hspec.
  destruct found as [m|[g|]].
  - destruct Hspec as (Hm & Hmode & _ & Hmatches & _).
    destruct (Hnone m Hm Hmode) as [_ []].
    by apply (matches_same_input m _ (rd w)) in Hmatches.
  - destruct Hspec as (_ & _ & [[? _]|(g' & [= <-] & Hg & Hmode & Hseq)]); [done|].
    by destruct (Hnone g Hg Hmode) as [[] _].
  - destruct Hspec as (_ & Hsame_s & _).
    destruct (input_common_readch false r_s) as [c r2] eqn:Hread2.
    pose proof Hread2 as (_ & _ & Ht2 & _)%input_common_readch_spec.
    apply input_common_readch_pending in Hread2 as [-> Hnext2].
    rewrite decide_False.
    2:{ rewrite Hsame_s, Hsame. intros Hc. rewrite Hc in Hrange. done. }
    exists r2. split; [|split; [|done]].
    + intros n. by rewrite Hnext2, Hsame_s, Hsame.
    + rewrite Ht2.
      assert (∀ bm l g r found' r', scan_mappings bm l g r = (found', r') → tty r' = tty r)
        as Htty.
      { clear. intros bm l. induction l as [|m l IH]; intros g r found' r';
          cbn [scan_mappings]; [by intros [= _ <-]|].
        case_decide; [apply IH|]. destruct (length (seq m) =? 0)%nat; [apply IH|].
        destruct (input_mapping_is_match m r) as [[] r1] eqn:Hm.
        - intros [= _ <-]. by apply input_mapping_is_match_true in Hm as (_ & _ & ? & _).
        - intros Hrec%IH. rewrite Hrec.
          by apply input_mapping_is_match_false in Hm as (j & _ & _ & _ & _ & ? & _). }
      rewrite (Htty _ _ _ _ _ _ Hscan). simpl. done.
Qed.

End MoreReadLoopProperties.

(** ** The further properties on the sample states *)

Lemma input_mapping_erase_gone_witness :
  NoDup (key <$> mapping_list
           (input_mapping_erase (L "ab") (Some DEFAULT_BIND_MODE) abc_bindings).2) ∧
  length (mapping_list abc_bindings)
    = S (length (mapping_list
                   (input_mapping_erase (L "ab") (Some DEFAULT_BIND_MODE) abc_bindings).2)).
Proof.
  assert (NoDup (key <$> mapping_list abc_bindings)) as Hnd.
  { apply (bool_decide_unpack _). vm_compute. exact I. }
  destruct (input_mapping_erase_gone (L "ab") DEFAULT_BIND_MODE abc_bindings
              (input_mapping_erase (L "ab") (Some DEFAULT_BIND_MODE) abc_bindings).2
              Hnd) as (Hnd' & _ & Hlen).
  - reflexivity.
  - split; [exact Hnd'|exact Hlen].
Defined.

Lemma run_ops_stamps_fresh_witness :
  ∃ new,
    new ∈ mapping_list (input_mapping_add (L "a") [L "yank"] DEFAULT_BIND_MODE
                          DEFAULT_BIND_MODE (run_ops sample_ops no_bindings)) ∧
    key new = (L "a", DEFAULT_BIND_MODE) ∧
    ∀ m, m ∈ mapping_list (run_ops sample_ops no_bindings) →
         specification_order m < specification_order new.
Proof.
  assert (Z.of_nat (length sample_ops) < UINT_MAX) as Hlen by (vm_compute; reflexivity).
  destruct (run_ops_stamps_fresh sample_ops (L "a") [L "yank"] DEFAULT_BIND_MODE
              DEFAULT_BIND_MODE Hlen) as (_ & _ & Hnew).
  destruct Hnew as (new & Hin & Hkey & _ & _ & Hstamp).
  - apply Forall_forall. apply (bool_decide_unpack _). vm_compute. exact I.
  - exists new. split; [exact Hin|]. split; [exact Hkey|exact Hstamp].
Defined.

Lemma input_mapping_add_position_witness :
  ∃ before after new,
    mapping_list abc_bindings = before ++ after ∧
    mapping_list (input_mapping_add (L "xy") [L "yank"] DEFAULT_BIND_MODE
                    DEFAULT_BIND_MODE abc_bindings) = before ++ new :: after ∧
    (∀ m, m ∈ after → (length (seq m) ≤ length (L "xy"))%nat).
Proof.
  destruct (input_mapping_add_position (L "xy") [L "yank"] DEFAULT_BIND_MODE
              DEFAULT_BIND_MODE abc_bindings)
    as (before & after & new & Hold & Hnew & _ & _ & Hafter).
  - apply (run_adds_descending
             [(L "a", [L "backward-char"], DEFAULT_BIND_MODE, DEFAULT_BIND_MODE);
              (L "ab", [L "forward-char"], DEFAULT_BIND_MODE, DEFAULT_BIND_MODE);
              (L "abc", [L "end-of-line"], DEFAULT_BIND_MODE, DEFAULT_BIND_MODE)]
             no_bindings).
    intros i j m1 m2 Hi. destruct i; discriminate Hi.
  - apply Forall_forall. apply (bool_decide_unpack _). vm_compute. exact I.
  - exists before, after, new. split; [exact Hold|]. split; [exact Hnew|exact Hafter].
Defined.

Lemma input_mapping_add_then_get_witness :
  input_mapping_get (L "ab")
    (input_mapping_add (L "ab") [L "yank"] DEFAULT_BIND_MODE (L "insert") abc_bindings)
  = Some ([L "yank"], DEFAULT_BIND_MODE, L "insert").
Proof.
  apply (input_mapping_add_then_get (L "ab") [L "yank"] DEFAULT_BIND_MODE (L "insert")
           abc_bindings).
  apply (proj1 (Forall_forall (λ m, seq m = L "ab" → mode m = DEFAULT_BIND_MODE) _)).
  apply (bool_decide_unpack _). vm_compute. exact I.
Defined.

Lemma scan_mappings_longest_match_witness :
  ∃ m r,
    scan_mappings DEFAULT_BIND_MODE (mapping_list abc_bindings) None
      (reader_of (L "abx")) = (Matched m, r) ∧
    (length (L "a") ≤ length (seq m))%nat.
Proof.
  assert (descending (mapping_list abc_bindings)) as Hd.
  { apply (run_adds_descending
             [(L "a", [L "backward-char"], DEFAULT_BIND_MODE, DEFAULT_BIND_MODE);
              (L "ab", [L "forward-char"], DEFAULT_BIND_MODE, DEFAULT_BIND_MODE);
              (L "abc", [L "end-of-line"], DEFAULT_BIND_MODE, DEFAULT_BIND_MODE)]
             no_bindings).
    intros i j m1 m2 Hi. destruct i; discriminate Hi. }
  destruct (scan_mappings DEFAULT_BIND_MODE (mapping_list abc_bindings) None
              (reader_of (L "abx"))) as [found r] eqn:Hscan.
  pose proof Hscan as Hvalue. vm_compute in Hvalue.
  injection Hvalue as <- <-.
  eexists _, _. split; [reflexivity|].
  apply (scan_mappings_longest_match DEFAULT_BIND_MODE (mapping_list abc_bindings)
           (reader_of (L "abx")) _ _ Hd Hscan
           {| seq := L "a"; commands := [L "backward-char"]; specification_order := 1;
              mode := DEFAULT_BIND_MODE; sets_mode := DEFAULT_BIND_MODE |}).
  - apply list_elem_of_lookup. exists 2%nat. reflexivity.
  - reflexivity.
  - discriminate.
  - intros i x Hi. destruct i as [|i]; [|destruct i; discriminate Hi].
    injection Hi as <-. reflexivity.
Defined.

Lemma input_function_push_pop_witness :
  ∃ w1 w2,
    input_function_push_arg 120 (world_of no_bindings []) = Some w1 ∧
    input_function_pop_arg w1 = Some (120, w2) ∧
    input_function_args_index (fargs w2) = 0 ∧
    input_function_args (fargs w2) = 120 :: replicate 19 0 ∧
    input_function_status (fargs w2) = false.
Proof.
  destruct (input_function_push_pop 120 (world_of no_bindings [])
              (default (world_of no_bindings [])
                 (input_function_push_arg 120 (world_of no_bindings []))))
    as (w2 & Hpop & -> & Hindex & _ & Hstatus & _).
  - reflexivity.
  - reflexivity.
  - eexists _, _. split; [reflexivity|]. split; [exact Hpop|].
    split; [exact Hindex|]. split; [reflexivity|exact Hstatus].
Defined.

Lemma input_mapping_execute_functions_witness :
  ∃ w',
    input_mapping_execute idle_eval jump_mapping false (world_of no_bindings (L "x"))
      = Some w' ∧
    input_get_bind_mode w' = L "insert" ∧
    parser_evals (sh w') = [].
Proof.
  destruct (input_mapping_execute_functions idle_eval jump_mapping false
              (world_of no_bindings (L "x")))
    as (w1 & w' & _ & Hexec & _ & Hmode & Hevals & _).
  - apply (bool_decide_unpack _). vm_compute. exact I.
  - vm_compute. discriminate.
  - vm_compute. discriminate.
  - exists w'. split; [exact Hexec|]. split; [exact Hmode|exact Hevals].
Defined.


Lemma input_function_get_code_registered_witness :
  L "yank" ∈ input_function_get_names ↔ input_function_get_code (L "yank") ≠ -1.
Proof.
  assert (NoDup code_arr) as Hdistinct
    by (apply (bool_decide_unpack _); vm_compute; exact I).
  assert (∀ c, c ∈ code_arr → c ≠ -1) as Hcodes.
  { apply (proj1 (Forall_forall (λ c, c ≠ -1) code_arr)).
    apply (bool_decide_unpack _). vm_compute. exact I. }
  exact (proj1 (input_function_get_code_registered Hdistinct Hcodes) (L "yank")).
Defined.

Lemma input_function_arity_by_name_witness :
  input_function_arity (input_function_get_code (L "forward-jump")) = 1 ∧
  input_function_arity (input_function_get_code (L "yank")) = 0.
Proof.
  split.
  - assert (L "forward-jump" ∈ input_function_get_names) as Hin
      by (apply list_elem_of_lookup; exists 44%nat; reflexivity).
    assert (NoDup code_arr) as Hdistinct
      by (apply (bool_decide_unpack _); vm_compute; exact I).
    exact (input_function_arity_by_name (L "forward-jump") Hdistinct Hin).
  - reflexivity.
Defined.

Lemma input_terminfo_name_sequence_round_trip_witness :
  let w := world_of no_bindings [] in
  let w1 := default w (input_init w) in
  input_terminfo_get_name [27; 91; 65] w = Some (Some (L "up"), w1) ∧
  input_terminfo_get_sequence (Some (L "up")) w = Some (true, Some [27; 91; 65], w1).
Proof.
  intros w w1.
  assert (input_init w = Some w1) as Hinit by reflexivity.
  assert (NoDup (terminfo.name <$> terminfo_mappings w1)) as Hnd.
  { apply (bool_decide_unpack _). vm_compute. exact I. }
  assert (input_terminfo_get_name [27; 91; 65] w = Some (Some (L "up"), w1)) as Hname
    by (vm_compute; reflexivity).
  split; [exact Hname|].
  exact (proj1 (input_terminfo_name_sequence_round_trip w w1 Hinit Hnd)
           [27; 91; 65] (L "up") Hname).
Defined.

Lemma input_terminfo_get_names_listed_witness :
  let w := world_of no_bindings [] in
  let w1 := default w (input_init w) in
  ∃ names,
    input_terminfo_get_names true w = Some (names, w1) ∧
    (L "f20" ∈ names ↔
     ∃ seq', input_terminfo_get_sequence (Some (L "f20")) w
             = Some (true, Some seq', w1)).
Proof.
  intros w w1.
  assert (input_init w = Some w1) as Hinit by reflexivity.
  assert (NoDup (terminfo.name <$> terminfo_mappings w1)) as Hnd.
  { apply (bool_decide_unpack _). vm_compute. exact I. }
  assert (ENOENT ≠ EILSEQ) as Herrno by (cbn; discriminate).
  exact (proj1 (input_terminfo_get_names_listed w w1 (L "f20") Hinit Hnd Herrno)).
Defined.

Lemma input_init_once_witness :
  let w := world_of no_bindings [] in
  let w1 := default w (input_init w) in
  input_init w1 = Some w1 ∧ is_init w1 = true ∧
  bindings w1 = default_bindings no_bindings ∧
  output_term (output w1) = Some (L "xterm").
Proof.
  intros w w1.
  assert (input_init w = Some w1) as Hinit by reflexivity.
  destruct (proj2 (input_init_once w w1 Hinit) eq_refl)
    as (Hagain & Hflag & _ & _ & Hdefault & _ & _ & _ & Hterm & _).
  split; [exact Hagain|]. split; [exact Hflag|].
  split; [exact (Hdefault eq_refl)|exact Hterm].
Defined.

Lemma input_init_fallback_witness :
  ∃ w1,
    @input_init fallback_headers (world_of no_bindings []) = Some w1 ∧
    TERM (sh w1) = Some (L "ansi") ∧
    output_term (output w1) = Some (L "xterm") ∧
    output_supports_term256 (output w1) = false ∧
    errno w1 = 2.
Proof.
  destruct (@input_init_fallback fallback_headers (world_of no_bindings [])
              (L "xterm") ansi_terminal 2 2 eq_refl eq_refl eq_refl eq_refl)
    as (w1 & Hinit & HTERM & _ & _ & Hterm & Herrno & H256).
  exists w1. split; [exact Hinit|]. split; [exact HTERM|]. split; [exact Hterm|].
  split; [|exact Herrno]. apply H256. left. reflexivity.
Defined.

Lemma input_readch_function_witness :
  ∃ w',
    input_readch idle_eval false true 2 true
      (world_of (default_bindings no_bindings) [10]) = Value (R_EXECUTE, w') ∧
    input_get_bind_mode w' = DEFAULT_BIND_MODE.
Proof.
  pose (w := world_of (default_bindings no_bindings) [10]).
  assert (¬ (R_MIN ≤ pending (rd w) 0 ≤ R_MAX)) as Hrange
    by (vm_compute; intros [Hc _]; by apply Hc).
  assert (chosen (scan_mappings (input_get_bind_mode w) (mapping_list (bindings w)) None
                    (rd w)).1 = Some execute_mapping) as Hchosen
    by (vm_compute; reflexivity).
  assert (Forall (λ command, input_function_get_code command ≠ -1)
            (commands execute_mapping)) as Hall
    by (apply (bool_decide_unpack _); vm_compute; exact I).
  assert (R_MIN ≤ input_function_get_code (L "execute") ≤ R_MAX) as Hcode
    by (vm_compute; split; discriminate).
  assert (input_function_get_code (L "execute") ≠ R_EOF) as Heof
    by (vm_compute; discriminate).
  assert (input_function_get_code (L "execute") ≠ R_SELF_INSERT) as Hself
    by (vm_compute; discriminate).
  assert (input_function_get_code (L "execute") ≠ R_AND) as Hand
    by (vm_compute; discriminate).
  assert (0 ≤ input_function_args_index (fargs w)) as Hlo
    by (vm_compute; discriminate).
  assert (input_function_args_index (fargs w)
          + Z.of_nat (args_needed (commands execute_mapping))
          ≤ MAX_INPUT_FUNCTION_ARGS) as Hhi by (vm_compute; discriminate).
  destruct (input_readch_function idle_eval true 0 true w execute_mapping
              (L "execute") [] Hrange Hchosen eq_refl Hall Hcode Heof Hself Hand
              Hlo Hhi eq_refl) as (w' & Hread & _ & _ & Hmode & _).
  exists w'. split; [exact Hread|exact Hmode].
Defined.

Lemma input_readch_self_insert_witness :
  ∃ w',
    input_readch idle_eval false true 2 true
      (world_of (default_bindings no_bindings) (L "a")) = Value (97, w') ∧
    pending (rd w') 0 = R_EOF.
Proof.
  pose (w := world_of (default_bindings no_bindings) (L "a")).
  assert (¬ (R_MIN ≤ pending (rd w) 0 ≤ R_MAX)) as Hrange
    by (vm_compute; intros [Hc _]; by apply Hc).
  assert (chosen (scan_mappings (input_get_bind_mode w) (mapping_list (bindings w)) None
                    (rd w)).1 = Some self_insert_mapping) as Hchosen
    by (vm_compute; reflexivity).
  assert (R_MIN ≤ R_SELF_INSERT ≤ R_MAX) as Hcode by (vm_compute; split; discriminate).
  assert (R_SELF_INSERT ≠ R_EOF) as Heof by (vm_compute; discriminate).
  assert (R_SELF_INSERT ≠ -1) as Hreg by (vm_compute; discriminate).
  assert (R_SELF_INSERT ≠ R_FORWARD_JUMP) as Hforward by (vm_compute; discriminate).
  assert (R_SELF_INSERT ≠ R_BACKWARD_JUMP) as Hbackward by (vm_compute; discriminate).
  assert (0 ≤ input_function_args_index (fargs w) ≤ MAX_INPUT_FUNCTION_ARGS) as Hidx
    by (vm_compute; split; discriminate).
  destruct (input_readch_self_insert idle_eval true 0 true w self_insert_mapping
              Hrange Hchosen eq_refl Hcode Heof Hreg Hforward Hbackward Hidx)
    as (w' & Hread & Hnext & _).
  exists w'. split; [exact Hread|]. exact (Hnext 0%nat).
Defined.

Lemma input_readch_deferred_witness :
  ∃ w',
    input_readch idle_eval false true 2 false
      (world_of (default_bindings no_bindings) [3]) = Value (R_NULL, w') ∧
    pending (rd w') 0 = 3 ∧
    sh w' = sh (world_of (default_bindings no_bindings) [3]).
Proof.
  pose (w := world_of (default_bindings no_bindings) [3]).
  assert (¬ (R_MIN ≤ pending (rd w) 0 ≤ R_MAX)) as Hrange
    by (vm_compute; intros [Hc _]; by apply Hc).
  assert (chosen (scan_mappings (input_get_bind_mode w) (mapping_list (bindings w)) None
                    (rd w)).1 = Some commandline_mapping) as Hchosen
    by (vm_compute; reflexivity).
  assert (commands commandline_mapping ≠ []) as Hne by discriminate.
  assert (Forall (λ command, input_function_get_code command = -1)
            (commands commandline_mapping)) as Hall
    by (apply (bool_decide_unpack _); vm_compute; exact I).
  assert (R_MIN ≤ R_NULL ≤ R_MAX) as Hcode by (vm_compute; split; discriminate).
  assert (R_NULL ≠ R_EOF) as Heof by (vm_compute; discriminate).
  assert (R_NULL ≠ R_SELF_INSERT) as Hself by (vm_compute; discriminate).
  assert (R_NULL ≠ R_AND) as Hand by (vm_compute; discriminate).
  destruct (input_readch_deferred idle_eval true 0 w commandline_mapping
              Hrange Hchosen Hne Hall eq_refl Hcode Heof Hself Hand)
    as (w' & Hread & Hsame & Hsh & _).
  exists w'. split; [exact Hread|]. split; [exact (Hsame 0%nat)|exact Hsh].
Defined.

Lemma input_readch_and_witness :
  ∃ r',
    lookahead r' = [97] ∧
    input_readch idle_eval false true 3 false and_world =
      input_readch idle_eval false true 2 true (with_rd r' and_world).
Proof.
  assert (R_MIN ≤ R_AND ≤ R_MAX) as Hrange by (vm_compute; split; discriminate).
  assert (R_AND ≠ R_EOF) as Heof by (vm_compute; discriminate).
  assert (R_AND ≠ R_SELF_INSERT) as Hself by (vm_compute; discriminate).
  assert (Forall (λ x, x ≠ 0 ∧ R_MIN ≤ x ≤ R_MAX) [R_YANK]) as Hcodes.
  { repeat constructor; vm_compute; discriminate. }
  assert (¬ (97 ≠ 0 ∧ R_MIN ≤ 97 ≤ R_MAX)) as Hc
    by (vm_compute; intros (_ & Hc & _); by apply Hc).
  destruct (input_readch_and idle_eval true 2 false and_world [R_YANK] 97 []
              eq_refl Hrange Heof Hself Hcodes Hc) as (r' & _ & _ & Hstack & Hread).
  - vm_compute. constructor.
  - exists r'. split; [exact Hstack|exact Hread].
Defined.

Lemma input_mapping_get_names_order_witness :
  input_mapping_get_names (run_adds sample_adds no_bindings) = [L "a"; L "ab"; L "abc"] ∧
  seq <$> mapping_list (run_adds sample_adds no_bindings) = [L "abc"; L "ab"; L "a"].
Proof.
  assert (Z.of_nat (length sample_adds) < UINT_MAX) as Hlen by (vm_compute; reflexivity).
  split; [|reflexivity].
  exact (input_mapping_get_names_order sample_adds Hlen).
Defined.


Lemma input_readch_unbound_witness :
  ∃ r',
    pending r' 0 = 98 ∧
    input_readch idle_eval false true 1 true (world_of abc_bindings (L "zb")) =
      input_readch idle_eval false true 0 true
        (with_rd r' (world_of abc_bindings (L "zb"))).
Proof.
  pose (w := world_of abc_bindings (L "zb")).
  assert (¬ (R_MIN ≤ pending (rd w) 0 ≤ R_MAX)) as Hrange
    by (vm_compute; intros [Hc _]; by apply Hc).
  assert (R_MIN ≤ R_EOF ≤ R_MAX) as Heof by (vm_compute; split; discriminate).
  destruct (input_readch_unbound idle_eval true 0 true w Hrange Heof)
    as (r' & Hnext & _ & Hread).
  - intros m Hm _. split.
    + repeat (apply elem_of_cons in Hm as [->|Hm]; [discriminate|]).
      by apply elem_of_nil in Hm.
    + intros Hmatch.
      repeat (apply elem_of_cons in Hm as [->|Hm];
              [specialize (Hmatch 0%nat 97 eq_refl); discriminate Hmatch|]).
      by apply elem_of_nil in Hm.
  - exists r'. split; [exact (Hnext 0%nat)|exact Hread].
Defined.
